(** * Aura task scheduler (src/main.js): a shallow embedding and its properties

    The development follows the class [TaskScheduler] of [src/main.js]:

    - JavaScript strings are lists of UTF-16 code units ([list N]);
    - [String.prototype.match] with the five regular expressions of the
      source is a backtracking matcher over a small regex syntax;
    - [JSON.parse] is a lexer and a pushdown parser for the JSON grammar;
    - a [Date] is its time value, an integer number of milliseconds since
      the epoch, or [None] for an Invalid Date (NaN).  [new Date(v)] throws
      a TypeError when [v] cannot be turned into a primitive value, and a
      time value beyond 8.64e15 ms is clipped to NaN, on which
      [toISOString] throws a RangeError: both are what makes
      [resolveConflicts] throw.  How a string is read as a date is left to
      the engine (the parameter [dateOfJson]);
    - the local time zone is a pair of offset functions, so that the offset
      may change along the year; a zone with a constant offset is [fixed].
      The readings of the clock ([now], [clock]) are the present time, far
      from the ends of the range of [Date];
    - [Array.prototype.sort] is a parameter too (the class [engine]): the
      result is a permutation of the array, and it is the stable sorted
      order when the comparator is consistent; with an Invalid Date among
      the elements the order is up to the engine;
    - task objects live in a heap and [this.tasks] is an array of
      references, so that in-place mutation and aliasing are visible;
    - the IndexedDB object store is a list of records in key order together
      with its key generator. *)

From Stdlib Require Import ZArith NArith List String Ascii Bool Lia.
From Stdlib Require Import Sorting.Sorted.
From stdpp Require Import base list.

Open Scope string_scope.
Open Scope list_scope.
Open Scope Z_scope.

(** ** JavaScript strings *)

Definition jsstring := list N.

Fixpoint codes (s : string) : jsstring :=
  match s with
  | EmptyString => []
  | String a r => N_of_ascii a :: codes r
  end.

Definition cu (a : ascii) : N := N_of_ascii a.

Definition jsstring_eqb (a b : jsstring) : bool :=
  bool_decide (a = b).

(** WhiteSpace and LineTerminator code units: the class [\s] of regular
    expressions and the characters removed by [String.prototype.trim]. *)
Definition is_space (c : N) : bool :=
  ((9 <=? c) && (c <=? 13))%N
  || (c =? 32)%N || (c =? 160)%N || (c =? 5760)%N
  || ((8192 <=? c) && (c <=? 8202))%N
  || (c =? 8232)%N || (c =? 8233)%N || (c =? 8239)%N || (c =? 8287)%N
  || (c =? 12288)%N || (c =? 65279)%N.

Definition is_line_terminator (c : N) : bool :=
  (c =? 10)%N || (c =? 13)%N || (c =? 8232)%N || (c =? 8233)%N.

Definition is_digit (c : N) : bool := ((48 <=? c) && (c <=? 57))%N.

Fixpoint trim_start (s : jsstring) : jsstring :=
  match s with
  | c :: r => if is_space c then trim_start r else s
  | [] => []
  end.

Definition trim (s : jsstring) : jsstring :=
  rev (trim_start (rev (trim_start s))).

(** [toLowerCase] and [toUpperCase] on the letters A-Z and a-z, the only
    letters the patterns of the source mention. *)
Definition lower (c : N) : N :=
  if ((65 <=? c) && (c <=? 90))%N then (c + 32)%N else c.

Definition upper (c : N) : N :=
  if ((97 <=? c) && (c <=? 122))%N then (c - 32)%N else c.

Definition toLowerCase (s : jsstring) : jsstring := map lower s.

(** [parseInt] on a string that starts with decimal digits; [None] is NaN. *)
Fixpoint digits_value (acc : Z) (s : jsstring) : Z :=
  match s with
  | c :: r => if is_digit c then digits_value (10 * acc + (Z.of_N c - 48)) r
              else acc
  | [] => acc
  end.

Definition parseInt (s : jsstring) : option Z :=
  match s with
  | c :: _ => if is_digit c then Some (digits_value 0 s) else None
  | [] => None
  end.

(** ** Regular expressions *)

Module Regex.

Inductive re :=
| Eps
| Cls (p : N -> bool)
| Seq (a b : re)
| Alt (a b : re)
| Rep (greedy : bool) (a : re)
| Grp (n : nat) (a : re)
| Ahead (a : re)
| Eoi.

(** Captures, most recent first. *)
Definition caps := list (nat * jsstring).

Fixpoint capture (n : nat) (c : caps) : option jsstring :=
  match c with
  | (m, s) :: r => if Nat.eqb n m then Some s else capture n r
  | [] => None
  end.

Definition mres := option (jsstring * caps).

Definition or_else (a : mres) (b : mres) : mres :=
  match a with Some m => Some m | None => b end.

(** The loop of a quantified atom [a*] or [a*?], where [step] matches the
    atom once.  An iteration that consumes nothing is rejected, as in
    RepeatMatcher; every accepted iteration shortens the input, so
    [fuel] above the length of the input is never exhausted. *)
Fixpoint rep_loop (step : jsstring -> caps -> (jsstring -> caps -> mres) -> mres)
    (greedy : bool) (k : jsstring -> caps -> mres)
    (fuel : nat) (s : jsstring) (c : caps) {struct fuel} : mres :=
  match fuel with
  | O => k s c
  | S f =>
      let more :=
        step s c (fun s1 c1 =>
          if (length s1 <? length s)%nat then rep_loop step greedy k f s1 c1
          else None) in
      if greedy then or_else more (k s c) else or_else (k s c) more
  end.

(** The backtracking matcher: [k] is what remains to be matched. *)
Fixpoint run (r : re) (s : jsstring) (c : caps)
    (k : jsstring -> caps -> mres) {struct r} : mres :=
  match r with
  | Eps => k s c
  | Cls p =>
      match s with
      | x :: s' => if p x then k s' c else None
      | [] => None
      end
  | Seq a b => run a s c (fun s1 c1 => run b s1 c1 k)
  | Alt a b => or_else (run a s c k) (run b s c k)
  | Rep g a => rep_loop (run a) g k (S (length s)) s c
  | Grp n a =>
      run a s c (fun s1 c1 =>
        k s1 ((n, take (length s - length s1) s) :: c1))
  | Ahead a =>
      match run a s c (fun _ c1 => Some ([], c1)) with
      | Some (_, c1) => k s c1
      | None => None
      end
  | Eoi =>
      match s with
      | [] => k s c
      | _ :: _ => None
      end
  end.

(** The match that starts at the head of [s]: matched text and captures. *)
Definition match_here (r : re) (s : jsstring) : option (jsstring * caps) :=
  match run r s [] (fun rest c => Some (rest, c)) with
  | Some (rest, c) => Some (take (length s - length rest) s, c)
  | None => None
  end.

(** [RegExp.prototype.exec] without the global flag: the leftmost start
    index at which the pattern matches. *)
Fixpoint exec (r : re) (s : jsstring) : option (jsstring * caps) :=
  match match_here r s with
  | Some m => Some m
  | None =>
      match s with
      | [] => None
      | _ :: s' => exec r s'
      end
  end.

Definition chr (a : ascii) : re := Cls (N.eqb (cu a)).

(** A literal character under the flag [i]. *)
Definition chr_i (a : ascii) : re :=
  Cls (fun x => N.eqb x (upper (cu a)) || N.eqb x (lower (cu a))).

Fixpoint lit_i (s : string) : re :=
  match s with
  | EmptyString => Eps
  | String a EmptyString => chr_i a
  | String a r => Seq (chr_i a) (lit_i r)
  end.

Definition any : re := Cls (fun _ => true).
Definition dot : re := Cls (fun x => negb (is_line_terminator x)).
Definition ws : re := Cls is_space.
Definition digit : re := Cls is_digit.
Definition opt (a : re) : re := Alt a Eps.
Definition star (a : re) : re := Rep true a.
Definition lazy_star (a : re) : re := Rep false a.
Definition lazy_plus (a : re) : re := Seq a (Rep false a).

End Regex.

Import Regex.

(** [/\[[\s\S]*?\]/] *)
Definition arrayRe : re := Seq (chr "[") (Seq (lazy_star any) (chr "]")).

(** [/\{[\s\S]*?\}/] *)
Definition objectRe : re := Seq (chr "{") (Seq (lazy_star any) (chr "}")).

Definition at_on_time : re :=
  Alt (lit_i "at") (Alt (lit_i "on") (lit_i "time:")).

(** [/(?:task|meeting|appointment):?\s*(.+?)(?=\s*(?:at|on|time:)|$)/i] *)
Definition taskRe : re :=
  Seq (Alt (lit_i "task") (Alt (lit_i "meeting") (lit_i "appointment")))
   (Seq (opt (chr ":"))
    (Seq (star ws)
     (Seq (Grp 1 (lazy_plus dot))
          (Ahead (Alt (Seq (star ws) at_on_time) Eoi))))).

Definition am_pm : re := Alt (lit_i "am") (lit_i "pm").

(** [/(?:at|on|time:)\s*(\d{1,2}(?::\d{2})?\s*(?:am|pm)?)/i] *)
Definition timeRe : re :=
  Seq at_on_time
   (Seq (star ws)
    (Grp 1
      (Seq digit
       (Seq (opt digit)
        (Seq (opt (Seq (chr ":") (Seq digit digit)))
         (Seq (star ws) (opt am_pm))))))).

(** [/(\d{1,2})(?::(\d{2}))?\s*(am|pm)?/i] *)
Definition timeRegex : re :=
  Seq (Grp 1 (Seq digit (opt digit)))
   (Seq (opt (Seq (chr ":") (Grp 2 (Seq digit digit))))
    (Seq (star ws) (opt (Grp 3 am_pm)))).

(** ** JSON.parse *)

Module Json.

#[local] Unset Elimination Schemes.
Inductive json :=
| JNull
| JBool (b : bool)
| JNum (lexeme : jsstring)
| JStr (s : jsstring)
| JArr (items : list json)
| JObj (members : list (jsstring * json)).
#[local] Set Elimination Schemes.

Inductive token :=
| TLBrace | TRBrace | TLBrack | TRBrack | TColon | TComma
| TStr (s : jsstring)
| TNum (lexeme : jsstring)
| TTrue | TFalse | TNull.

(** States of the number grammar: an optional minus sign, then 0 or a
    non-zero digit followed by digits, then an optional fraction and an
    optional exponent. *)
Inductive numst :=
| NMinus | NZero | NInt | NDot | NFrac | NExp | NExpSign | NExpDigits.

Definition num_accepting (st : numst) : bool :=
  match st with
  | NZero | NInt | NFrac | NExpDigits => true
  | _ => false
  end.

Definition num_next (st : numst) (c : N) : option numst :=
  let e := (N.eqb c 101 || N.eqb c 69)%bool in
  let sign := (N.eqb c 43 || N.eqb c 45)%bool in
  match st with
  | NMinus => if N.eqb c 48 then Some NZero
              else if is_digit c then Some NInt else None
  | NZero => if N.eqb c 46 then Some NDot
             else if e then Some NExp else None
  | NInt => if is_digit c then Some NInt
            else if N.eqb c 46 then Some NDot
            else if e then Some NExp else None
  | NDot => if is_digit c then Some NFrac else None
  | NFrac => if is_digit c then Some NFrac
             else if e then Some NExp else None
  | NExp => if is_digit c then Some NExpDigits
            else if sign then Some NExpSign else None
  | NExpSign => if is_digit c then Some NExpDigits else None
  | NExpDigits => if is_digit c then Some NExpDigits else None
  end.

(** Lexer modes; accumulators are reversed. *)
Inductive lmode :=
| LTop
| LStr (acc : jsstring)
| LEsc (acc : jsstring)
| LHex (acc : jsstring) (seen : nat) (v : N)
| LNum (st : numst) (acc : jsstring)
| LWord (rest : jsstring) (t : token).

Definition hex_value (c : N) : option N :=
  if is_digit c then Some (c - 48)%N
  else if ((97 <=? c) && (c <=? 102))%N then Some (c - 87)%N
  else if ((65 <=? c) && (c <=? 70))%N then Some (c - 55)%N
  else None.

Definition is_json_space (c : N) : bool :=
  (N.eqb c 9 || N.eqb c 10 || N.eqb c 13 || N.eqb c 32)%bool.

(** A character read between tokens. *)
Definition lex_top (c : N) : option (lmode * list token) :=
  if is_json_space c then Some (LTop, [])
  else if N.eqb c (cu "{") then Some (LTop, [TLBrace])
  else if N.eqb c (cu "}") then Some (LTop, [TRBrace])
  else if N.eqb c (cu "[") then Some (LTop, [TLBrack])
  else if N.eqb c (cu "]") then Some (LTop, [TRBrack])
  else if N.eqb c (cu ":") then Some (LTop, [TColon])
  else if N.eqb c (cu ",") then Some (LTop, [TComma])
  else if N.eqb c 34 then Some (LStr [], [])
  else if N.eqb c (cu "-") then Some (LNum NMinus [c], [])
  else if N.eqb c (cu "0") then Some (LNum NZero [c], [])
  else if is_digit c then Some (LNum NInt [c], [])
  else if N.eqb c (cu "t") then Some (LWord (codes "rue") TTrue, [])
  else if N.eqb c (cu "f") then Some (LWord (codes "alse") TFalse, [])
  else if N.eqb c (cu "n") then Some (LWord (codes "ull") TNull, [])
  else None.

Definition unescape (c : N) : option N :=
  if N.eqb c 34 then Some 34%N
  else if N.eqb c (cu "\") then Some (cu "\")
  else if N.eqb c (cu "/") then Some (cu "/")
  else if N.eqb c (cu "b") then Some 8%N
  else if N.eqb c (cu "f") then Some 12%N
  else if N.eqb c (cu "n") then Some 10%N
  else if N.eqb c (cu "r") then Some 13%N
  else if N.eqb c (cu "t") then Some 9%N
  else None.

Definition lex_step (m : lmode) (c : N) : option (lmode * list token) :=
  match m with
  | LTop => lex_top c
  | LStr acc =>
      if N.eqb c 34 then Some (LTop, [TStr (rev acc)])
      else if N.eqb c (cu "\") then Some (LEsc acc, [])
      else if (c <? 32)%N then None
      else Some (LStr (c :: acc), [])
  | LEsc acc =>
      if N.eqb c (cu "u") then Some (LHex acc 0 0%N, [])
      else match unescape c with
           | Some x => Some (LStr (x :: acc), [])
           | None => None
           end
  | LHex acc seen v =>
      match hex_value c with
      | Some d =>
          let v' := (16 * v + d)%N in
          if Nat.eqb seen 3 then Some (LStr (v' :: acc), [])
          else Some (LHex acc (S seen) v', [])
      | None => None
      end
  | LNum st acc =>
      match num_next st c with
      | Some st' => Some (LNum st' (c :: acc), [])
      | None =>
          if num_accepting st then
            match lex_top c with
            | Some (m', ts) => Some (m', TNum (rev acc) :: ts)
            | None => None
            end
          else None
      end
  | LWord rest t =>
      match rest with
      | x :: rest' =>
          if N.eqb c x then
            match rest' with
            | [] => Some (LTop, [t])
            | _ :: _ => Some (LWord rest' t, [])
            end
          else None
      | [] => None
      end
  end.

Definition lex_end (m : lmode) : option (list token) :=
  match m with
  | LTop => Some []
  | LNum st acc => if num_accepting st then Some [TNum (rev acc)] else None
  | _ => None
  end.

Fixpoint lex (m : lmode) (s : jsstring) : option (list token) :=
  match s with
  | [] => lex_end m
  | c :: s' =>
      match lex_step m c with
      | Some (m', ts) =>
          match lex m' s' with
          | Some rest => Some (ts ++ rest)
          | None => None
          end
      | None => None
      end
  end.

(** The parser keeps the open containers on a stack. *)
Inductive frame :=
| FArr (done : list json)
| FObj (done : list (jsstring * json)) (key : option jsstring).

Inductive pmode :=
| PValue       (* a value must follow *)
| PFirstElem   (* after "[": a value or "]" *)
| PFirstKey    (* after "{": a key or "}" *)
| PKey         (* after "," in an object: a key *)
| PColon       (* after a key *)
| PAfter       (* after a member or an element: "," or the closing bracket *)
| PDone (v : json).

Definition pstate := (list frame * pmode)%type.

(** A complete value goes to the innermost open container. *)
Definition push_value (v : json) (stack : list frame) : option pstate :=
  match stack with
  | [] => Some ([], PDone v)
  | FArr done :: rest => Some (FArr (v :: done) :: rest, PAfter)
  | FObj done (Some k) :: rest => Some (FObj ((k, v) :: done) None :: rest, PAfter)
  | FObj _ None :: _ => None
  end.

Definition start_value (t : token) (stack : list frame) : option pstate :=
  match t with
  | TLBrack => Some (FArr [] :: stack, PFirstElem)
  | TLBrace => Some (FObj [] None :: stack, PFirstKey)
  | TStr s => push_value (JStr s) stack
  | TNum n => push_value (JNum n) stack
  | TTrue => push_value (JBool true) stack
  | TFalse => push_value (JBool false) stack
  | TNull => push_value JNull stack
  | _ => None
  end.

Definition read_key (t : token) (stack : list frame) : option pstate :=
  match t, stack with
  | TStr k, FObj done None :: rest => Some (FObj done (Some k) :: rest, PColon)
  | _, _ => None
  end.

Definition parse_step (st : pstate) (t : token) : option pstate :=
  let '(stack, m) := st in
  match m with
  | PValue => start_value t stack
  | PFirstElem =>
      match t, stack with
      | TRBrack, FArr [] :: rest => push_value (JArr []) rest
      | _, _ => start_value t stack
      end
  | PFirstKey =>
      match t, stack with
      | TRBrace, FObj [] None :: rest => push_value (JObj []) rest
      | _, _ => read_key t stack
      end
  | PKey => read_key t stack
  | PColon =>
      match t with
      | TColon => Some (stack, PValue)
      | _ => None
      end
  | PAfter =>
      match t, stack with
      | TComma, FArr _ :: _ => Some (stack, PValue)
      | TComma, FObj _ None :: _ => Some (stack, PKey)
      | TRBrack, FArr done :: rest => push_value (JArr (rev done)) rest
      | TRBrace, FObj done None :: rest => push_value (JObj (rev done)) rest
      | _, _ => None
      end
  | PDone _ => None
  end.

Fixpoint parse_tokens (st : pstate) (ts : list token) : option json :=
  match ts with
  | [] =>
      match st with
      | ([], PDone v) => Some v
      | _ => None
      end
  | t :: ts' =>
      match parse_step st t with
      | Some st' => parse_tokens st' ts'
      | None => None
      end
  end.

(** Own property [k] of a parsed object; the last duplicate wins. *)
Fixpoint member (k : jsstring) (m : list (jsstring * json)) : option json :=
  match m with
  | (k', v) :: r =>
      match member k r with
      | Some w => Some w
      | None => if jsstring_eqb k k' then Some v else None
      end
  | [] => None
  end.

End Json.

Import Json.

(** Completions: a normal value or a thrown exception. *)
Inductive completion (A : Type) :=
| Normal (a : A)
| Throw.
Arguments Normal {A} a.
Arguments Throw {A}.

(** [JSON.parse]: a SyntaxError is [Throw]. *)
Definition JSON_parse (s : jsstring) : completion json :=
  match lex LTop s with
  | Some ts =>
      match parse_tokens ([], PValue) ts with
      | Some v => Normal v
      | None => Throw
      end
  | None => Throw
  end.


(** ** Dates *)

Definition msPerDay : Z := 86400000.
Definition msPerHour : Z := 3600000.
Definition msPerMinute : Z := 60000.
Definition msPerSecond : Z := 1000.

Definition Day (t : Z) : Z := t / msPerDay.
Definition HourFromTime (t : Z) : Z := (t / msPerHour) mod 24.
Definition MinFromTime (t : Z) : Z := (t / msPerMinute) mod 60.
Definition SecFromTime (t : Z) : Z := (t / msPerSecond) mod 60.
Definition msFromTime (t : Z) : Z := t mod msPerSecond.

Definition MakeTime (h m s ms : Z) : Z :=
  h * msPerHour + m * msPerMinute + s * msPerSecond + ms.
Definition MakeDate (day time : Z) : Z := day * msPerDay + time.

(** The largest time value a [Date] holds; [TimeClip] turns what lies
    beyond it into NaN. *)
Definition maxTime : Z := 8640000000000000.

Definition TimeClip (t : Z) : option Z :=
  if Z.abs t <=? maxTime then Some t else None.

(** The local time zone.  [utcOffset t] is the offset of local time from
    UTC at the instant [t], and [localOffset t] is the offset with which
    the local time value [t] is read (LocalTZA with and without the flag
    isUTC).  Where the clocks are put forward or back the offsets change
    with [t]. *)
Record zone := Zone {
  utcOffset : Z -> Z;
  localOffset : Z -> Z
}.

(** A zone that keeps one offset all year. *)
Definition fixed (offset : Z) : zone :=
  Zone (fun _ => offset) (fun _ => offset).

Coercion fixed : Z >-> zone.

(** ** Values, candidates and task objects *)

(** The values a field of a task can hold: [undefined], a value that came
    out of [JSON.parse], or the string [toISOString()] returns for the date
    with time value [ms]. *)
Inductive jsval :=
| VUndef
| VJson (j : json)
| VIso (ms : Z).

(** An element of the array [parseTaskFromAI] returns: a parsed JSON value
    or the object literal [{ title, time }] of the lexical fallback. *)
Inductive candidate :=
| CJson (j : json)
| CLex (title : jsstring) (time : Z).

Record task := mkTask {
  id : option Z;
  title : jsval;
  time : jsval;
  description : jsval;
  created : jsval
}.

Definition set_time (v : jsval) (t : task) : task :=
  mkTask (id t) (title t) v (description t) (created t).
Definition set_id (k : Z) (t : task) : task :=
  mkTask (Some k) (title t) (time t) (description t) (created t).
Definition set_title (v : jsval) (t : task) : task :=
  mkTask (id t) v (time t) (description t) (created t).

(** Reading one of the properties [title], [time], [description] of a
    candidate: a TypeError on [null], [undefined] where the property is
    absent. *)
Definition get (c : candidate) (k : jsstring) : completion jsval :=
  match c with
  | CJson JNull => Throw
  | CJson (JObj m) =>
      Normal (match member k m with Some v => VJson v | None => VUndef end)
  | CJson _ => Normal VUndef
  | CLex t ms =>
      Normal (if jsstring_eqb k (codes "title") then VJson (JStr t)
              else if jsstring_eqb k (codes "time") then VIso ms
              else VUndef)
  end.

(** The decimal digits a string starts with, and what follows them. *)
Fixpoint span_digits (s : jsstring) : jsstring * jsstring :=
  match s with
  | c :: r =>
      if is_digit c then let '(d, rest) := span_digits r in (c :: d, rest)
      else ([], s)
  | [] => ([], [])
  end.

(** The Number value of a JSON number literal is zero when its digits are
    all zero, and also when its value is at most 2^-1075, half of the least
    positive double: the literal [1e-400] is read as 0. *)
Definition number_is_zero (lexeme : jsstring) : bool :=
  let unsigned :=
    match lexeme with
    | c :: r => if N.eqb c (cu "-") then r else lexeme
    | [] => []
    end in
  let '(int, r1) := span_digits unsigned in
  let '(frac, r2) :=
    match r1 with
    | c :: r => if N.eqb c (cu ".") then span_digits r else ([], r1)
    | [] => ([], [])
    end in
  let exponent :=
    match r2 with
    | _ :: c :: r =>
        if N.eqb c (cu "-") then - digits_value 0 r
        else if N.eqb c (cu "+") then digits_value 0 r
        else digits_value 0 (c :: r)
    | _ => 0
    end in
  let mantissa := digits_value 0 (int ++ frac) in
  let e10 := exponent - Z.of_nat (length frac) in
  (mantissa =? 0) || ((e10 <? 0) && (mantissa * 2 ^ 1075 <=? 10 ^ (- e10))).

(** ToBoolean, for the left operand of [||]. *)
Definition truthy (v : jsval) : bool :=
  match v with
  | VUndef => false
  | VIso _ => true
  | VJson JNull => false
  | VJson (JBool b) => b
  | VJson (JNum n) => negb (number_is_zero n)
  | VJson (JStr s) => match s with [] => false | _ :: _ => true end
  | VJson _ => true
  end.

Definition or_default (v d : jsval) : jsval := if truthy v then v else d.

(** ToPrimitive on a value that came out of [JSON.parse] throws a TypeError
    when no method yields a primitive value.  No property of a parsed
    object is callable: an object with an own property [toString] hides
    [Object.prototype.toString], and [Object.prototype.valueOf] returns
    the object itself.  An array is joined, which converts its elements to
    strings in the same way. *)
Fixpoint ToPrimitive_throws (j : json) : bool :=
  match j with
  | JObj m =>
      match member (codes "toString") m with
      | Some _ => true
      | None => false
      end
  | JArr items => existsb ToPrimitive_throws items
  | _ => false
  end.

(** ** Array.prototype.sort *)

(** A comparator returns a number, [None] for NaN; SortCompare reads NaN
    as +0. *)
Definition comparator := task -> task -> option Z.

Definition not_after (v : option Z) : bool :=
  match v with
  | Some n => n <=? 0
  | None => true
  end.

(** The stable sorted order: an element goes before the first later
    element it does not compare greater than. *)
Fixpoint sort_insert (comparefn : comparator) (x : task) (l : list task)
    : list task :=
  match l with
  | [] => [x]
  | y :: r =>
      if not_after (comparefn x y) then x :: y :: r
      else y :: sort_insert comparefn x r
  end.

Definition insertion_sort (comparefn : comparator) (l : list task) : list task :=
  foldr (sort_insert comparefn) [] l.

(** What ECMAScript asks of [sort]: the result holds the elements of the
    array, and when the comparator is consistent (here: it is the
    difference of a key) the result is the stable sorted order.  For a
    comparator that is not consistent the order is up to the engine. *)
Class engine := Engine {
  sortWith : comparator -> list task -> list task;
  sortWith_perm : forall comparefn l, sortWith comparefn l ≡ₚ l;
  sortWith_stable : forall comparefn (key : task -> Z) l,
    (forall a b, a ∈ l -> b ∈ l -> comparefn a b = Some (key a - key b)) ->
    sortWith comparefn l = insertion_sort comparefn l
}.

(** The engine that sorts by insertion whatever the comparator; the sample
    inputs are evaluated with it. *)
#[global] Instance insertion_engine : engine.
Proof.
  refine (Engine insertion_sort _ (fun _ _ _ _ => eq_refl)).
  intros comparefn l. induction l as [|x l IH]; [reflexivity|].
  unfold insertion_sort in *. cbn [foldr].
  transitivity (x :: foldr (sort_insert comparefn) [] l).
  - generalize (foldr (sort_insert comparefn) [] l). intros r.
    induction r as [|y r IHr]; cbn [sort_insert]; [reflexivity|].
    destruct (not_after (comparefn x y)); [reflexivity|].
    rewrite IHr. apply Permutation_swap.
  - rewrite IH. reflexivity.
Defined.

(** ** The scheduler *)

Definition loc := nat.

Inductive settled := Fulfilled | Rejected.

Record scheduler := mkScheduler {
  heap : list task;       (* the task objects allocated so far *)
  tasks : list loc;       (* this.tasks *)
  store : list task;      (* the records of the object store, in key order *)
  nextId : Z;             (* the key generator of the object store *)
  notices : list Z        (* the times announced by updateConflictStatus *)
}.

Definition with_heap (h : list task) (st : scheduler) : scheduler :=
  mkScheduler h (tasks st) (store st) (nextId st) (notices st).

Definition initial : scheduler := mkScheduler [] [] [] 1 [].

(** The task objects of [this.tasks]. *)
Definition view (st : scheduler) : list task :=
  omap (fun l => heap st !! l) (tasks st).

Definition oneHour : Z := 60 * 60 * 1000.

Section Scheduler.

Context {E : engine}.

(** The time zone of the host. *)
Variable tz : zone.

(** [new Date(v)] for a value [v] that came out of [JSON.parse] and has a
    primitive value: the time value the engine reads, [None] when the date
    is invalid. *)
Variable dateOfJson : json -> option Z.

Definition LocalTime (t : Z) : Z := t + utcOffset tz t.
Definition UTC (t : Z) : Z := t - localOffset tz t.

Definition getHours (t : Z) : Z := HourFromTime (LocalTime t).

(** [d.setHours(h, m, s, ms)] and [d.setHours(h)] on the date [t]. *)
Definition setHours4 (t h m s ms : Z) : Z :=
  UTC (MakeDate (Day (LocalTime t)) (MakeTime h m s ms)).

Definition setHours1 (t h : Z) : Z :=
  let l := LocalTime t in
  UTC (MakeDate (Day l) (MakeTime h (MinFromTime l) (SecFromTime l) (msFromTime l))).

(** [new Date(v)]: a TypeError is [Throw]; the time value is clipped. *)
Definition newDate (v : jsval) : completion (option Z) :=
  match v with
  | VUndef => Normal None
  | VJson j =>
      if ToPrimitive_throws j then Throw
      else Normal (match dateOfJson j with
                   | Some t => TimeClip t
                   | None => None
                   end)
  | VIso ms => Normal (Some ms)
  end.

(** *** The object store *)

Fixpoint store_put (k : Z) (r : task) (s : list task) : list task :=
  match s with
  | [] => [r]
  | x :: rest =>
      match id x with
      | Some kx =>
          if kx =? k then r :: rest
          else if k <? kx then r :: x :: rest
          else x :: store_put k r rest
      | None => x :: store_put k r rest
      end
  end.

Fixpoint store_get (k : Z) (s : list task) : option task :=
  match s with
  | [] => None
  | x :: rest =>
      match id x with
      | Some kx => if kx =? k then Some x else store_get k rest
      | None => store_get k rest
      end
  end.

(** [store.add(task)]: a fresh key when the object has no [id]; a
    ConstraintError when its key is taken. *)
Definition saveTask (l : loc) (st : scheduler) : completion Z * scheduler :=
  match heap st !! l with
  | None => (Throw, st)
  | Some obj =>
      match id obj with
      | None =>
          let k := nextId st in
          (Normal k,
           mkScheduler (heap st) (tasks st) (store st ++ [set_id k obj])
                       (k + 1) (notices st))
      | Some k =>
          match store_get k (store st) with
          | Some _ => (Throw, st)
          | None =>
              (Normal k,
               mkScheduler (heap st) (tasks st) (store_put k obj (store st))
                           (Z.max (nextId st) (k + 1)) (notices st))
          end
      end
  end.

(** [store.put(task)]: overwrites the record with the key of the object. *)
Definition updateTask (l : loc) (st : scheduler) : scheduler :=
  match heap st !! l with
  | None => st
  | Some obj =>
      match id obj with
      | None =>
          let k := nextId st in
          mkScheduler (heap st) (tasks st) (store st ++ [set_id k obj])
                      (k + 1) (notices st)
      | Some k =>
          mkScheduler (heap st) (tasks st) (store_put k obj (store st))
                      (Z.max (nextId st) (k + 1)) (notices st)
      end
  end.

Definition deleteTask (k : Z) (st : scheduler) : scheduler :=
  mkScheduler (heap st) (tasks st)
    (filter (fun x => id x <> Some k) (store st)) (nextId st) (notices st).

(** The date of a stored record.  A record reaches the store through
    [resolveConflicts], which has read its time with [new Date] before, or
    with a time written by [toISOString]: [new Date] does not throw on
    it. *)
Definition dateOf (v : jsval) : option Z :=
  match newDate v with
  | Normal d => d
  | Throw => None
  end.

(** The comparator [(a, b) => new Date(a.time) - new Date(b.time)]. *)
Definition byTime (a b : task) : option Z :=
  match dateOf (time a), dateOf (time b) with
  | Some x, Some y => Some (x - y)
  | _, _ => None
  end.

(** The order of the records when every date is valid. *)
Definition sort (l : list task) : list task := insertion_sort byTime l.

(** [loadTasks]: [getAll()] yields fresh objects, which are sorted and
    become [this.tasks]. *)
Definition loadTasks (st : scheduler) : scheduler :=
  let result := sortWith byTime (store st) in
  mkScheduler (heap st ++ result)
              (seq (length (heap st)) (length result))
              (store st) (nextId st) (notices st).

(** *** resolveConflicts *)

Definition conflict (newTaskTime existingTime : option Z) : bool :=
  match newTaskTime, existingTime with
  | Some a, Some b => Z.abs (a - b) <? oneHour
  | _, _ => false
  end.

(** The loop over [this.tasks]: the time of the existing task at which the
    loop breaks; [new Date(existingTask.time)] may throw on the way. *)
Fixpoint scan (h : list task) (newTaskTime : option Z) (existing : list loc)
    : completion (option Z) :=
  match existing with
  | [] => Normal None
  | e :: rest =>
      match h !! e with
      | Some existingTask =>
          match newDate (time existingTask) with
          | Normal existingTime =>
              if conflict newTaskTime existingTime then Normal existingTime
              else scan h newTaskTime rest
          | Throw => Throw
          end
      | None => scan h newTaskTime rest
      end
  end.

(** [newTaskTime.setTime(...)] clips the new time value and [toISOString]
    throws a RangeError on an Invalid Date, before [newTask.time] is
    written and before the notice is shown. *)
Definition resolveConflicts (newTask : loc) (st : scheduler)
    : completion loc * scheduler :=
  match heap st !! newTask with
  | None => (Normal newTask, st)
  | Some obj =>
      match newDate (time obj) with
      | Throw => (Throw, st)
      | Normal newTaskTime =>
          match scan (heap st) newTaskTime (tasks st) with
          | Throw => (Throw, st)
          | Normal None => (Normal newTask, st)
          | Normal (Some existingTime) =>
              match TimeClip (existingTime + oneHour) with
              | None => (Throw, st)
              | Some t =>
                  (Normal newTask,
                   mkScheduler (<[newTask := set_time (VIso t) obj]> (heap st))
                               (tasks st) (store st) (nextId st)
                               (notices st ++ [t]))
              end
          end
      end
  end.

(** *** addTasksFromAI *)

(** [clock n] is the reading of [new Date()] for the [n]-th candidate.  An
    exception thrown by [resolveConflicts] or [saveTask] rejects the
    promise; the candidates that follow are not looked at. *)
Fixpoint addTasks_loop (clock : nat -> Z) (n : nat) (taskInfoArray : list candidate)
    (st : scheduler) : settled * scheduler :=
  match taskInfoArray with
  | [] => (Fulfilled, st)
  | taskInfo :: rest =>
      match get taskInfo (codes "title"), get taskInfo (codes "time"),
            get taskInfo (codes "description") with
      | Normal ti, Normal tm, Normal de =>
          let obj := mkTask None ti tm (or_default de (VJson (JStr [])))
                            (VIso (clock n)) in
          let l := length (heap st) in
          match resolveConflicts l (with_heap (heap st ++ [obj]) st) with
          | (Normal resolvedTask, st1) =>
              match saveTask resolvedTask st1 with
              | (Normal _, st2) => addTasks_loop clock (S n) rest st2
              | (Throw, st2) => (Rejected, st2)
              end
          | (Throw, st1) => (Rejected, st1)
          end
      | _, _, _ => (Rejected, st)
      end
  end.

Definition addTasksFromAI (clock : nat -> Z) (taskInfoArray : list candidate)
    (st : scheduler) : settled * scheduler :=
  match addTasks_loop clock 0 taskInfoArray st with
  | (Fulfilled, st') => (Fulfilled, loadTasks st')
  | (Rejected, st') => (Rejected, st')
  end.

(** *** handleTaskReorder *)

(** [this.tasks.find((t) => t.id === taskId)] *)
Fixpoint find_task (h : list task) (taskId : Z) (ts : list loc) : option loc :=
  match ts with
  | [] => None
  | l :: rest =>
      match h !! l with
      | Some t =>
          match id t with
          | Some k => if k =? taskId then Some l else find_task h taskId rest
          | None => find_task h taskId rest
          end
      | None => find_task h taskId rest
      end
  end.

Fixpoint reorder_loop (startTime : Z) (i : Z) (order : list Z) (st : scheduler)
    : scheduler :=
  match order with
  | [] => st
  | taskId :: rest =>
      match find_task (heap st) taskId (tasks st) with
      | Some l =>
          match heap st !! l with
          | Some t =>
              let newTime := setHours1 startTime (getHours startTime + i) in
              let st1 := with_heap (<[l := set_time (VIso newTime) t]> (heap st)) st in
              reorder_loop startTime (i + 1) rest (updateTask l st1)
          | None => reorder_loop startTime (i + 1) rest st
          end
      | None => reorder_loop startTime (i + 1) rest st
      end
  end.

(** [order] lists the task ids of the elements of the task list, top to
    bottom; [now] is the reading of the clock. *)
Definition handleTaskReorder (now : Z) (order : list Z) (st : scheduler)
    : scheduler :=
  let startTime := setHours4 now 9 0 0 0 in
  loadTasks (reorder_loop startTime 0 order st).

(** *** The click handler of the button "resolveConflicts" *)

(** The loop of the handler; an exception ends the handler. *)
Fixpoint resolve_each (ts : list loc) (st : scheduler) : settled * scheduler :=
  match ts with
  | [] => (Fulfilled, st)
  | t :: rest =>
      match resolveConflicts t st with
      | (Normal _, st1) => resolve_each rest st1
      | (Throw, st1) => (Rejected, st1)
      end
  end.

Definition resolveAll (st : scheduler) : scheduler :=
  match resolve_each (tasks st) st with
  | (Fulfilled, st1) => loadTasks st1
  | (Rejected, st1) => st1
  end.

(** *** editTask and deleteTaskHandler *)

(** [answer] is what [prompt] returns: the new title, or [None] for
    [null]. *)
Definition editTask (taskId : Z) (answer : option jsstring) (st : scheduler)
    : scheduler :=
  match find_task (heap st) taskId (tasks st) with
  | Some l =>
      match heap st !! l, answer with
      | Some t, Some newTitle =>
          let st1 :=
            with_heap (<[l := set_title (VJson (JStr newTitle)) t]> (heap st)) st in
          loadTasks (updateTask l st1)
      | _, _ => st
      end
  | None => st
  end.

(** [confirmed] is what [confirm] returns. *)
Definition deleteTaskHandler (taskId : Z) (confirmed : bool) (st : scheduler)
    : scheduler :=
  if confirmed then loadTasks (deleteTask taskId st) else st.

(** *** parseTaskFromAI *)

Definition getDefaultTime (now : Z) : Z :=
  setHours4 now (getHours now + 1) 0 0 0.

Definition parseTimeString (now : Z) (timeStr : jsstring) : completion Z :=
  match exec timeRegex timeStr with
  | Some (_, m) =>
      match capture 1 m with
      | Some h =>
          match parseInt h with
          | Some hours =>
              let minutes :=
                match capture 2 m with
                | Some (c :: s) => parseInt (c :: s)
                | _ => Some 0
                end in
              let period :=
                match capture 3 m with
                | Some (c :: s) => toLowerCase (c :: s)
                | _ => []
                end in
              let hours1 :=
                if jsstring_eqb period (codes "pm") && (hours <? 12)
                then hours + 12 else hours in
              let hours2 :=
                if jsstring_eqb period (codes "am") && (hours1 =? 12)
                then 0 else hours1 in
              match minutes with
              | Some mi => Normal (setHours4 now hours2 mi 0 0)
              | None => Throw
              end
          | None => Throw
          end
      | None => Throw
      end
  | None => Normal (getDefaultTime now)
  end.

(** What one of the three rules of [parseTaskFromAI] does: it returns an
    array ([Some]), lets control reach the next rule ([None]), or throws. *)
Definition rule := completion (option (list candidate)).

Definition array_rule (aiResponse : jsstring) : rule :=
  match exec arrayRe aiResponse with
  | Some (arrayMatch, _) =>
      match JSON_parse (trim arrayMatch) with
      | Normal (JArr items) => Normal (Some (map CJson items))
      | Normal _ => Normal None
      | Throw => Throw
      end
  | None => Normal None
  end.

Definition object_rule (aiResponse : jsstring) : rule :=
  match exec objectRe aiResponse with
  | Some (jsonMatch, _) =>
      match JSON_parse (trim jsonMatch) with
      | Normal singleTask => Normal (Some [CJson singleTask])
      | Throw => Throw
      end
  | None => Normal None
  end.

Definition lexical_rule (now : Z) (aiResponse : jsstring) : rule :=
  let taskMatch := exec taskRe aiResponse in
  let timeMatch := exec timeRe aiResponse in
  match taskMatch with
  | Some (_, m) =>
      match capture 1 m with
      | Some t =>
          match
            match timeMatch with
            | Some (_, m') =>
                match capture 1 m' with
                | Some timeStr => parseTimeString now timeStr
                | None => Throw
                end
            | None => Normal (getDefaultTime now)
            end
          with
          | Normal ms => Normal (Some [CLex (trim t) ms])
          | Throw => Throw
          end
      | None => Throw
      end
  | None => Normal None
  end.

(** Statements in sequence inside one [try] block: an exception leaves the
    block, a [return] ends it, otherwise the next statement runs. *)
Definition and_then (r next : rule) : rule :=
  match r with
  | Normal None => next
  | _ => r
  end.

(** The whole body is one [try]; the [catch] logs and [null] is returned. *)
Definition parseTaskFromAI (now : Z) (aiResponse : jsstring)
    : option (list candidate) :=
  match and_then (array_rule aiResponse)
          (and_then (object_rule aiResponse) (lexical_rule now aiResponse)) with
  | Normal r => r
  | Throw => None
  end.

(** The end of [analyzeMedia], once the stream has been read into
    [fullResponse]; a rejection of [addTasksFromAI] is caught and shown. *)
Definition analyzeMedia (now : Z) (clock : nat -> Z) (fullResponse : jsstring)
    (st : scheduler) : scheduler :=
  match parseTaskFromAI now fullResponse with
  | Some (c :: cs) => snd (addTasksFromAI clock (c :: cs) st)
  | _ => st
  end.

(** *** Vocabulary of the statements *)

(** The scan of [resolveConflicts], on the task objects of [this.tasks]. *)
Fixpoint first_conflict (t : option Z) (existing : list task)
    : completion (option Z) :=
  match existing with
  | [] => Normal None
  | e :: rest =>
      match newDate (time e) with
      | Normal d => if conflict t d then Normal d else first_conflict t rest
      | Throw => Throw
      end
  end.

(** What [resolveConflicts] does with a task whose time is [v], given the
    task objects of [this.tasks]: it keeps the time, moves the task to the
    time [t], or throws. *)
Inductive outcome := Kept | Moved (t : Z) | Thrown.

Definition resolution (existing : list task) (v : jsval) : outcome :=
  match newDate v with
  | Throw => Thrown
  | Normal t =>
      match first_conflict t existing with
      | Throw => Thrown
      | Normal None => Kept
      | Normal (Some e) =>
          match TimeClip (e + oneHour) with
          | Some t' => Moved t'
          | None => Thrown
          end
      end
  end.

(** Two values denote instants less than one hour apart. *)
Definition within_hour (u v : jsval) : Prop :=
  exists a b, newDate u = Normal (Some a) /\ newDate v = Normal (Some b) /\
              Z.abs (a - b) < 3600000.

(** Both values are read as dates, and the dates are not less than one
    hour apart: one of them is invalid, or they are an hour or more
    apart. *)
Definition apart (u v : jsval) : Prop :=
  exists a b, newDate u = Normal a /\ newDate v = Normal b /\
    forall x y, a = Some x -> b = Some y -> 3600000 <= Z.abs (x - y).

(** A property of a candidate, [undefined] when reading it throws. *)
Definition prop (c : candidate) (k : jsstring) : jsval :=
  match get c k with
  | Normal v => v
  | Throw => VUndef
  end.

(** The record [r] is what [addTasksFromAI] stores for the candidate [c]
    under the key [k], when the candidate is resolved against the task
    objects [snapshot] and the clock reads [now]. *)
Definition stored_for (snapshot : list task) (now k : Z) (c : candidate)
    (r : task) : Prop :=
  id r = Some k /\
  title r = prop c (codes "title") /\
  description r
  = (if truthy (prop c (codes "description"))
     then prop c (codes "description") else VJson (JStr [])) /\
  created r = VIso now /\
  match resolution snapshot (prop c (codes "time")) with
  | Kept => time r = prop c (codes "time")
  | Moved t => time r = VIso t
  | Thrown => False
  end.

(** A candidate on which [addTasksFromAI] throws: [null], or a candidate
    on whose time [resolveConflicts] throws. *)
Definition throws_on (snapshot : list task) (c : candidate) : Prop :=
  c = CJson JNull \/ resolution snapshot (prop c (codes "time")) = Thrown.

(** Every reference of [this.tasks] points to an allocated object. *)
Definition tasks_valid (st : scheduler) : Prop :=
  Forall (fun l => (l < length (heap st))%nat) (tasks st).

Definition key_lt (a b : task) : Prop :=
  exists i j, id a = Some i /\ id b = Some j /\ i < j.

(** The records of the store are in ascending key order, below the key
    generator. *)
Definition store_ok (st : scheduler) : Prop :=
  StronglySorted key_lt (store st) /\
  Forall (fun r => exists i, id r = Some i /\ i < nextId st) (store st).

(** [new Date] does not throw on the time of the task. *)
Definition readable (r : task) : Prop := newDate (time r) <> Throw.

Definition valid_time (r : task) : Prop :=
  exists t, newDate (time r) = Normal (Some t).

Definition has_valid_time (r : task) : bool :=
  match newDate (time r) with
  | Normal (Some _) => true
  | _ => false
  end.

(** [a] comes before [b] in the sorted view: an earlier time, or the same
    time and a smaller id. *)
Definition earlier (a b : task) : Prop :=
  exists ta tb ia ib,
    newDate (time a) = Normal (Some ta) /\ newDate (time b) = Normal (Some tb) /\
    id a = Some ia /\ id b = Some ib /\
    (ta < tb \/ (ta = tb /\ ia < ib)).

(** The instant at which the local clocks read [h]:00 on the local day
    [day]; hours from 24 on run into the following days. *)
Definition wall_clock (day h : Z) : Z :=
  UTC (MakeDate day (MakeTime h 0 0 0)).

(** The local time value [t] is read back from its instant: it is not
    skipped when the clocks are put forward. *)
Definition read_back (t : Z) : Prop := LocalTime (UTC t) = t.

(** *** The click handler of the button "analyzeText" *)

(** The prompt built from the text field. *)
Definition text_prompt (value : jsstring) : jsstring :=
  codes "Analyze this task description and extract task information in JSON format with title, time (ISO string), and description: "
  ++ 34%N :: value ++ [34%N].

(** [value] is the content of the text field and [ai] the text the model
    answers to a prompt; nothing happens when the trimmed text is empty. *)
Definition analyzeText (ai : jsstring -> jsstring) (now : Z) (clock : nat -> Z)
    (value : jsstring) (st : scheduler) : scheduler :=
  match trim value with
  | [] => st
  | _ :: _ => analyzeMedia now clock (ai (text_prompt value)) st
  end.

(** The states the scheduler goes through: [init] loads the tasks, then
    the handlers run. *)
Inductive reachable : scheduler -> Prop :=
| reach_init : reachable (loadTasks initial)
| reach_analyze st now clock fullResponse :
    reachable st -> reachable (analyzeMedia now clock fullResponse st)
| reach_reorder st now order :
    reachable st -> reachable (handleTaskReorder now order st)
| reach_resolve st :
    reachable st -> reachable (resolveAll st)
| reach_edit st taskId answer :
    reachable st -> reachable (editTask taskId answer st)
| reach_delete st taskId confirmed :
    reachable st -> reachable (deleteTaskHandler taskId confirmed st).

End Scheduler.

(** *** Vocabulary of the statements about the parser *)

Definition agree (k k' : jsstring -> caps -> mres) : Prop :=
  forall s c, k s c = k' s c.

(** What follows the first occurrence of [x] in [s]. *)
Fixpoint after_first (x : N) (s : jsstring) : option jsstring :=
  match s with
  | [] => None
  | y :: r => if N.eqb x y then Some r else after_first x r
  end.

Definition done : jsstring -> caps -> mres := fun rest c => Some (rest, c).

(** A pattern [o [\s\S]*? b] for two characters [o] and [b]. *)
Definition bracketRe (o b : ascii) : re :=
  Seq (chr o) (Seq (lazy_star any) (chr b)).

(** A string literal of JSON text: [s] between double quotes. *)
Definition quoted (s : string) : jsstring := 34%N :: codes s ++ [34%N].

(** What the specification describes: every rule has its own handler, so a
    rule that throws counts as a rule that found nothing. *)
Definition caught (r : rule) : option (list candidate) :=
  match r with
  | Normal x => x
  | Throw => None
  end.

Definition parse_with_fall_through (tz : zone) (now : Z) (s : jsstring)
    : option (list candidate) :=
  match caught (array_rule s) with
  | Some l => Some l
  | None =>
      match caught (object_rule s) with
      | Some l => Some l
      | None => caught (lexical_rule tz now s)
      end
  end.

(** The text [[x] {"title":"a"}]. *)
Definition text_bad_array : jsstring :=
  codes "[x] {" ++ quoted "title" ++ codes ":" ++ quoted "a" ++ codes "}".

(** The text [The task is: Buy milk at 5pm]. *)
Definition text_buy_milk : jsstring := codes "The task is: Buy milk at 5pm".

(** *** Vocabulary of the statements about the matcher and the JSON parser *)

(** What a pattern can match: from the input [s] with the captures [c] to
    the rest [s'] with the captures [c']. *)
Inductive matches : re -> jsstring -> caps -> jsstring -> caps -> Prop :=
| m_eps s c : matches Eps s c s c
| m_cls p x s c : p x = true -> matches (Cls p) (x :: s) c s c
| m_seq a b s c s1 c1 s2 c2 :
    matches a s c s1 c1 -> matches b s1 c1 s2 c2 ->
    matches (Seq a b) s c s2 c2
| m_alt_l a b s c s1 c1 : matches a s c s1 c1 -> matches (Alt a b) s c s1 c1
| m_alt_r a b s c s1 c1 : matches b s c s1 c1 -> matches (Alt a b) s c s1 c1
| m_rep_stop g a s c : matches (Rep g a) s c s c
| m_rep_more g a s c s1 c1 s2 c2 :
    matches a s c s1 c1 -> (length s1 < length s)%nat ->
    matches (Rep g a) s1 c1 s2 c2 ->
    matches (Rep g a) s c s2 c2
| m_grp n a s c s1 c1 :
    matches a s c s1 c1 ->
    matches (Grp n a) s c s1 ((n, take (length s - length s1) s) :: c1)
| m_ahead a s c s1 c1 : matches a s c s1 c1 -> matches (Ahead a) s c s c1
| m_eoi c : matches Eoi [] c [] c.

(** A pattern without capture groups. *)
Fixpoint groupless (r : re) : bool :=
  match r with
  | Eps | Cls _ | Eoi => true
  | Seq a b | Alt a b => groupless a && groupless b
  | Rep _ a | Ahead a => groupless a
  | Grp _ _ => false
  end.

(** The bottom of the stack of open containers is an array, or the parse
    has ended with an array. *)
Definition array_bottom (st : pstate) : Prop :=
  (exists done, last (fst st) = Some (FArr done)) \/
  (fst st = [] /\ exists items, snd st = PDone (JArr items)).

(** *** Vocabulary of the statements about times of day *)

(** The hour and the minute [parseTimeString] passes to [setHours]:
    [None] when the pattern does not match. *)
Definition time_fields (timeStr : jsstring) : option (completion (Z * Z)) :=
  match exec timeRegex timeStr with
  | Some (_, m) =>
      Some
        match capture 1 m with
        | Some h =>
            match parseInt h with
            | Some hours =>
                let minutes :=
                  match capture 2 m with
                  | Some (c :: s) => parseInt (c :: s)
                  | _ => Some 0
                  end in
                let period :=
                  match capture 3 m with
                  | Some (c :: s) => toLowerCase (c :: s)
                  | _ => []
                  end in
                let hours1 :=
                  if jsstring_eqb period (codes "pm") && (hours <? 12)
                  then hours + 12 else hours in
                let hours2 :=
                  if jsstring_eqb period (codes "am") && (hours1 =? 12)
                  then 0 else hours1 in
                match minutes with
                | Some mi => Normal (hours2, mi)
                | None => Throw
                end
            | None => Throw
            end
        | None => Throw
        end
  | None => None
  end.

(** What the pattern of [parseTimeString] reads, told without the pattern.
    The text is read from its first decimal digit on: one digit, or two
    when a second follows; then a colon and two digits, when they follow;
    then, after any white space, [am] or [pm] in either case.  What comes
    after is not looked at. *)
Fixpoint from_digit (s : jsstring) : option jsstring :=
  match s with
  | [] => None
  | c :: r => if is_digit c then Some s else from_digit r
  end.

Definition read_hours (s : jsstring) : jsstring * jsstring :=
  match s with
  | d1 :: d2 :: r => if is_digit d2 then ([d1; d2], r) else ([d1], d2 :: r)
  | [d1] => ([d1], [])
  | [] => ([], [])
  end.

Definition read_minutes (s : jsstring) : option jsstring * jsstring :=
  match s with
  | c :: a :: b :: r =>
      if N.eqb c (cu ":") && is_digit a && is_digit b then (Some [a; b], r)
      else (None, s)
  | _ => (None, s)
  end.

(** A letter in either case. *)
Definition is_letter_i (a : ascii) (x : N) : bool :=
  N.eqb x (upper (cu a)) || N.eqb x (lower (cu a)).

Definition period_head (s : jsstring) : jsstring :=
  match s with
  | x :: y :: _ =>
      if (is_letter_i "a" x || is_letter_i "p" x) && is_letter_i "m" y
      then [x; y] else []
  | _ => []
  end.

Definition read_period (s : jsstring) : jsstring :=
  toLowerCase (period_head (trim_start s)).

Definition read_time (s : jsstring) : option (Z * Z) :=
  match from_digit s with
  | None => None
  | Some s0 =>
      let '(hs, r1) := read_hours s0 in
      let '(ms, r2) := read_minutes r1 in
      let period := read_period r2 in
      let hours := digits_value 0 hs in
      let minutes :=
        match ms with
        | Some m => digits_value 0 m
        | None => 0
        end in
      let hours1 :=
        if jsstring_eqb period (codes "pm") && (hours <? 12)
        then hours + 12 else hours in
      let hours2 :=
        if jsstring_eqb period (codes "am") && (hours1 =? 12)
        then 0 else hours1 in
      Some (hours2, minutes)
  end.

(** The captures of the pattern on a text that starts with a digit. *)
Definition time_captures (s0 : jsstring) : caps :=
  let '(hs, r1) := read_hours s0 in
  let '(ms, r2) := read_minutes r1 in
  let c1 := [(1%nat, hs)] in
  let c2 :=
    match ms with
    | Some m => (2%nat, m) :: c1
    | None => c1
    end in
  match period_head (trim_start r2) with
  | [] => c2
  | p => (3%nat, p) :: c2
  end.

(** Decimal digits of a number below 100: as short as possible, and with
    two digits. *)
Definition digit_of (n : Z) : N := Z.to_N (48 + n).

Definition decimal (n : Z) : jsstring :=
  if n <? 10 then [digit_of n] else [digit_of (n / 10); digit_of (n mod 10)].

Definition decimal2 (n : Z) : jsstring :=
  [digit_of (n / 10); digit_of (n mod 10)].

(** *** Example data *)

(** Three date strings and their time values: 09:00 and 11:00 on
    10 January 2025, and the last instant a [Date] can hold.  The reading
    [example_dates] knows these strings, [null] (the epoch) and the
    booleans (0 and 1 ms); every other value is an Invalid Date in it. *)
Definition iso_09 : jsstring := codes "2025-01-10T09:00:00Z".
Definition iso_11 : jsstring := codes "2025-01-10T11:00:00Z".
Definition iso_end : jsstring := codes "+275760-09-13T00:00:00.000Z".

Definition example_dates (j : json) : option Z :=
  match j with
  | JStr s =>
      if jsstring_eqb s iso_11 then Some 1736506800000
      else if jsstring_eqb s iso_09 then Some 1736499600000
      else if jsstring_eqb s iso_end then Some 8640000000000000
      else None
  | JNull => Some 0
  | JBool b => Some (if b then 1 else 0)
  | _ => None
  end.

(** The candidate [{"title": t, "time": "2025-01-10T11:00:00Z"}] and the
    candidate [{"time": "2025-01-10T11:00:00Z"}], which has no title. *)
Definition titled (t : string) : candidate :=
  CJson (JObj [(codes "title", JStr (codes t)); (codes "time", JStr iso_11)]).


(** The candidate [{"title": t, "time": s}] and the candidate
    [{"title": t}], which has no time. *)
Definition titled_at (t : string) (s : jsstring) : candidate :=
  CJson (JObj [(codes "title", JStr (codes t)); (codes "time", JStr s)]).

Definition timeless (t : string) : candidate :=
  CJson (JObj [(codes "title", JStr (codes t))]).

Definition clock0 : nat -> Z := fun _ => 1736500000000.

(** A business meeting at 11:00 is stored and loaded; the object for a vet
    visit at 11:00 has just been built. *)
Definition meeting : task :=
  mkTask (Some 1) (VJson (JStr (codes "Business meeting")))
         (VJson (JStr iso_11)) (VJson (JStr [])) (VIso 1736500000000).

Definition vet : task :=
  mkTask None (VJson (JStr (codes "Vet visit")))
         (VJson (JStr iso_11)) (VJson (JStr [])) (VIso 1736500000000).

Definition st_meeting : scheduler :=
  mkScheduler [meeting; vet] [0%nat] [meeting] 2 [].

(** Breakfast at 09:00, the meeting at 11:00 and a call at 11:30 are stored
    and loaded; the object for the vet visit at 11:00 has just been
    built. *)
Definition breakfast : task :=
  mkTask (Some 2) (VJson (JStr (codes "Breakfast")))
         (VJson (JStr iso_09)) (VJson (JStr [])) (VIso 1736500000000).

Definition call : task :=
  mkTask (Some 3) (VJson (JStr (codes "Call")))
         (VIso 1736508600000) (VJson (JStr [])) (VIso 1736500000000).

Definition st_day : scheduler :=
  mkScheduler [breakfast; meeting; call; vet] [0%nat; 1%nat; 2%nat]
              [meeting; breakfast; call] 4 [].

(** A task at the last instant of the range of [Date] is stored and
    loaded, next to the meeting; the object for another task at that
    instant has just been built. *)
Definition last_day : task :=
  mkTask (Some 2) (VJson (JStr (codes "Last day")))
         (VJson (JStr iso_end)) (VJson (JStr [])) (VIso 1736500000000).

Definition late : task :=
  mkTask None (VJson (JStr (codes "Late")))
         (VJson (JStr iso_end)) (VJson (JStr [])) (VIso 1736500000000).

Definition st_end : scheduler :=
  mkScheduler [meeting; last_day; late] [0%nat; 1%nat] [meeting; last_day] 3 [].

(** The store after three candidates were added in three batches. *)
Definition st_three : scheduler :=
  snd (addTasksFromAI example_dates clock0 [titled "c"]
    (snd (addTasksFromAI example_dates clock0 [titled "b"]
      (snd (addTasksFromAI example_dates clock0 [titled "a"] initial))))).


(** The text [[{"time":"2025-01-10T11:00:00Z"}]]. *)
Definition text_untitled : jsstring :=
  codes "[{" ++ quoted "time" ++ codes ":" ++ quoted "2025-01-10T11:00:00Z"
  ++ codes "}]".

(** New York in 2025: five hours behind UTC, four hours from 9 March,
    07:00 UTC, to 2 November, 06:00 UTC.  On 9 March the local times from
    02:00 to 03:00 do not exist and are read with the offset of before; on
    2 November the local times from 01:00 to 02:00 come twice and are read
    as the first of the two. *)
Definition new_york : zone :=
  Zone
    (fun t => if (1741503600000 <=? t) && (t <? 1762063200000)
              then -4 * msPerHour else -5 * msPerHour)
    (fun t => if (1741489200000 <=? t) && (t <? 1762048800000)
              then -4 * msPerHour else -5 * msPerHour).
(** * Properties *)

(** ** The model on sample inputs *)

Example exec_taskRe_buy_milk :
  exec taskRe text_buy_milk
  = Some (codes "task is: Buy milk", [(1%nat, codes "is: Buy milk")]).
Proof. vm_compute. reflexivity. Qed.

Example exec_timeRe_half_past_two :
  exec timeRe (codes "Meeting: design review at 14:30")
  = Some (codes "at 14:30", [(1%nat, codes "14:30")]).
Proof. vm_compute. reflexivity. Qed.

Example exec_arrayRe_nested :
  exec arrayRe (codes "x [[1]] {}") = Some (codes "[[1]", []).
Proof. vm_compute. reflexivity. Qed.

Example JSON_parse_nested :
  JSON_parse (codes "[{" ++ quoted "a" ++ codes ": [1, -2.5e+3, true, null, {}]}] ")
  = Normal (JArr [JObj [(codes "a",
                         JArr [JNum (codes "1"); JNum (codes "-2.5e+3");
                               JBool true; JNull; JObj []])]]).
Proof. vm_compute. reflexivity. Qed.

Example JSON_parse_escapes :
  JSON_parse (quoted "a\nA")
  = Normal (JStr [cu "a"; 10%N; cu "A"]).
Proof. vm_compute. reflexivity. Qed.

Example JSON_parse_rejects :
  JSON_parse (codes "[1,]") = Throw /\
  JSON_parse (codes "[01]") = Throw /\
  JSON_parse (codes "{,}") = Throw /\
  JSON_parse (codes "[1 2]") = Throw /\
  JSON_parse (codes "1 2") = Throw /\
  JSON_parse (codes "[x]") = Throw /\
  JSON_parse (codes "") = Throw.
Proof. vm_compute. repeat split; reflexivity. Qed.

(** The time-string normalizer, at local time = UTC on the first day. *)
Example parseTimeString_samples :
  parseTimeString 0 0 (codes "12am") = Normal 0 /\
  parseTimeString 0 0 (codes "12pm") = Normal (12 * msPerHour) /\
  parseTimeString 0 0 (codes "7:30") = Normal (7 * msPerHour + 30 * msPerMinute) /\
  parseTimeString 0 0 (codes "11:15 PM")
    = Normal (23 * msPerHour + 15 * msPerMinute) /\
  parseTimeString 0 0 (codes "noon") = Normal (getDefaultTime 0 0).
Proof. vm_compute. repeat split; reflexivity. Qed.

(** One hour from now, on the hour. *)
Example getDefaultTime_sample :
  getDefaultTime 0 (10 * msPerHour + 1234567) = 11 * msPerHour.
Proof. vm_compute. reflexivity. Qed.

Example parse_dentist_local_time :
  parseTaskFromAI (-3 * msPerHour) 1736500000000
    (codes "Appointment dentist on 9 am")
  = Some [CLex (codes "dentist") 1736510400000].
Proof. vm_compute. reflexivity. Qed.

Example parse_default_time :
  parseTaskFromAI 0 0 (codes "task: call mom")
  = Some [CLex (codes "call mom") msPerHour].
Proof. vm_compute. reflexivity. Qed.

(** No JSON and no task phrase: [null]. *)
Example parse_nothing :
  parseTaskFromAI 0 0 (codes "nothing here") = None.
Proof. vm_compute. reflexivity. Qed.

(** An object alone is wrapped in an array. *)
Example parse_single_object :
  parseTaskFromAI 0 0 (codes "Here: {" ++ quoted "title" ++ codes ":" ++ quoted "a" ++ codes "}")
  = Some [CJson (JObj [(codes "title", JStr (codes "a"))])].
Proof. vm_compute. reflexivity. Qed.

(** Three candidates for 11:00 added one batch at a time: the second and
    the third are both moved to 12:00, the first conflict decides. *)
Example st_three_store :
  map (fun r => (id r, dateOf example_dates (time r))) (store st_three)
  = [(Some 1, Some 1736506800000); (Some 2, Some 1736510400000);
     (Some 3, Some 1736510400000)].
Proof. vm_compute. reflexivity. Qed.

(** With an Invalid Date the comparator is not consistent and the order
    is up to the engine; sorting by insertion leaves 11:00 before 09:00
    when a task without a date stands between them. *)
Example sort_with_invalid_date :
  map time
    (sortWith (byTime example_dates)
       [mkTask (Some 1) VUndef (VIso (11 * msPerHour)) VUndef VUndef;
        mkTask (Some 2) VUndef VUndef VUndef VUndef;
        mkTask (Some 3) VUndef (VIso (9 * msPerHour)) VUndef VUndef])
  = [VIso (11 * msPerHour); VUndef; VIso (9 * msPerHour)].
Proof. vm_compute. reflexivity. Qed.

Example reorder_st_three :
  map (fun r => (id r, time r))
      (view (handleTaskReorder 0 example_dates 1736500000000 [3; 1; 2] st_three))
  = [(Some 3, VIso 1736499600000); (Some 1, VIso 1736503200000);
     (Some 2, VIso 1736506800000)].
Proof. vm_compute. reflexivity. Qed.


(** The literal [1e-400] is read as the number 0, which is falsy; [5e-324]
    is the least positive double. *)
Example number_is_zero_samples :
  number_is_zero (codes "1e-400") = true /\
  number_is_zero (codes "2e-324") = true /\
  number_is_zero (codes "3e-324") = false /\
  number_is_zero (codes "5e-324") = false /\
  number_is_zero (codes "-0.000") = true /\
  number_is_zero (codes "0.1E-2") = false /\
  truthy (VJson (JNum (codes "1e-400"))) = false.
Proof. vm_compute. repeat split; reflexivity. Qed.

(** [new Date] throws on an object that has a property [toString], also
    inside an array; elsewhere the engine reads a date or NaN. *)
Example newDate_samples :
  newDate example_dates (VJson (JObj [(codes "toString", JNum (codes "1"))])) = Throw /\
  newDate example_dates
    (VJson (JArr [JNull; JObj [(codes "toString", JNull)]])) = Throw /\
  newDate example_dates (VJson (JObj [(codes "valueOf", JNull)])) = Normal None /\
  newDate example_dates (VJson JNull) = Normal (Some 0) /\
  newDate example_dates (VJson (JStr iso_end)) = Normal (Some maxTime) /\
  newDate example_dates VUndef = Normal None.
Proof. vm_compute. repeat split; reflexivity. Qed.

(** New York on 8 and 9 March 2025: 02:00 on the 9th does not exist and
    is the same instant as 03:00; and on the night of 2 November, at 01:30
    summer time, the next full hour is 90 minutes away. *)
Example new_york_samples :
  setHours4 new_york 1741446000000 26 0 0 0 = 1741503600000 /\
  setHours4 new_york 1741446000000 27 0 0 0 = 1741503600000 /\
  getDefaultTime new_york 1762061400000 = 1762061400000 + 90 * msPerMinute.
Proof. vm_compute. repeat split; reflexivity. Qed.
(** ** The matcher *)

Section MatcherFacts.


Lemma rep_loop_ext step step' g k k' :
  (forall s c j j', agree j j' -> step s c j = step' s c j') ->
  agree k k' ->
  forall fuel s c, rep_loop step g k fuel s c = rep_loop step' g k' fuel s c.
Proof.
  intros Hstep Hk fuel.
  induction fuel as [|f IH]; intros s c; simpl.
  - apply Hk.
  - rewrite (Hk s c).
    erewrite Hstep; [reflexivity|].
    intros s1 c1. destruct (length s1 <? length s)%nat; auto.
Qed.

Lemma run_ext r :
  forall s c k k', agree k k' -> run r s c k = run r s c k'.
Proof.
  induction r as [|p|a IHa b IHb|a IHa b IHb|g a IHa|n a IHa|a IHa|];
    intros s c k k' Hk; cbn [run].
  - apply Hk.
  - destruct s as [|x s']; [reflexivity|].
    destruct (p x); [apply Hk|reflexivity].
  - apply IHa. intros s1 c1. apply IHb, Hk.
  - rewrite (IHa s c k k' Hk), (IHb s c k k' Hk). reflexivity.
  - apply rep_loop_ext; [|exact Hk].
    intros s0 c0 j j' Hj. apply IHa, Hj.
  - apply IHa. intros s1 c1. apply Hk.
  - destruct (run a s c _) as [[? c1]|]; [apply Hk|reflexivity].
  - destruct s; [apply Hk|reflexivity].
Qed.

(** Fuel above the length of the input is never used up: any two such
    amounts give the same result. *)
Lemma rep_loop_fuel a g k :
  forall f1 f2 s c,
    (length s < f1)%nat -> (length s < f2)%nat ->
    rep_loop (run a) g k f1 s c = rep_loop (run a) g k f2 s c.
Proof.
  induction f1 as [|f1 IH]; intros f2 s c H1 H2; [lia|].
  destruct f2 as [|f2]; [lia|]. simpl.
  erewrite (run_ext a s c); [reflexivity|].
  intros s1 c1.
  destruct (length s1 <? length s)%nat eqn:E; [|reflexivity].
  apply Nat.ltb_lt in E. apply IH; lia.
Qed.

Lemma run_Rep_fuel g a s c k fuel :
  (length s < fuel)%nat ->
  run (Rep g a) s c k = rep_loop (run a) g k fuel s c.
Proof. intros H. cbn [run]. apply rep_loop_fuel; lia. Qed.


Lemma lazy_any_until b c :
  forall fuel s, (length s < fuel)%nat ->
    rep_loop (run any) false (fun s2 c2 => run (chr b) s2 c2 done) fuel s c
    = match after_first (cu b) s with
      | Some r => Some (r, c)
      | None => None
      end.
Proof.
  induction fuel as [|f IH]; intros s H; [lia|].
  destruct s as [|y r]; simpl; [reflexivity|].
  destruct (N.eqb (cu b) y); simpl; [reflexivity|].
  simpl in H.
  assert (E : (length r <? S (length r))%nat = true) by (apply Nat.ltb_lt; lia).
  rewrite E. apply IH. lia.
Qed.


Lemma match_here_bracket o b s :
  match_here (bracketRe o b) s =
  match s with
  | x :: s' =>
      if N.eqb (cu o) x then
        match after_first (cu b) s' with
        | Some r => Some (take (length s - length r) s, [])
        | None => None
        end
      else None
  | [] => None
  end.
Proof.
  unfold match_here. destruct s as [|x s']; [reflexivity|].
  cbn [bracketRe run chr].
  destruct (N.eqb (cu o) x); [|reflexivity].
  change (run (lazy_star any) s' [] _)
    with (run (Rep false any) s' [] (fun s2 c2 => run (chr b) s2 c2 done)).
  rewrite (run_Rep_fuel _ _ _ _ _ (S (length s'))) by lia.
  rewrite lazy_any_until by lia.
  destruct (after_first (cu b) s'); reflexivity.
Qed.

Lemma after_first_app x mid post :
  x ∉ mid -> after_first x (mid ++ x :: post) = Some post.
Proof.
  induction mid as [|y mid IH]; intros H; simpl.
  - rewrite N.eqb_refl. reflexivity.
  - apply not_elem_of_cons in H as [Hxy Hmid].
    destruct (N.eqb_spec x y); [contradiction|]. auto.
Qed.

(** The match is the text from the first [o] to the first [b] after it. *)
Lemma exec_bracket o b pre mid post :
  cu o ∉ pre -> cu b ∉ mid ->
  exec (bracketRe o b) (pre ++ cu o :: mid ++ cu b :: post)
  = Some (cu o :: mid ++ [cu b], []).
Proof.
  intros Hpre Hmid.
  induction pre as [|x pre IH].
  - cbn [app]. unfold exec.
    destruct (mid ++ cu b :: post) eqn:E;
      [destruct mid; discriminate|]; rewrite <- E; clear E.
    rewrite match_here_bracket, N.eqb_refl, after_first_app by assumption.
    f_equal. f_equal.
    replace (length (cu o :: mid ++ cu b :: post) - length post)%nat
      with (length (cu o :: mid ++ [cu b])).
    + change (cu o :: mid ++ cu b :: post)
        with ((cu o :: mid) ++ [cu b] ++ post).
      rewrite app_assoc. apply take_app_length.
    + simpl. rewrite !length_app. simpl. lia.
  - apply not_elem_of_cons in Hpre as [Hx Hpre].
    cbn [app exec]. rewrite match_here_bracket.
    destruct (N.eqb_spec (cu o) x); [contradiction|]. auto.
Qed.

Lemma exec_bracket_none o b s :
  cu o ∉ s -> exec (bracketRe o b) s = None.
Proof.
  induction s as [|x s IH]; intros H.
  - reflexivity.
  - apply not_elem_of_cons in H as [Hx Hs].
    cbn [exec]. rewrite match_here_bracket.
    destruct (N.eqb_spec (cu o) x); [contradiction|]. auto.
Qed.

Lemma trim_start_nonspace x s :
  is_space x = false -> trim_start (x :: s) = x :: s.
Proof. intros H. simpl. rewrite H. reflexivity. Qed.

Lemma trim_bracketed x y mid :
  is_space x = false -> is_space y = false ->
  trim (x :: mid ++ [y]) = x :: mid ++ [y].
Proof.
  intros Hx Hy. unfold trim.
  rewrite trim_start_nonspace by assumption.
  change (x :: mid ++ [y]) with ((x :: mid) ++ [y]).
  rewrite rev_app_distr. cbn [rev app].
  rewrite trim_start_nonspace by assumption.
  change (y :: rev mid ++ [x]) with (rev [y] ++ rev (x :: mid)).
  rewrite <- rev_app_distr, rev_involutive. reflexivity.
Qed.

End MatcherFacts.

(** ** parseTaskFromAI *)



Lemma arrayRe_bracket : arrayRe = bracketRe "[" "]".
Proof. reflexivity. Qed.

Lemma objectRe_bracket : objectRe = bracketRe "{" "}".
Proof. reflexivity. Qed.

Lemma parse_array_throws tz now s m c :
  exec arrayRe s = Some (m, c) -> JSON_parse (trim m) = Throw ->
  parseTaskFromAI tz now s = None.
Proof.
  intros Hm Hp. unfold parseTaskFromAI, array_rule.
  rewrite Hm, Hp. reflexivity.
Qed.

Lemma parse_object_throws tz now s m c :
  exec arrayRe s = None ->
  exec objectRe s = Some (m, c) -> JSON_parse (trim m) = Throw ->
  parseTaskFromAI tz now s = None.
Proof.
  intros Ha Hm Hp. unfold parseTaskFromAI, array_rule, object_rule.
  rewrite Ha, Hm, Hp. reflexivity.
Qed.



(** C4, counterexample: on the text [[x] {"title":"a"}] the array rule
    throws (its match [[x]] is not JSON) and the object rule alone would
    return the object, yet [parseTaskFromAI] returns [null]: the exception
    ends the parse, it does not fall through to the next rule. *)
Lemma C4_throw_does_not_fall_through :
  array_rule text_bad_array = Throw /\
  object_rule text_bad_array
    = Normal (Some [CJson (JObj [(codes "title", JStr (codes "a"))])]) /\
  parse_with_fall_through 0 0 text_bad_array
    = Some [CJson (JObj [(codes "title", JStr (codes "a"))])] /\
  parseTaskFromAI 0 0 text_bad_array = None.
Proof. vm_compute. repeat split; reflexivity. Qed.

(** C4, amended: when [JSON.parse] throws on the bracketed substring found
    by the array rule, or by the object rule after the array pattern found
    nothing, [parseTaskFromAI] returns [null] at once; the single handler
    around all the rules catches the exception and no later rule runs. *)
Theorem C4_throw_returns_null tz now s m c :
  (exec arrayRe s = Some (m, c) /\ JSON_parse (trim m) = Throw) \/
  (exec arrayRe s = None /\ exec objectRe s = Some (m, c) /\
   JSON_parse (trim m) = Throw) ->
  parseTaskFromAI tz now s = None.
Proof.
  intros [[Hm Hp]|[Ha [Hm Hp]]].
  - eapply parse_array_throws; eassumption.
  - eapply parse_object_throws; eassumption.
Qed.

Lemma C4_throw_returns_null_witness :
  parseTaskFromAI 0 0 text_bad_array = None.
Proof.
  apply (C4_throw_returns_null 0 0 text_bad_array (codes "[x]") []).
  left. split; vm_compute; reflexivity.
Defined.

(** The array rule decides as soon as the text from the first "[" to the
    first "]" after it is a JSON array. *)
Lemma array_rule_first_bracket pre mid post items :
  cu "[" ∉ pre -> cu "]" ∉ mid ->
  JSON_parse (cu "[" :: mid ++ [cu "]"]) = Normal (JArr items) ->
  array_rule (pre ++ cu "[" :: mid ++ cu "]" :: post)
  = Normal (Some (map CJson items)).
Proof.
  intros Hpre Hmid Hp. unfold array_rule.
  rewrite arrayRe_bracket, exec_bracket by assumption.
  rewrite trim_bracketed by reflexivity.
  rewrite Hp. reflexivity.
Qed.

(** C5, counterexample: the text [[[1]] {}] contains the substring [[1]]
    (and [[[1]]]), which parses as a JSON array, and the substring [{}],
    which parses as a JSON object, yet [parseTaskFromAI] returns [null]:
    the array pattern stops at the first "]" and [[[1]] is not JSON. *)
Lemma C5_array_form_not_returned :
  codes "[[1]] {}" = codes "[" ++ codes "[1]" ++ codes "] {}" /\
  JSON_parse (codes "[1]") = Normal (JArr [JNum (codes "1")]) /\
  JSON_parse (codes "[[1]]") = Normal (JArr [JArr [JNum (codes "1")]]) /\
  codes "[[1]] {}" = codes "[[1]] " ++ codes "{}" /\
  JSON_parse (codes "{}") = Normal (JObj []) /\
  exec arrayRe (codes "[[1]] {}") = Some (codes "[[1]", []) /\
  parseTaskFromAI 0 0 (codes "[[1]] {}") = None.
Proof. vm_compute. repeat split; reflexivity. Qed.

(** C5, amended: the array rule looks at the text from the first "[" to
    the first "]" after it; when that text parses as a JSON array,
    [parseTaskFromAI] returns its elements as the candidates, whatever
    stands before and after it, an object-shaped fragment included. *)
Theorem C5_first_bracketed_array_wins tz now pre mid post items :
  cu "[" ∉ pre -> cu "]" ∉ mid ->
  JSON_parse (cu "[" :: mid ++ [cu "]"]) = Normal (JArr items) ->
  parseTaskFromAI tz now (pre ++ cu "[" :: mid ++ cu "]" :: post)
  = Some (map CJson items).
Proof.
  intros Hpre Hmid Hp. unfold parseTaskFromAI.
  rewrite (array_rule_first_bracket pre mid post items) by assumption.
  reflexivity.
Qed.

Lemma not_elem_of_codes (x : N) (s : jsstring) :
  forallb (fun y => negb (N.eqb x y)) s = true -> x ∉ s.
Proof.
  induction s as [|y s IH]; simpl; intros H.
  - apply not_elem_of_nil.
  - apply andb_true_iff in H as [Hy Hs].
    apply not_elem_of_cons. split; [|auto].
    intros ->. rewrite N.eqb_refl in Hy. discriminate.
Qed.

(** The text [see {"title":"a"} and [{"title":"b"}, 3] end]. *)
Lemma C5_first_bracketed_array_wins_witness :
  parseTaskFromAI 0 0
    ((codes "see {" ++ quoted "title" ++ codes ":" ++ quoted "a" ++ codes "} and ")
     ++ cu "[" :: (codes "{" ++ quoted "title" ++ codes ":" ++ quoted "b" ++ codes "}, 3")
     ++ cu "]" :: codes " end")
  = Some (map CJson [JObj [(codes "title", JStr (codes "b"))]; JNum (codes "3")]).
Proof.
  apply (C5_first_bracketed_array_wins 0 0).
  - apply not_elem_of_codes. vm_compute. reflexivity.
  - apply not_elem_of_codes. vm_compute. reflexivity.
  - vm_compute. reflexivity.
Defined.

(** *** The lexical fallback on [The task is: Buy milk at 5pm] *)

(** In a zone with a constant offset every local time is read back. *)
Lemma LocalTime_UTC (offset : Z) t : LocalTime offset (UTC offset t) = t.
Proof. unfold LocalTime, UTC. cbn. lia. Qed.

Lemma read_back_fixed (offset : Z) t : read_back offset t.
Proof. apply LocalTime_UTC. Qed.

(** [setHours(h, m, 0, 0)] keeps the local day and sets the local time of
    day, as long as [h:m] lies within the day and that local time is read
    back. *)
Lemma setHours4_local tz t h m :
  0 <= h * msPerHour + m * msPerMinute < msPerDay ->
  read_back tz (MakeDate (Day (LocalTime tz t)) (MakeTime h m 0 0)) ->
  Day (LocalTime tz (setHours4 tz t h m 0 0)) = Day (LocalTime tz t) /\
  LocalTime tz (setHours4 tz t h m 0 0) mod msPerDay
    = h * msPerHour + m * msPerMinute.
Proof.
  intros H Hrb. unfold setHours4. unfold read_back in Hrb. rewrite Hrb.
  unfold MakeDate, MakeTime, Day.
  replace (h * msPerHour + m * msPerMinute + 0 * msPerSecond + 0)
    with (h * msPerHour + m * msPerMinute) by lia.
  split.
  - rewrite Z.div_add_l by (unfold msPerDay; lia).
    rewrite (Z.div_small (h * msPerHour + m * msPerMinute)) by assumption. lia.
  - rewrite Z.add_comm, Z.mod_add by (unfold msPerDay; lia).
    apply Z.mod_small. assumption.
Qed.

Lemma parseTimeString_5pm tz now :
  parseTimeString tz now (codes "5pm") = Normal (setHours4 tz now 17 0 0 0).
Proof.
  unfold parseTimeString.
  assert (E : exec timeRegex (codes "5pm")
              = Some (codes "5pm", [(3%nat, codes "pm"); (1%nat, codes "5")]))
    by (vm_compute; reflexivity).
  rewrite E. reflexivity.
Qed.

Lemma lexical_rule_buy_milk tz now :
  lexical_rule tz now text_buy_milk
  = Normal (Some [CLex (codes "is: Buy milk") (setHours4 tz now 17 0 0 0)]).
Proof.
  unfold lexical_rule.
  assert (E1 : exec taskRe text_buy_milk
               = Some (codes "task is: Buy milk", [(1%nat, codes "is: Buy milk")]))
    by (vm_compute; reflexivity).
  assert (E2 : exec timeRe text_buy_milk
               = Some (codes "at 5pm", [(1%nat, codes "5pm")]))
    by (vm_compute; reflexivity).
  rewrite E1, E2. cbn [capture Nat.eqb].
  rewrite parseTimeString_5pm. reflexivity.
Qed.

(** C7, counterexample: for [The task is: Buy milk at 5pm] the title of
    the candidate is [is: Buy milk], not [Buy milk]: the capture starts
    right after the word [task] and the spaces that follow it. *)
Lemma C7_title_is_not_buy_milk :
  parseTaskFromAI 0 0 text_buy_milk
    = Some [CLex (codes "is: Buy milk") (17 * msPerHour)] /\
  codes "is: Buy milk" <> codes "Buy milk".
Proof. split; [vm_compute; reflexivity | discriminate]. Qed.

(** C7, amended: for the raw text [The task is: Buy milk at 5pm], which has
    no JSON fragment, [parseTaskFromAI] returns a single candidate whose
    title is exactly [is: Buy milk] and whose time is 17:00 local time on
    the day of the call: the instant [setHours(17, 0, 0, 0)] yields in the
    zone of the host, at which the local clocks read 17:00 of that day
    wherever that local time is read back, as it is in every zone with a
    constant offset ([read_back_fixed]). *)
Theorem C7_buy_milk_candidate (tz : zone) now :
  exec arrayRe text_buy_milk = None /\
  exec objectRe text_buy_milk = None /\
  exists t,
    parseTaskFromAI tz now text_buy_milk = Some [CLex (codes "is: Buy milk") t] /\
    t = wall_clock tz (Day (LocalTime tz now)) 17 /\
    (read_back tz (MakeDate (Day (LocalTime tz now)) (MakeTime 17 0 0 0)) ->
     Day (LocalTime tz t) = Day (LocalTime tz now) /\
     LocalTime tz t mod msPerDay = 17 * msPerHour).
Proof.
  split; [vm_compute; reflexivity|].
  split; [vm_compute; reflexivity|].
  exists (setHours4 tz now 17 0 0 0). split; [|split].
  - unfold parseTaskFromAI.
    assert (Ea : array_rule text_buy_milk = Normal None)
      by (vm_compute; reflexivity).
    assert (Eo : object_rule text_buy_milk = Normal None)
      by (vm_compute; reflexivity).
    rewrite Ea, Eo. cbn [and_then]. rewrite lexical_rule_buy_milk. reflexivity.
  - reflexivity.
  - intros Hrb. pose proof (setHours4_local tz now 17 0) as H.
    replace (17 * msPerHour + 0 * msPerMinute) with (17 * msPerHour) in H by lia.
    apply H; [unfold msPerHour, msPerDay; lia|exact Hrb].
Qed.

(** ** The scheduler *)

Section SchedulerFacts.

Context {E : engine}.
Variable D : json -> option Z.
Variable tz : zone.

(** *** Reloading *)

Lemma omap_lookup_fresh (h r : list task) :
  omap (fun l => (h ++ r) !! l) (seq (length h) (length r)) = r.
Proof.
  revert h. induction r as [|x r IH]; intros h; [reflexivity|].
  cbn [length seq omap list_omap].
  rewrite list_lookup_middle by reflexivity.
  f_equal.
  specialize (IH (h ++ [x])).
  rewrite <- app_assoc, length_app in IH. cbn [app length] in IH.
  replace (length h + 1)%nat with (S (length h)) in IH by lia.
  exact IH.
Qed.

Lemma view_loadTasks st :
  view (loadTasks D st) = sortWith (byTime D) (store st).
Proof. unfold view, loadTasks. cbn [heap tasks]. apply omap_lookup_fresh. Qed.

Lemma store_loadTasks st : store (loadTasks D st) = store st.
Proof. reflexivity. Qed.

Lemma view_loadTasks_perm st : view (loadTasks D st) ≡ₚ store st.
Proof. rewrite view_loadTasks. apply sortWith_perm. Qed.

(** *** The scan of resolveConflicts, on the task objects *)

Lemma scan_first_conflict h t ls :
  scan D h t ls = first_conflict D t (omap (fun l => h !! l) ls).
Proof.
  induction ls as [|l ls IH]; [reflexivity|].
  cbn [scan omap list_omap]. destruct (h !! l) as [e|]; [|exact IH].
  cbn [first_conflict]. rewrite IH. reflexivity.
Qed.

Lemma conflict_true a b :
  conflict a b = true <->
  exists x y, a = Some x /\ b = Some y /\ Z.abs (x - y) < 3600000.
Proof.
  unfold conflict, oneHour. split.
  - destruct a as [x|], b as [y|]; try discriminate.
    intros H. apply Z.ltb_lt in H. exists x, y. auto.
  - intros (x & y & -> & -> & H). apply Z.ltb_lt. exact H.
Qed.

Lemma conflict_false a b :
  conflict a b = false <->
  forall x y, a = Some x -> b = Some y -> 3600000 <= Z.abs (x - y).
Proof.
  unfold conflict, oneHour. split.
  - destruct a as [x|], b as [y|]; try discriminate.
    intros H x' y' [= <-] [= <-]. apply Z.ltb_ge in H. exact H.
  - intros H. destruct a as [x|], b as [y|]; try reflexivity.
    apply Z.ltb_ge. apply H; reflexivity.
Qed.

(** The scan passes the tasks that are apart from the new time. *)
Lemma first_conflict_skip u t pre l :
  newDate D u = Normal t ->
  Forall (fun x => apart D u (time x)) pre ->
  first_conflict D t (pre ++ l) = first_conflict D t l.
Proof.
  intros Hu. induction 1 as [|x pre (a & b & Ha & Hb & Hab) _ IH]; [reflexivity|].
  cbn [app first_conflict]. rewrite Hb.
  rewrite Hu in Ha. injection Ha as <-.
  apply conflict_false in Hab. rewrite Hab. exact IH.
Qed.

(** A conflict that is found is with a valid date, less than one hour from
    the new time. *)
Lemma first_conflict_Some t l e :
  first_conflict D t l = Normal (Some e) -> conflict t (Some e) = true.
Proof.
  induction l as [|x l IH]; [discriminate|].
  cbn [first_conflict]. destruct (newDate D (time x)) as [d|]; [|discriminate].
  destruct (conflict t d) eqn:Ec; [|exact IH].
  intros [= ->]. exact Ec.
Qed.

(** The task of the list the scan stops at. *)
Lemma first_conflict_elem t l e :
  first_conflict D t l = Normal (Some e) ->
  exists x, x ∈ l /\ newDate D (time x) = Normal (Some e).
Proof.
  induction l as [|x l IH]; [discriminate|].
  cbn [first_conflict]. destruct (newDate D (time x)) as [d|] eqn:Hd; [|discriminate].
  destruct (conflict t d) eqn:Ec.
  - intros [= ->]. exists x. split; [left|exact Hd].
  - intros H. destruct (IH H) as (y & Hy & Hdy). exists y. split; [right; exact Hy|exact Hdy].
Qed.

(** What the scan does on a list, case by case. *)
Lemma resolution_kept existing v :
  newDate D v <> Throw ->
  Forall (fun x => apart D v (time x)) existing ->
  resolution D existing v = Kept.
Proof.
  intros Hv Hall. unfold resolution.
  destruct (newDate D v) as [t|] eqn:Ht; [|contradiction].
  rewrite <- (app_nil_r existing).
  rewrite (first_conflict_skip v t existing [] Ht Hall). reflexivity.
Qed.

Lemma resolution_conflict pre e post v :
  Forall (fun x => apart D v (time x)) pre ->
  within_hour D v (time e) ->
  exists T, newDate D (time e) = Normal (Some T) /\
    resolution D (pre ++ e :: post) v
    = (if Z.abs (T + 3600000) <=? maxTime then Moved (T + 3600000) else Thrown).
Proof.
  intros Hpre (a & b & Ha & Hb & Hab). exists b. split; [exact Hb|].
  unfold resolution. rewrite Ha.
  rewrite (first_conflict_skip v (Some a) pre _ Ha Hpre).
  cbn [first_conflict]. rewrite Hb.
  assert (Hc : conflict (Some a) (Some b) = true)
    by (apply conflict_true; eauto).
  rewrite Hc. unfold TimeClip, oneHour.
  change (60 * 60 * 1000) with 3600000.
  destruct (Z.abs (b + 3600000) <=? maxTime); reflexivity.
Qed.

(** An unreadable date on the way makes the scan throw. *)
Lemma resolution_throw_at pre e post v :
  Forall (fun x => apart D v (time x)) pre ->
  newDate D (time e) = Throw ->
  resolution D (pre ++ e :: post) v = Thrown.
Proof.
  intros Hpre He. unfold resolution.
  destruct (newDate D v) as [t|] eqn:Hv; [|reflexivity].
  rewrite (first_conflict_skip v t pre _ Hv Hpre).
  cbn [first_conflict]. rewrite He. reflexivity.
Qed.

Lemma resolution_unreadable existing v :
  newDate D v = Throw -> resolution D existing v = Thrown.
Proof. intros H. unfold resolution. rewrite H. reflexivity. Qed.

(** A task is moved to one hour after a task of the list that is within
    one hour of it, and to a later time. *)
Lemma resolution_moved existing v t :
  resolution D existing v = Moved t ->
  exists x T T0,
    x ∈ existing /\ newDate D (time x) = Normal (Some T) /\
    newDate D v = Normal (Some T0) /\ Z.abs (T0 - T) < 3600000 /\
    t = T + 3600000 /\ Z.abs t <= maxTime.
Proof.
  unfold resolution. destruct (newDate D v) as [d|] eqn:Hv; [|discriminate].
  destruct (first_conflict D d existing) as [[e|]|] eqn:Hf; try discriminate.
  unfold TimeClip. destruct (Z.leb_spec (Z.abs (e + oneHour)) maxTime) as [Hle|];
    [|discriminate].
  intros [= <-].
  destruct (first_conflict_elem _ _ _ Hf) as (x & Hx & Hdx).
  apply first_conflict_Some in Hf. apply conflict_true in Hf as (a & b & -> & [= <-] & Hab).
  exists x, e, a. unfold oneHour in *. repeat split; auto.
Qed.

Lemma resolution_readable existing v :
  resolution D existing v <> Thrown -> newDate D v <> Throw.
Proof.
  unfold resolution. destruct (newDate D v); [discriminate|].
  intros H. contradiction.
Qed.

(** *** resolveConflicts *)

(** The call in terms of the task objects of [this.tasks]. *)
Lemma resolveConflicts_resolution l st obj :
  heap st !! l = Some obj ->
  resolveConflicts D l st
  = match resolution D (view st) (time obj) with
    | Kept => (Normal l, st)
    | Moved t =>
        (Normal l,
         mkScheduler
           (<[l := mkTask (id obj) (title obj) (VIso t) (description obj)
                          (created obj)]> (heap st))
           (tasks st) (store st) (nextId st) (notices st ++ [t]))
    | Thrown => (Throw, st)
    end.
Proof.
  intros H. unfold resolveConflicts, resolution, view. rewrite H.
  destruct (newDate D (time obj)) as [t|]; [|reflexivity].
  rewrite scan_first_conflict.
  destruct (first_conflict D t _) as [[e|]|]; try reflexivity.
  destruct (TimeClip (e + oneHour)); reflexivity.
Qed.

Lemma resolveConflicts_frame l st :
  let st' := snd (resolveConflicts D l st) in
  tasks st' = tasks st /\ store st' = store st /\ nextId st' = nextId st /\
  length (heap st') = length (heap st) /\
  forall l', l' <> l -> heap st' !! l' = heap st !! l'.
Proof.
  cbn zeta. destruct (heap st !! l) as [obj|] eqn:H.
  - rewrite (resolveConflicts_resolution l st obj H).
    destruct (resolution D (view st) (time obj)); cbn; auto.
    repeat split; try reflexivity.
    + apply length_insert.
    + intros l' Hne. apply list_lookup_insert_ne. congruence.
  - unfold resolveConflicts. rewrite H. cbn. auto.
Qed.

(** An exception leaves everything as it was. *)
Lemma resolveConflicts_throw l st st' :
  resolveConflicts D l st = (Throw, st') -> st' = st.
Proof.
  destruct (heap st !! l) as [obj|] eqn:H.
  - rewrite (resolveConflicts_resolution l st obj H).
    destruct (resolution D (view st) (time obj)); intros [=]; auto.
  - unfold resolveConflicts. rewrite H. intros [=].
Qed.

Lemma resolveConflicts_ref l st r st' :
  resolveConflicts D l st = (Normal r, st') -> r = l.
Proof.
  destruct (heap st !! l) as [obj|] eqn:H.
  - rewrite (resolveConflicts_resolution l st obj H).
    destruct (resolution D (view st) (time obj)); intros [=]; auto.
  - unfold resolveConflicts. rewrite H. intros [=]. auto.
Qed.

(** C1, amended: [resolveConflicts] scans [this.tasks] in order.  At the
    first existing task whose time is less than one hour from the time of
    the new task, the time of the new task is set to exactly one hour
    after the time of that existing task and the scan stops, whatever the
    tasks after it are; when no existing task is within one hour, nothing
    changes.  The call throws, and changes nothing, when the time set
    would lie beyond the range of [Date] (8.64e15 ms from the epoch), and
    when [new Date] throws on the time of the new task or of a task the
    scan comes to. *)
Theorem C1_first_conflict_wins st newTask obj :
  heap st !! newTask = Some obj ->
  (forall pre e post,
     view st = pre ++ e :: post ->
     Forall (fun x => apart D (time obj) (time x)) pre ->
     within_hour D (time obj) (time e) ->
     exists T, newDate D (time e) = Normal (Some T) /\
       (Z.abs (T + 3600000) <= maxTime ->
        fst (resolveConflicts D newTask st) = Normal newTask /\
        exists obj',
          heap (snd (resolveConflicts D newTask st)) !! newTask = Some obj' /\
          time obj' = VIso (T + 3600000)) /\
       (maxTime < Z.abs (T + 3600000) ->
        resolveConflicts D newTask st = (Throw, st))) /\
  (newDate D (time obj) <> Throw ->
   Forall (fun x => apart D (time obj) (time x)) (view st) ->
   resolveConflicts D newTask st = (Normal newTask, st)) /\
  (newDate D (time obj) = Throw ->
   resolveConflicts D newTask st = (Throw, st)) /\
  (forall pre e post,
     view st = pre ++ e :: post ->
     Forall (fun x => apart D (time obj) (time x)) pre ->
     newDate D (time e) = Throw ->
     resolveConflicts D newTask st = (Throw, st)).
Proof.
  intros Hobj. rewrite (resolveConflicts_resolution _ _ _ Hobj).
  split; [|split; [|split]].
  - intros pre e post Hview Hpre He. rewrite Hview.
    destruct (resolution_conflict pre e post _ Hpre He) as (T & HT & ->).
    exists T. split; [exact HT|]. split.
    + intros Hle. apply Z.leb_le in Hle. rewrite Hle. cbn [fst snd heap].
      split; [reflexivity|]. eexists. split.
      * apply list_lookup_insert_eq. eapply lookup_lt_Some, Hobj.
      * reflexivity.
    + intros Hgt. apply Z.leb_gt in Hgt. rewrite Hgt. reflexivity.
  - intros Hr Hall. rewrite resolution_kept by assumption. reflexivity.
  - intros Hthrow. rewrite resolution_unreadable by assumption. reflexivity.
  - intros pre e post Hview Hpre He. rewrite Hview.
    rewrite resolution_throw_at by assumption. reflexivity.
Qed.

(** C3, amended: [resolveConflicts] returns the very object it was given,
    not a copy, or throws.  When a conflict is found it overwrites the
    [time] field of that object in place, so the input is changed; the
    other fields of the object, every other object, [this.tasks] and the
    object store stay as they were.  Without a conflict, and when the call
    throws, the input is unchanged. *)
Theorem C3_resolve_mutates_in_place st newTask obj :
  heap st !! newTask = Some obj ->
  let r := resolveConflicts D newTask st in
  let st' := snd r in
  (fst r = Normal newTask \/ r = (Throw, st)) /\
  (exists obj',
     heap st' !! newTask = Some obj' /\
     id obj' = id obj /\ title obj' = title obj /\
     description obj' = description obj /\ created obj' = created obj /\
     (time obj' = time obj \/
      exists x T,
        x ∈ view st /\ within_hour D (time obj) (time x) /\
        newDate D (time x) = Normal (Some T) /\
        time obj' = VIso (T + 3600000) /\
        notices st' = notices st ++ [T + 3600000])) /\
  (forall pre e post,
     view st = pre ++ e :: post ->
     Forall (fun x => apart D (time obj) (time x)) pre ->
     within_hour D (time obj) (time e) ->
     exists T, newDate D (time e) = Normal (Some T) /\
       (Z.abs (T + 3600000) <= maxTime ->
        exists obj', heap st' !! newTask = Some obj' /\
                     time obj' = VIso (T + 3600000))) /\
  (forall l, l <> newTask -> heap st' !! l = heap st !! l) /\
  tasks st' = tasks st /\ store st' = store st /\ nextId st' = nextId st.
Proof.
  intros Hobj r st'.
  destruct (resolveConflicts_frame newTask st) as (Ht & Hs & Hn & _ & Hf).
  cbn zeta in *. fold r in Ht, Hs, Hn, Hf. fold st' in Ht, Hs, Hn, Hf.
  split; [|split; [|split; [|auto]]].
  - unfold r. rewrite (resolveConflicts_resolution _ _ _ Hobj).
    destruct (resolution D (view st) (time obj)); cbn; auto.
  - unfold st', r. rewrite (resolveConflicts_resolution _ _ _ Hobj).
    destruct (resolution D (view st) (time obj)) as [|t|] eqn:Hres; cbn [snd heap notices].
    + exists obj. repeat split; auto.
    + eexists. split; [apply list_lookup_insert_eq; eapply lookup_lt_Some, Hobj|].
      cbn [id title description created time].
      repeat split; try reflexivity. right.
      apply resolution_moved in Hres as (x & T & T0 & Hx & HT & HT0 & Hab & -> & _).
      exists x, T. split; [exact Hx|]. split; [exists T0, T; auto|].
      split; [exact HT|]. split; reflexivity.
    + exists obj. repeat split; auto.
  - intros pre e post Hview Hpre He. unfold st', r.
    rewrite (resolveConflicts_resolution _ _ _ Hobj), Hview.
    destruct (resolution_conflict pre e post _ Hpre He) as (T & HT & ->).
    exists T. split; [exact HT|].
    intros Hle. apply Z.leb_le in Hle. rewrite Hle. cbn [snd heap].
    eexists. split; [apply list_lookup_insert_eq; eapply lookup_lt_Some, Hobj|].
    reflexivity.
Qed.

(** *** The handler of the button "resolveConflicts" *)

Lemma resolve_each_frame ts :
  forall st,
    let st' := snd (resolve_each D ts st) in
    tasks st' = tasks st /\ store st' = store st /\ nextId st' = nextId st /\
    length (heap st') = length (heap st) /\
    forall l, l ∉ ts -> heap st' !! l = heap st !! l.
Proof.
  induction ts as [|t ts IH]; intros st; cbn [resolve_each]; [cbn; auto|].
  destruct (resolveConflicts_frame t st) as (Ht & Hs & Hn & Hlen & Hf).
  cbn zeta in *.
  destruct (resolveConflicts D t st) as [[r|] st1] eqn:Hr; cbn [snd] in *.
  - destruct (IH st1) as (Ht' & Hs' & Hn' & Hlen' & Hf').
    repeat split; try congruence.
    intros l Hl. apply not_elem_of_cons in Hl as [Hne Hl].
    rewrite Hf' by assumption. apply Hf, Hne.
  - repeat split; auto.
    intros l Hl. apply not_elem_of_cons in Hl as [Hne _]. apply Hf, Hne.
Qed.

Lemma Forall_omap_insert (P : task -> Prop) (h : list task) ls l x :
  Forall P (omap (fun i => h !! i) ls) -> P x ->
  Forall P (omap (fun i => <[l := x]> h !! i) ls).
Proof.
  intros Hall Hx. induction ls as [|a ls IH]; [constructor|].
  cbn [omap list_omap] in *.
  assert (Hrest : Forall P (omap (fun i => h !! i) ls)).
  { destruct (h !! a); [apply Forall_cons in Hall as [_ Hall]|]; exact Hall. }
  specialize (IH Hrest).
  destruct (decide (a = l)) as [->|Hne].
  - destruct (h !! l) as [y|] eqn:Hl.
    + rewrite list_lookup_insert_eq by (eapply lookup_lt_Some, Hl).
      constructor; assumption.
    + rewrite list_insert_ge by (apply lookup_ge_None, Hl). rewrite Hl. exact Hrest.
  - rewrite list_lookup_insert_ne by congruence.
    destruct (h !! a); [|exact IH].
    apply Forall_cons in Hall as [Ha _]. constructor; assumption.
Qed.

(** [resolveConflicts] keeps the times of [this.tasks] readable. *)
Lemma resolveConflicts_readable l st :
  Forall (readable D) (view st) ->
  Forall (readable D) (view (snd (resolveConflicts D l st))).
Proof.
  intros Hall. destruct (heap st !! l) as [obj|] eqn:H.
  - rewrite (resolveConflicts_resolution l st obj H).
    destruct (resolution D (view st) (time obj)); cbn [snd]; try exact Hall.
    unfold view. cbn [heap tasks]. apply Forall_omap_insert; [exact Hall|].
    unfold readable. cbn. discriminate.
  - unfold resolveConflicts. rewrite H. exact Hall.
Qed.

Lemma resolve_each_readable ts :
  forall st,
    Forall (readable D) (view st) ->
    Forall (readable D) (view (snd (resolve_each D ts st))).
Proof.
  induction ts as [|t ts IH]; intros st Hall; cbn [resolve_each]; [exact Hall|].
  pose proof (resolveConflicts_readable t st Hall) as H1.
  destruct (resolveConflicts D t st) as [[r|] st1]; cbn [snd] in *; auto.
Qed.







(** *** addTasksFromAI *)

Lemma get_not_null c k : c <> CJson JNull -> get c k = Normal (prop c k).
Proof.
  intros H. unfold prop.
  destruct c as [[]|]; try reflexivity. contradiction.
Qed.

Lemma null_or_not (c : candidate) : c = CJson JNull \/ c <> CJson JNull.
Proof. destruct c as [[]|]; (left; reflexivity) || (right; discriminate). Qed.

Lemma addTasks_loop_null clock n rest st :
  addTasks_loop D clock n (CJson JNull :: rest) st = (Rejected, st).
Proof. reflexivity. Qed.

Lemma omap_lookup_ext (h h' : list task) ls :
  Forall (fun l => h' !! l = h !! l) ls ->
  omap (fun l => h' !! l) ls = omap (fun l => h !! l) ls.
Proof.
  induction 1 as [|l ls Hl _ IH]; [reflexivity|].
  cbn [omap list_omap]. rewrite Hl, IH. reflexivity.
Qed.

(** An object allocated behind the objects of [this.tasks] is not seen by
    the scan. *)
Lemma view_alloc st obj :
  tasks_valid st -> view (with_heap (heap st ++ [obj]) st) = view st.
Proof.
  intros Hv. unfold view. cbn [with_heap heap tasks].
  apply omap_lookup_ext. eapply Forall_impl; [exact Hv|].
  intros l Hl. cbn beta in Hl. apply lookup_app_l, Hl.
Qed.

(** The object literal built for a candidate. *)
Lemma literal_stored c now k :
  let obj := mkTask None (prop c (codes "title")) (prop c (codes "time"))
               (or_default (prop c (codes "description")) (VJson (JStr [])))
               (VIso now) in
  id (set_id k obj) = Some k /\
  title (set_id k obj) = prop c (codes "title") /\
  description (set_id k obj)
  = (if truthy (prop c (codes "description"))
     then prop c (codes "description") else VJson (JStr [])) /\
  created (set_id k obj) = VIso now /\
  time (set_id k obj) = prop c (codes "time").
Proof. cbn. unfold or_default. auto. Qed.

(** One round of the loop, for a candidate that is not [null]. *)
Lemma addTasks_step clock n c rest st :
  tasks_valid st -> c <> CJson JNull ->
  exists st1,
    tasks st1 = tasks st /\ view st1 = view st /\ tasks_valid st1 /\
    ((resolution D (view st) (prop c (codes "time")) = Thrown /\
      addTasks_loop D clock n (c :: rest) st = (Rejected, st1) /\
      store st1 = store st /\ nextId st1 = nextId st) \/
     (exists r,
        addTasks_loop D clock n (c :: rest) st
        = addTasks_loop D clock (S n) rest st1 /\
        store st1 = store st ++ [r] /\ nextId st1 = nextId st + 1 /\
        stored_for D (view st) (clock n) (nextId st) c r)).
Proof.
  intros Hv Hc. cbn [addTasks_loop]. rewrite !get_not_null by assumption.
  cbn zeta.
  set (obj := mkTask None (prop c (codes "title")) (prop c (codes "time"))
                (or_default (prop c (codes "description")) (VJson (JStr [])))
                (VIso (clock n))).
  set (st0 := with_heap (heap st ++ [obj]) st).
  assert (Hobj : heap st0 !! length (heap st) = Some obj).
  { unfold st0. cbn [with_heap heap]. apply list_lookup_middle. reflexivity. }
  assert (Hview0 : view st0 = view st) by apply (view_alloc st _ Hv).
  assert (Hv0 : tasks_valid st0).
  { unfold tasks_valid, st0. cbn [with_heap heap tasks]. rewrite length_app.
    eapply Forall_impl; [exact Hv|]. intros l Hl. cbn beta in *. lia. }
  destruct (literal_stored c (clock n) (nextId st)) as (L1 & L2 & L3 & L4 & L5).
  fold obj in L1, L2, L3, L4, L5.
  rewrite (resolveConflicts_resolution _ _ _ Hobj), Hview0.
  change (time obj) with (prop c (codes "time")).
  unfold stored_for.
  destruct (resolution D (view st) (prop c (codes "time"))) as [|t|] eqn:Hres.
  - exists (mkScheduler (heap st0) (tasks st0) (store st0 ++ [set_id (nextId st0) obj])
                        (nextId st0 + 1) (notices st0)).
    split; [reflexivity|]. split; [exact Hview0|]. split; [exact Hv0|].
    right. exists (set_id (nextId st) obj).
    unfold saveTask, loc. rewrite Hobj. cbn [id obj].
    split; [reflexivity|]. split; [reflexivity|]. split; [reflexivity|].
    auto.
  - set (obj' := mkTask (id obj) (title obj) (VIso t) (description obj) (created obj)).
    set (h1 := <[length (heap st) := obj']> (heap st0)).
    assert (Hobj' : h1 !! length (heap st) = Some obj').
    { unfold h1. apply list_lookup_insert_eq. eapply lookup_lt_Some, Hobj. }
    exists (mkScheduler h1 (tasks st) (store st ++ [set_id (nextId st) obj'])
                        (nextId st + 1) (notices st ++ [t])).
    split; [reflexivity|]. split; [|split].
    + rewrite <- Hview0. unfold view. cbn [heap tasks].
      apply omap_lookup_ext. eapply Forall_impl; [exact Hv|].
      intros l Hl. cbn beta in Hl. unfold h1.
      apply list_lookup_insert_ne. lia.
    + unfold tasks_valid. cbn [heap tasks]. unfold h1. rewrite length_insert.
      exact Hv0.
    + right. exists (set_id (nextId st) obj').
      unfold saveTask, loc. cbn [heap]. fold h1. rewrite Hobj'. cbn [id obj' obj].
      split; [reflexivity|]. split; [reflexivity|]. split; [reflexivity|].
      cbn. unfold or_default. auto.
  - exists st0. split; [reflexivity|]. split; [exact Hview0|]. split; [exact Hv0|].
    left. auto.
Qed.

(** The loop, against the task objects [this.tasks] held when it
    started. *)
Lemma addTasks_loop_spec cands :
  forall clock n st out st',
    tasks_valid st ->
    addTasks_loop D clock n cands st = (out, st') ->
    tasks st' = tasks st /\ view st' = view st /\ tasks_valid st' /\
    exists recs,
      store st' = store st ++ recs /\
      nextId st' = nextId st + Z.of_nat (length recs) /\
      (length recs <= length cands)%nat /\
      (out = Fulfilled -> length recs = length cands) /\
      (out = Rejected ->
       exists c, cands !! length recs = Some c /\ throws_on D (view st) c) /\
      (forall i r, recs !! i = Some r ->
         exists c, cands !! i = Some c /\
           stored_for D (view st) (clock (n + i)%nat) (nextId st + Z.of_nat i) c r).
Proof.
  induction cands as [|c rest IH]; intros clock n st out st' Hv Hrun.
  - cbn in Hrun. injection Hrun as <- <-.
    split; [reflexivity|]. split; [reflexivity|]. split; [exact Hv|].
    exists []. rewrite app_nil_r, Z.add_0_r.
    split; [reflexivity|]. split; [reflexivity|]. split; [reflexivity|].
    split; [reflexivity|]. split; [discriminate|]. intros i r [=].
  - assert (Hstop : forall st1,
              tasks st1 = tasks st -> view st1 = view st -> tasks_valid st1 ->
              store st1 = store st -> nextId st1 = nextId st ->
              throws_on D (view st) c ->
              tasks st1 = tasks st /\ view st1 = view st /\ tasks_valid st1 /\
              exists recs,
                store st1 = store st ++ recs /\
                nextId st1 = nextId st + Z.of_nat (length recs) /\
                (length recs <= length (c :: rest))%nat /\
                (Rejected = Fulfilled -> length recs = length (c :: rest)) /\
                (Rejected = Rejected ->
                 exists c0, (c :: rest) !! length recs = Some c0 /\
                            throws_on D (view st) c0) /\
                (forall i r, recs !! i = Some r ->
                   exists c0, (c :: rest) !! i = Some c0 /\
                     stored_for D (view st) (clock (n + i)%nat)
                       (nextId st + Z.of_nat i) c0 r)).
    { intros st1 H1 H2 H3 H4 H5 H6.
      split; [exact H1|]. split; [exact H2|]. split; [exact H3|].
      exists []. rewrite app_nil_r, Z.add_0_r.
      split; [exact H4|]. split; [exact H5|]. split; [cbn; lia|].
      split; [discriminate|]. split; [|intros i r [=]].
      intros _. exists c. split; [reflexivity|exact H6]. }
    destruct (null_or_not c) as [->|Hnn].
    + rewrite addTasks_loop_null in Hrun. injection Hrun as <- <-.
      apply Hstop; auto. left. reflexivity.
    + destruct (addTasks_step clock n c rest st Hv Hnn)
        as (st1 & Ht1 & Hview1 & Hv1 & [(Hres & Hstep & Hs1 & Hn1)|(r & Hstep & Hs1 & Hn1 & Hr)]).
      * rewrite Hstep in Hrun. injection Hrun as <- <-.
        apply Hstop; auto. right. exact Hres.
      * clear Hstop. rewrite Hstep in Hrun.
        destruct (IH clock (S n) st1 out st' Hv1 Hrun)
          as (Ht & Hview & Hv' & recs & Hs & Hn & Hlen & Hful & Hrej & Hrec).
        split; [congruence|]. split; [congruence|]. split; [exact Hv'|].
        exists (r :: recs). cbn [length].
        split; [rewrite Hs, Hs1, <- app_assoc; reflexivity|].
        split; [rewrite Hn, Hn1; lia|]. split; [lia|].
        split; [intros Hf; rewrite (Hful Hf); reflexivity|]. split.
        -- intros Hj. destruct (Hrej Hj) as (c' & Hc' & Hthrow).
           exists c'. split; [exact Hc'|]. rewrite <- Hview1. exact Hthrow.
        -- intros i r' Hi. destruct i as [|i]; cbn in Hi.
           ++ injection Hi as <-. exists c. split; [reflexivity|].
              rewrite Nat.add_0_r, Z.add_0_r. exact Hr.
           ++ destruct (Hrec i r' Hi) as (c' & Hc' & Hst).
              exists c'. split; [exact Hc'|].
              rewrite Hview1, Hn1 in Hst.
              replace (n + S i)%nat with (S n + i)%nat by lia.
              replace (nextId st + Z.of_nat (S i)) with (nextId st + 1 + Z.of_nat i)
                by lia.
              exact Hst.
Qed.


(** The keys of the records a batch appends, whatever [this.tasks]
    holds. *)
Lemma addTasks_loop_store cands :
  forall clock n st out st',
    addTasks_loop D clock n cands st = (out, st') ->
    exists recs,
      store st' = store st ++ recs /\
      nextId st' = nextId st + Z.of_nat (length recs) /\
      forall i r, recs !! i = Some r -> id r = Some (nextId st + Z.of_nat i).
Proof.
  induction cands as [|c rest IH]; intros clock n st out st' Hrun.
  - cbn in Hrun. injection Hrun as <- <-. exists [].
    rewrite app_nil_r, Z.add_0_r.
    split; [reflexivity|]. split; [reflexivity|]. intros i r [=].
  - assert (Hstop : forall s, store s = store st -> nextId s = nextId st ->
              exists recs, store s = store st ++ recs /\
                nextId s = nextId st + Z.of_nat (length recs) /\
                forall i r, recs !! i = Some r -> id r = Some (nextId st + Z.of_nat i)).
    { intros s Hs Hn. exists []. rewrite app_nil_r, Z.add_0_r.
      split; [exact Hs|]. split; [exact Hn|]. intros i r [=]. }
    cbn [addTasks_loop] in Hrun.
    destruct (get c (codes "title")) as [ti|];
      [|injection Hrun as <- <-; apply Hstop; reflexivity].
    destruct (get c (codes "time")) as [tm|];
      [|injection Hrun as <- <-; apply Hstop; reflexivity].
    destruct (get c (codes "description")) as [de|];
      [|injection Hrun as <- <-; apply Hstop; reflexivity].
    cbn zeta in Hrun.
    set (obj := mkTask None ti tm (or_default de (VJson (JStr []))) (VIso (clock n))) in *.
    set (st0 := with_heap (heap st ++ [obj]) st) in *.
    assert (Hobj : heap st0 !! length (heap st) = Some obj).
    { unfold st0. cbn [with_heap heap]. apply list_lookup_middle. reflexivity. }
    destruct (resolveConflicts_frame (length (heap st)) st0) as (_ & Hs0 & Hn0 & _ & _).
    cbn zeta in *.
    pose proof (resolveConflicts_resolution _ _ _ Hobj) as Hres.
    destruct (resolveConflicts D (length (heap st)) st0) as [[r|] st1] eqn:Hr;
      cbn [snd] in *;
      [|injection Hrun as <- <-; apply Hstop; assumption].
    assert (Hsave : exists obj1, id obj1 = None /\ heap st1 !! r = Some obj1).
    { destruct (resolution D (view st0) (time obj)); [| |discriminate Hres];
        injection Hres as -> ->.
      - exists obj. auto.
      - eexists. split; [|apply list_lookup_insert_eq; eapply lookup_lt_Some, Hobj].
        reflexivity. }
    destruct Hsave as (obj1 & Hid1 & Hobj1).
    unfold saveTask in Hrun. unfold loc in *. rewrite Hobj1, Hid1 in Hrun.
    destruct (IH _ _ _ _ _ Hrun) as (recs & Hs & Hn & Hids).
    cbn [store nextId] in Hs, Hn, Hids.
    change (store st0) with (store st) in Hs0. change (nextId st0) with (nextId st) in Hn0.
    rewrite Hs0, Hn0 in *.
    exists (set_id (nextId st) obj1 :: recs). cbn [length].
    split; [rewrite Hs, <- app_assoc; reflexivity|]. split; [lia|].
    intros i r' Hi. destruct i as [|i]; cbn in Hi.
    + injection Hi as <-. rewrite Z.add_0_r. reflexivity.
    + rewrite (Hids i r' Hi). f_equal. lia.
Qed.



(** *** The sorted view *)

Lemma Forall_sort_insert (P : task -> Prop) cmp x l :
  P x -> Forall P l -> Forall P (sort_insert cmp x l).
Proof.
  intros Hx. induction 1 as [|y l Hy Hl IH]; cbn [sort_insert].
  - constructor; [exact Hx|constructor].
  - destruct (not_after (cmp x y)); repeat constructor; assumption.
Qed.

Lemma Forall_sort (P : task -> Prop) l : Forall P l -> Forall P (sort D l).
Proof.
  induction 1 as [|x l Hx Hl IH]; [constructor|].
  apply Forall_sort_insert; assumption.
Qed.

Lemma has_valid_time_spec l :
  forallb (has_valid_time D) l = true -> Forall (valid_time D) l.
Proof.
  intros H. apply Forall_forall. intros r Hr.
  rewrite forallb_forall in H. specialize (H r (proj1 (list_elem_of_In _ _) Hr)).
  unfold has_valid_time in H. unfold valid_time.
  destruct (newDate D (time r)) as [[t|]|]; try discriminate. eauto.
Qed.

Lemma valid_dateOf r t :
  newDate D (time r) = Normal (Some t) -> dateOf D (time r) = Some t.
Proof. intros H. unfold dateOf. rewrite H. reflexivity. Qed.

(** With valid dates only the comparator is consistent, and every engine
    gives the stable sorted order. *)
Lemma sortWith_valid l :
  Forall (valid_time D) l -> sortWith (byTime D) l = sort D l.
Proof.
  intros Hv.
  apply (sortWith_stable (byTime D)
           (fun r => match dateOf D (time r) with Some t => t | None => 0 end)).
  intros a b Ha Hb. rewrite Forall_forall in Hv.
  destruct (Hv a Ha) as [ta Hta]. destruct (Hv b Hb) as [tb Htb].
  unfold byTime. rewrite (valid_dateOf _ _ Hta), (valid_dateOf _ _ Htb).
  reflexivity.
Qed.

Lemma earlier_of_le x z tx t' :
  newDate D (time x) = Normal (Some tx) -> newDate D (time z) = Normal (Some t') ->
  tx <= t' -> key_lt x z -> earlier D x z.
Proof.
  intros Hx Hz Hle (i & j & Hi & Hj & Hij).
  exists tx, t', i, j. repeat split; try assumption. lia.
Qed.

Lemma earlier_time_le y z ty :
  newDate D (time y) = Normal (Some ty) -> earlier D y z ->
  exists t', newDate D (time z) = Normal (Some t') /\ ty <= t'.
Proof.
  intros Hy (ta & tb & ia & ib & Ha & Hb & _ & _ & Hlt).
  rewrite Hy in Ha. injection Ha as Ha. subst ta.
  exists tb. split; [exact Hb|lia].
Qed.

Lemma sort_insert_sorted x l :
  valid_time D x ->
  Forall (fun y => valid_time D y /\ key_lt x y) l ->
  StronglySorted (earlier D) l ->
  StronglySorted (earlier D) (sort_insert (byTime D) x l).
Proof.
  intros [tx Hx] Hall Hs.
  induction l as [|y l IH]; cbn [sort_insert].
  - repeat constructor.
  - apply Forall_cons in Hall as [[[ty Hy] Hxy] Hall].
    apply StronglySorted_inv in Hs as [Hs Hyl].
    unfold byTime. rewrite (valid_dateOf _ _ Hx), (valid_dateOf _ _ Hy).
    cbn [not_after].
    destruct (Z.leb_spec (tx - ty) 0) as [Hle|Hgt].
    + constructor; [constructor; assumption|].
      constructor.
      * apply (earlier_of_le x y tx ty); auto. lia.
      * rewrite Forall_forall in Hyl, Hall |- *. intros z Hz.
        destruct (earlier_time_le y z ty Hy (Hyl z Hz)) as (t' & Ht' & Hle').
        apply (earlier_of_le x z tx t'); auto; [lia|]. apply Hall, Hz.
    + constructor; [apply IH; assumption|].
      apply Forall_sort_insert; [|exact Hyl].
      destruct Hxy as (i & j & Hi & Hj & _).
      exists ty, tx, j, i. repeat split; try assumption. left. lia.
Qed.

(** Sorting records that are in ascending key order, all with a valid
    date, orders them by time and, at equal times, by key. *)
Lemma sort_sorted l :
  StronglySorted key_lt l -> Forall (valid_time D) l ->
  StronglySorted (earlier D) (sort D l).
Proof.
  induction l as [|x l IH]; intros Hs Hv.
  - constructor.
  - apply StronglySorted_inv in Hs as [Hs Hx].
    apply Forall_cons in Hv as [Hvx Hv].
    unfold sort, insertion_sort. cbn [foldr].
    apply sort_insert_sorted; [exact Hvx| |apply IH; assumption].
    apply Forall_sort.
    rewrite Forall_forall in Hv, Hx |- *. intros y Hy. split; auto.
Qed.

Lemma StronglySorted_snoc {A} (R : A -> A -> Prop) l x :
  StronglySorted R l -> Forall (fun y => R y x) l ->
  StronglySorted R (l ++ [x]).
Proof.
  induction 1 as [|y l Hs IH Hy]; intros Hall; cbn [app].
  - repeat constructor.
  - apply Forall_cons in Hall as [Hyx Hall].
    constructor; [apply IH, Hall|].
    apply Forall_app. split; [exact Hy|]. repeat constructor. exact Hyx.
Qed.

(** Records appended under fresh keys keep the store in order. *)
Lemma store_ok_append st st' recs :
  store_ok st ->
  store st' = store st ++ recs ->
  nextId st' = nextId st + Z.of_nat (length recs) ->
  (forall i r, recs !! i = Some r -> id r = Some (nextId st + Z.of_nat i)) ->
  store_ok st'.
Proof.
  revert st st'. induction recs as [|r recs IH] using rev_ind;
    intros st st' [Hs Hb] Hstore Hn Hids.
  - rewrite app_nil_r in Hstore. cbn in Hn. rewrite Z.add_0_r in Hn.
    unfold store_ok. rewrite Hstore, Hn. auto.
  - rewrite length_app in Hn. cbn [length] in Hn.
    set (mid := mkScheduler (heap st) (tasks st) (store st ++ recs)
                            (nextId st + Z.of_nat (length recs)) (notices st)).
    assert (Hmid : store_ok mid).
    { apply (IH st mid); [split; assumption|reflexivity|reflexivity|].
      intros i r' Hi. apply Hids. apply lookup_app_l_Some. exact Hi. }
    destruct Hmid as [Hms Hmb]. cbn [mid store nextId] in Hms, Hmb.
    assert (Hr : id r = Some (nextId st + Z.of_nat (length recs))).
    { apply Hids. rewrite lookup_app_r by lia. rewrite Nat.sub_diag. reflexivity. }
    unfold store_ok. rewrite Hstore, Hn, app_assoc. split.
    + apply StronglySorted_snoc; [exact Hms|].
      eapply Forall_impl; [exact Hmb|].
      intros y (i & Hi & Hlt). exists i, (nextId st + Z.of_nat (length recs)). auto.
    + apply Forall_app. split.
      * eapply Forall_impl; [exact Hmb|].
        intros y (i & Hi & Hlt). exists i. split; [exact Hi|lia].
      * repeat constructor. eexists. split; [exact Hr|lia].
Qed.

Lemma addTasks_loop_store_ok cands clock n st out st' :
  addTasks_loop D clock n cands st = (out, st') ->
  store_ok st -> store_ok st'.
Proof.
  intros Hrun Hok.
  destruct (addTasks_loop_store cands clock n st out st' Hrun) as (recs & Hs & Hn & Hids).
  eapply store_ok_append; eassumption.
Qed.

(** C8, amended: after a batch that is fulfilled the list read by
    [loadTasks] holds exactly the stored records.  When every stored
    record has a valid date, the list is in non-decreasing order of time
    and tasks with equal times come in ascending order of id, the order of
    insertion.  A record without a valid date, such as one stored for a
    candidate without a time, makes the comparator inconsistent: the order
    is then up to the engine and need not follow the times. *)
Theorem C8_sorted_view clock cands st st' :
  store_ok st ->
  addTasksFromAI D clock cands st = (Fulfilled, st') ->
  view st' ≡ₚ store st' /\
  store_ok st' /\
  (Forall (valid_time D) (store st') ->
   StronglySorted (earlier D) (view st') /\ view st' = sort D (store st')).
Proof.
  intros Hok Hrun. unfold addTasksFromAI in Hrun.
  destruct (addTasks_loop D clock 0 cands st) as [o st1] eqn:Hloop.
  pose proof (addTasks_loop_store_ok _ _ _ _ _ _ Hloop Hok) as Hok1.
  destruct o; [|discriminate]. injection Hrun as <-.
  rewrite view_loadTasks, store_loadTasks.
  split; [apply sortWith_perm|]. split; [exact Hok1|].
  intros Hval. rewrite sortWith_valid by exact Hval.
  split; [apply sort_sorted; [apply Hok1|exact Hval]|reflexivity].
Qed.

(** *** handleTaskReorder *)

Lemma store_get_put_eq k r s :
  id r = Some k -> store_get k (store_put k r s) = Some r.
Proof.
  intros Hr. induction s as [|x s IH]; cbn [store_put store_get].
  - rewrite Hr, Z.eqb_refl. reflexivity.
  - destruct (id x) as [kx|] eqn:Hx.
    + destruct (Z.eqb_spec kx k) as [->|Hne].
      * cbn [store_get]. rewrite Hr, Z.eqb_refl. reflexivity.
      * destruct (k <? kx); cbn [store_get].
        -- rewrite Hr, Z.eqb_refl. reflexivity.
        -- rewrite Hx. destruct (Z.eqb_spec kx k); [contradiction|exact IH].
    + cbn [store_get]. rewrite Hx. exact IH.
Qed.

Lemma store_get_put_ne k k' r s :
  id r = Some k -> k' <> k ->
  store_get k' (store_put k r s) = store_get k' s.
Proof.
  intros Hr Hne. induction s as [|x s IH]; cbn [store_put store_get].
  - rewrite Hr. destruct (Z.eqb_spec k k'); [congruence|reflexivity].
  - destruct (id x) as [kx|] eqn:Hx.
    + destruct (Z.eqb_spec kx k) as [->|Hkx].
      * cbn [store_get]. rewrite Hr.
        destruct (Z.eqb_spec k k'); [congruence|reflexivity].
      * destruct (k <? kx); cbn [store_get]; rewrite ?Hr, ?Hx.
        -- destruct (Z.eqb_spec k k'); [congruence|reflexivity].
        -- rewrite IH. reflexivity.
    + cbn [store_get]. rewrite Hx. exact IH.
Qed.

Lemma find_task_ids (h h' : list task) k ts :
  id <$> h' = id <$> h -> find_task h' k ts = find_task h k ts.
Proof.
  intros Hids. induction ts as [|l ts IH]; [reflexivity|].
  cbn [find_task].
  assert (E1 : id <$> (h' !! l) = id <$> (h !! l))
    by (rewrite <- !list_lookup_fmap, Hids; reflexivity).
  destruct (h' !! l) as [t'|], (h !! l) as [t|]; cbn in E1;
    try discriminate; [|exact IH].
  injection E1 as ->. rewrite IH. reflexivity.
Qed.

Lemma find_task_Some (h : list task) k ts l :
  find_task h k ts = Some l ->
  exists t, h !! l = Some t /\ id t = Some k /\ l ∈ ts.
Proof.
  induction ts as [|l0 ts IH]; [discriminate|].
  cbn [find_task].
  assert (Hrest : find_task h k ts = Some l ->
            exists t, h !! l = Some t /\ id t = Some k /\ l ∈ l0 :: ts).
  { intros H. destruct (IH H) as (t & H1 & H2 & H3). exists t.
    split; [exact H1|]. split; [exact H2|right; exact H3]. }
  destruct (h !! l0) as [t|] eqn:Hl; [|exact Hrest].
  destruct (id t) as [kt|] eqn:Ht; [|exact Hrest].
  destruct (Z.eqb_spec kt k) as [->|]; [|exact Hrest].
  intros [= <-]. exists t. split; [exact Hl|]. split; [exact Ht|left].
Qed.

Lemma ids_set_time (h : list task) l t v :
  h !! l = Some t -> id <$> <[l := set_time v t]> h = id <$> h.
Proof.
  intros H. rewrite list_fmap_insert. cbn [set_time id].
  apply list_insert_id. rewrite list_lookup_fmap, H. reflexivity.
Qed.

(** One round of the loop for a task that was found. *)
Lemma reorder_step st l t k v :
  heap st !! l = Some t -> id t = Some k ->
  let st1 := updateTask l (with_heap (<[l := set_time v t]> (heap st)) st) in
  id <$> heap st1 = id <$> heap st /\ tasks st1 = tasks st /\
  store st1 = store_put k (set_time v t) (store st).
Proof.
  intros Hl Ht. unfold updateTask. cbn [with_heap heap tasks store nextId notices].
  rewrite list_lookup_insert_eq by (eapply lookup_lt_Some, Hl).
  cbn [set_time id]. rewrite Ht. cbn [heap tasks store].
  split; [|auto]. apply (ids_set_time _ _ _ _ Hl).
Qed.

Lemma reorder_loop_spec startTime order :
  forall i st,
    NoDup order ->
    let st' := reorder_loop tz startTime i order st in
    id <$> heap st' = id <$> heap st /\ tasks st' = tasks st /\
    (forall k, k ∉ order -> store_get k (store st') = store_get k (store st)) /\
    (forall j k,
       order !! j = Some k -> is_Some (find_task (heap st) k (tasks st)) ->
       exists r, store_get k (store st') = Some r /\ id r = Some k /\
         time r = VIso (setHours1 tz startTime
                          (getHours tz startTime + (i + Z.of_nat j)))).
Proof.
  induction order as [|k0 rest IH]; intros i st Hnd; cbn zeta.
  - cbn [reorder_loop]. repeat split; auto. intros j k Hj. discriminate.
  - apply NoDup_cons in Hnd as [Hk0 Hnd].
    cbn [reorder_loop].
    destruct (find_task (heap st) k0 (tasks st)) as [l|] eqn:Hfind.
    + destruct (find_task_Some _ _ _ _ Hfind) as (t & Hl & Ht & _).
      rewrite Hl.
      set (v := VIso (setHours1 tz startTime (getHours tz startTime + i))).
      destruct (reorder_step st l t k0 v Hl Ht) as (Hids & Htasks & Hstore).
      cbn zeta in *.
      set (st1 := updateTask l (with_heap (<[l := set_time v t]> (heap st)) st)) in *.
      destruct (IH (i + 1) st1 Hnd) as (Hids' & Htasks' & Hframe & Hpos).
      cbn zeta in *.
      split; [congruence|]. split; [congruence|]. split.
      * intros k Hk. apply not_elem_of_cons in Hk as [Hne Hk].
        rewrite Hframe, Hstore by assumption.
        apply store_get_put_ne; [exact Ht|exact Hne].
      * intros j k Hj Hsome. destruct j as [|j]; cbn in Hj.
        -- injection Hj as <-. exists (set_time v t).
           rewrite Hframe, Hstore by assumption.
           rewrite store_get_put_eq by exact Ht.
           split; [reflexivity|]. split; [exact Ht|].
           cbn [set_time time]. unfold v. rewrite Z.add_0_r. reflexivity.
        -- destruct (Hpos j k Hj) as (r & Hr & Hid & Htime).
           { rewrite Htasks, (find_task_ids _ _ _ _ Hids). exact Hsome. }
           exists r. split; [exact Hr|]. split; [exact Hid|].
           rewrite Htime.
           replace (i + 1 + Z.of_nat j) with (i + Z.of_nat (S j)) by lia.
           reflexivity.
    + destruct (IH (i + 1) st Hnd) as (Hids' & Htasks' & Hframe & Hpos).
      cbn zeta in *.
      split; [exact Hids'|]. split; [exact Htasks'|]. split.
      * intros k Hk. apply not_elem_of_cons in Hk as [_ Hk]. auto.
      * intros j k Hj Hsome. destruct j as [|j]; cbn in Hj.
        -- injection Hj as <-. rewrite Hfind in Hsome.
           destruct Hsome as [? [=]].
        -- destruct (Hpos j k Hj Hsome) as (r & Hr & Hid & Htime).
           exists r. split; [exact Hr|]. split; [exact Hid|].
           rewrite Htime.
           replace (i + 1 + Z.of_nat j) with (i + Z.of_nat (S j)) by lia.
           reflexivity.
Qed.

(** From 09:00 local time, [setHours(getHours() + i)] is the instant at
    which the local clocks read 9 + i hours on the same day, when 09:00
    is read back. *)
Lemma reorder_time now i :
  read_back tz (MakeDate (Day (LocalTime tz now)) (MakeTime 9 0 0 0)) ->
  setHours1 tz (setHours4 tz now 9 0 0 0)
            (getHours tz (setHours4 tz now 9 0 0 0) + i)
  = wall_clock tz (Day (LocalTime tz now)) (9 + i).
Proof.
  intros Hrb. unfold setHours1, getHours, setHours4, wall_clock.
  unfold read_back in Hrb. rewrite !Hrb.
  generalize (Day (LocalTime tz now)). intros d.
  unfold MakeDate, MakeTime, Day, HourFromTime, MinFromTime, SecFromTime,
    msFromTime, msPerDay, msPerHour, msPerMinute, msPerSecond.
  replace (d * 86400000 + (9 * 3600000 + 0 * 60000 + 0 * 1000 + 0))
    with (d * 86400000 + 32400000) by lia.
  assert (E1 : (d * 86400000 + 32400000) `div` 86400000 = d)
    by (rewrite Z.div_add_l by lia; rewrite (Z.div_small 32400000) by lia; lia).
  assert (E2 : ((d * 86400000 + 32400000) `div` 3600000) `mod` 24 = 9).
  { replace (d * 86400000 + 32400000) with ((d * 24 + 9) * 3600000) by lia.
    rewrite Z.div_mul by lia.
    rewrite Z.add_comm, Z.mod_add by lia. reflexivity. }
  assert (E3 : ((d * 86400000 + 32400000) `div` 60000) `mod` 60 = 0).
  { replace (d * 86400000 + 32400000) with ((d * 1440 + 540) * 60000) by lia.
    rewrite Z.div_mul by lia.
    replace (d * 1440 + 540) with ((d * 24 + 9) * 60) by lia.
    apply Z.mod_mul. lia. }
  assert (E4 : ((d * 86400000 + 32400000) `div` 1000) `mod` 60 = 0).
  { replace (d * 86400000 + 32400000) with ((d * 86400 + 32400) * 1000) by lia.
    rewrite Z.div_mul by lia.
    replace (d * 86400 + 32400) with ((d * 1440 + 540) * 60) by lia.
    apply Z.mod_mul. lia. }
  assert (E5 : (d * 86400000 + 32400000) `mod` 1000 = 0).
  { replace (d * 86400000 + 32400000) with ((d * 86400 + 32400) * 1000) by lia.
    apply Z.mod_mul. lia. }
  rewrite E1, E2, E3, E4, E5. reflexivity.
Qed.



(** *** The states that are reached *)

Lemma tasks_valid_loadTasks st : tasks_valid (loadTasks D st).
Proof.
  unfold tasks_valid, loadTasks. cbn [heap tasks].
  apply Forall_seq. intros j Hj. rewrite length_app. lia.
Qed.

Lemma store_ok_loadTasks st : store_ok st -> store_ok (loadTasks D st).
Proof. intros H. exact H. Qed.

Lemma Forall_store_put (P : task -> Prop) k r s :
  P r -> Forall P s -> Forall P (store_put k r s).
Proof.
  intros Hr. induction 1 as [|x s Hx Hs IH]; cbn [store_put].
  - repeat constructor. exact Hr.
  - destruct (id x) as [kx|]; [|constructor; assumption].
    destruct (kx =? k); [constructor; assumption|].
    destruct (k <? kx); repeat constructor; assumption.
Qed.

Lemma store_put_sorted k r s :
  id r = Some k ->
  Forall (fun x => is_Some (id x)) s ->
  StronglySorted key_lt s -> StronglySorted key_lt (store_put k r s).
Proof.
  intros Hr Hids Hs.
  induction s as [|x s IH]; cbn [store_put].
  - repeat constructor.
  - apply Forall_cons in Hids as [[kx Hkx] Hids].
    apply StronglySorted_inv in Hs as [Hs Hx].
    rewrite Hkx.
    destruct (Z.eqb_spec kx k) as [->|Hne].
    + constructor; [exact Hs|].
      eapply Forall_impl; [exact Hx|].
      intros y (i & j & Hi & Hj & Hij). exists k, j.
      rewrite Hkx in Hi. injection Hi as <-. auto.
    + destruct (Z.ltb_spec k kx) as [Hlt|Hge].
      * constructor; [constructor; assumption|].
        constructor; [exists k, kx; auto|].
        eapply Forall_impl; [exact Hx|].
        intros y (i & j & Hi & Hj & Hij). exists k, j.
        rewrite Hkx in Hi. injection Hi as <-.
        split; [exact Hr|]. split; [exact Hj|lia].
      * constructor; [apply IH; assumption|].
        apply Forall_store_put; [|exact Hx].
        exists kx, k. split; [exact Hkx|]. split; [exact Hr|lia].
Qed.

Lemma below_is_Some (n : Z) (s : list task) :
  Forall (fun r => exists i, id r = Some i /\ i < n) s ->
  Forall (fun x => is_Some (id x)) s.
Proof.
  intros H. eapply Forall_impl; [exact H|].
  intros x (i & Hi & _). rewrite Hi. eauto.
Qed.

(** [updateTask] on an object that carries a key keeps the store in
    order. *)
Lemma store_ok_updateTask l st t k :
  heap st !! l = Some t -> id t = Some k ->
  store_ok st -> store_ok (updateTask l st).
Proof.
  intros Hl Ht [Hs Hb]. unfold updateTask. rewrite Hl, Ht.
  split; cbn [store nextId].
  - apply store_put_sorted; [exact Ht|eapply below_is_Some, Hb|exact Hs].
  - apply Forall_store_put.
    + exists k. split; [exact Ht|lia].
    + eapply Forall_impl; [exact Hb|].
      intros y (i & Hi & Hlt). exists i. split; [exact Hi|lia].
Qed.

Lemma store_ok_with_heap h st : store_ok st -> store_ok (with_heap h st).
Proof. intros H. exact H. Qed.

Lemma reorder_loop_store_ok startTime order :
  forall i st, store_ok st -> store_ok (reorder_loop tz startTime i order st).
Proof.
  induction order as [|k0 rest IH]; intros i st Hok; cbn [reorder_loop].
  - exact Hok.
  - destruct (find_task (heap st) k0 (tasks st)) as [l|] eqn:Hfind; [|auto].
    destruct (find_task_Some _ _ _ _ Hfind) as (t & Hl & Ht & _).
    rewrite Hl. apply IH.
    eapply (store_ok_updateTask l _ (set_time _ t) k0).
    + cbn [with_heap heap]. apply list_lookup_insert_eq.
      eapply lookup_lt_Some, Hl.
    + exact Ht.
    + apply store_ok_with_heap, Hok.
Qed.

Lemma store_ok_deleteTask k st : store_ok st -> store_ok (deleteTask k st).
Proof.
  intros [Hs Hb]. unfold store_ok, deleteTask. cbn [store nextId].
  induction (store st) as [|x s IH]; [split; constructor|].
  apply StronglySorted_inv in Hs as [Hs Hx].
  apply Forall_cons in Hb as [Hbx Hb].
  destruct (IH Hs Hb) as [IHs IHb].
  rewrite filter_cons. destruct (decide (id x <> Some k)); [|auto].
  split; constructor; try assumption.
  rewrite Forall_forall in Hx |- *. intros y Hy.
  apply list_elem_of_filter in Hy as [_ Hy]. auto.
Qed.

Lemma NoDup_tasks_loadTasks st : NoDup (tasks (loadTasks D st)).
Proof. apply NoDup_seq. Qed.

Lemma tasks_valid_frame st st' :
  tasks st' = tasks st -> length (heap st') = length (heap st) ->
  tasks_valid st -> tasks_valid st'.
Proof. unfold tasks_valid. intros -> ->. auto. Qed.

(** Every state that is reached has valid and distinct references in
    [this.tasks] and a store in ascending key order below the key
    generator. *)
Lemma reachable_inv st :
  reachable tz D st -> tasks_valid st /\ store_ok st /\ NoDup (tasks st).
Proof.
  induction 1 as [|st now clock text _ (Hv & Hok & Hnd)
                  |st now order _ (Hv & Hok & Hnd)
                  |st _ (Hv & Hok & Hnd)|st taskId answer _ (Hv & Hok & Hnd)
                  |st taskId confirmed _ (Hv & Hok & Hnd)].
  - split; [apply tasks_valid_loadTasks|].
    split; [split; constructor|apply NoDup_tasks_loadTasks].
  - unfold analyzeMedia.
    destruct (parseTaskFromAI tz now text) as [[|c cs]|]; auto.
    unfold addTasksFromAI.
    destruct (addTasks_loop D clock 0 (c :: cs) st) as [o st1] eqn:Hloop.
    destruct (addTasks_loop_spec _ _ _ _ _ _ Hv Hloop) as (Ht1 & _ & Hv1 & _).
    pose proof (addTasks_loop_store_ok _ _ _ _ _ _ Hloop Hok) as Hok1.
    destruct o; cbn [snd].
    + split; [apply tasks_valid_loadTasks|].
      split; [exact Hok1|apply NoDup_tasks_loadTasks].
    + rewrite Ht1. auto.
  - unfold handleTaskReorder.
    split; [apply tasks_valid_loadTasks|].
    split; [|apply NoDup_tasks_loadTasks].
    apply store_ok_loadTasks, reorder_loop_store_ok, Hok.
  - unfold resolveAll.
    destruct (resolve_each_frame (tasks st) st) as (Ht & Hs & Hn & Hlen & _).
    cbn zeta in *.
    destruct (resolve_each D (tasks st) st) as [[] st1]; cbn [snd] in *.
    + split; [apply tasks_valid_loadTasks|].
      split; [|apply NoDup_tasks_loadTasks].
      unfold store_ok. cbn [loadTasks store nextId]. rewrite Hs, Hn. exact Hok.
    + split; [eapply tasks_valid_frame; eassumption|].
      split; [unfold store_ok; rewrite Hs, Hn; exact Hok|rewrite Ht; exact Hnd].
  - unfold editTask.
    destruct (find_task (heap st) taskId (tasks st)) as [l|] eqn:Hfind; [|auto].
    destruct (find_task_Some _ _ _ _ Hfind) as (t & Hl & Ht & _).
    rewrite Hl. destruct answer as [newTitle|]; [|auto].
    split; [apply tasks_valid_loadTasks|].
    split; [|apply NoDup_tasks_loadTasks].
    apply store_ok_loadTasks.
    eapply (store_ok_updateTask l _ (set_title _ t) taskId).
    + cbn [with_heap heap]. apply list_lookup_insert_eq.
      eapply lookup_lt_Some, Hl.
    + exact Ht.
    + apply store_ok_with_heap, Hok.
  - unfold deleteTaskHandler. destruct confirmed; [|auto].
    split; [apply tasks_valid_loadTasks|].
    split; [|apply NoDup_tasks_loadTasks].
    apply store_ok_loadTasks, store_ok_deleteTask, Hok.
Qed.

Lemma readable_loadTasks st :
  Forall (readable D) (store st) ->
  Forall (readable D) (store (loadTasks D st)) /\
  Forall (readable D) (view (loadTasks D st)).
Proof.
  intros H. split; [exact H|]. rewrite view_loadTasks_perm. exact H.
Qed.

Lemma stored_for_readable snapshot now k c r :
  stored_for D snapshot now k c r -> readable D r.
Proof.
  intros (_ & _ & _ & _ & Htime). unfold readable.
  destruct (resolution D snapshot (prop c (codes "time"))) eqn:Hres;
    [|rewrite Htime; discriminate|contradiction].
  rewrite Htime. apply (resolution_readable snapshot). rewrite Hres. discriminate.
Qed.

Lemma reorder_loop_readable startTime order :
  forall i st,
    Forall (readable D) (store st) ->
    Forall (readable D) (store (reorder_loop tz startTime i order st)).
Proof.
  induction order as [|k0 rest IH]; intros i st Hr; cbn [reorder_loop].
  - exact Hr.
  - destruct (find_task (heap st) k0 (tasks st)) as [l|] eqn:Hfind; [|auto].
    destruct (find_task_Some _ _ _ _ Hfind) as (t & Hl & Ht & _).
    rewrite Hl. apply IH.
    unfold updateTask. cbn [with_heap heap].
    rewrite list_lookup_insert_eq by (eapply lookup_lt_Some, Hl).
    cbn [set_time id]. rewrite Ht. cbn [store].
    apply Forall_store_put; [|exact Hr].
    unfold readable. cbn. discriminate.
Qed.

(** In every state that is reached [new Date] reads the time of every
    stored record and of every task of [this.tasks] without throwing: the
    comparator of [loadTasks] never throws. *)
Lemma reachable_readable st :
  reachable tz D st ->
  Forall (readable D) (store st) /\ Forall (readable D) (view st).
Proof.
  induction 1 as [|st now clock text Hreach (Hs & Hw)
                  |st now order _ (Hs & Hw)
                  |st _ (Hs & Hw)|st taskId answer _ (Hs & Hw)
                  |st taskId confirmed _ (Hs & Hw)].
  - apply readable_loadTasks. constructor.
  - unfold analyzeMedia.
    destruct (parseTaskFromAI tz now text) as [[|c cs]|]; auto.
    destruct (reachable_inv st Hreach) as (Hv & _ & _).
    destruct (addTasksFromAI D clock (c :: cs) st) as [o st1] eqn:Hrun. cbn [snd].
    pose proof Hrun as Hrun'. unfold addTasksFromAI in Hrun'.
    destruct (addTasks_loop D clock 0 (c :: cs) st) as [o' st2] eqn:Hloop.
    destruct (addTasks_loop_spec _ _ _ _ _ _ Hv Hloop)
      as (_ & Hview & _ & recs & Hstore & _ & _ & _ & _ & Hrec).
    assert (Hs2 : Forall (readable D) (store st2)).
    { rewrite Hstore. apply Forall_app. split; [exact Hs|].
      apply Forall_lookup_2. intros i r Hi.
      destruct (Hrec i r Hi) as (c' & _ & Hst).
      eapply stored_for_readable, Hst. }
    destruct o'; injection Hrun' as <- <-.
    + apply readable_loadTasks, Hs2.
    + split; [exact Hs2|rewrite Hview; exact Hw].
  - unfold handleTaskReorder. apply readable_loadTasks, reorder_loop_readable, Hs.
  - unfold resolveAll.
    destruct (resolve_each_frame (tasks st) st) as (_ & Hst & _).
    pose proof (resolve_each_readable (tasks st) st Hw) as Hw1.
    cbn zeta in *.
    destruct (resolve_each D (tasks st) st) as [[] st1]; cbn [snd] in *.
    + apply readable_loadTasks. rewrite Hst. exact Hs.
    + split; [rewrite Hst; exact Hs|exact Hw1].
  - unfold editTask.
    destruct (find_task (heap st) taskId (tasks st)) as [l|] eqn:Hfind; [|auto].
    destruct (find_task_Some _ _ _ _ Hfind) as (t & Hl & Ht & Hin).
    rewrite Hl. destruct answer as [newTitle|]; [|auto].
    apply readable_loadTasks.
    unfold updateTask. cbn [with_heap heap].
    rewrite list_lookup_insert_eq by (eapply lookup_lt_Some, Hl).
    cbn [set_title id]. rewrite Ht. cbn [store].
    apply Forall_store_put; [|exact Hs].
    assert (Hview : t ∈ view st).
    { unfold view. apply list_elem_of_omap. exists l. auto. }
    rewrite Forall_forall in Hw. apply (Hw t Hview).
  - unfold deleteTaskHandler. destruct confirmed; [|auto].
    apply readable_loadTasks. unfold deleteTask. cbn [store].
    apply Forall_forall. intros x Hx. apply list_elem_of_filter in Hx as [_ Hx].
    rewrite Forall_forall in Hs. apply Hs, Hx.
Qed.

End SchedulerFacts.

(** ** The theorems at concrete inputs *)

(** Breakfast at 09:00, the meeting at 11:00 and a call at 11:30 are in
    the list, in this order; a vet visit at 11:00 passes breakfast, stops
    at the meeting and is moved to 12:00, although the call is less than
    one hour from 12:00. *)
Lemma C1_first_conflict_wins_witness :
  exists obj',
    heap (snd (resolveConflicts example_dates 3%nat st_day)) !! 3%nat = Some obj' /\
    time obj' = VIso (1736506800000 + 3600000).
Proof.
  destruct (C1_first_conflict_wins example_dates st_day 3%nat vet eq_refl)
    as (H & _).
  destruct (H [breakfast] meeting [call] eq_refl) as (T & HT & Hmove & _).
  - constructor; [|constructor].
    exists (Some 1736506800000), (Some 1736499600000).
    split; [reflexivity|]. split; [reflexivity|].
    intros x y [= <-] [= <-]. vm_compute. discriminate.
  - exists 1736506800000, 1736506800000.
    split; [reflexivity|]. split; [reflexivity|]. reflexivity.
  - injection HT as <-. apply Hmove. vm_compute. discriminate.
Defined.

(** C1, counterexample: a task at the last instant a [Date] can hold is in
    the list and the new task has the same time: the two are in conflict,
    but the time of the new task is not set to one hour after; the call
    throws and the new task keeps its time.  A batch with such a
    candidate is rejected and nothing is stored. *)
Lemma C1_no_shift_at_end_of_range :
  heap st_end !! 2%nat = Some late /\
  newDate example_dates (time late) = Normal (Some maxTime) /\
  newDate example_dates (time last_day) = Normal (Some maxTime) /\
  resolveConflicts example_dates 2%nat st_end = (Throw, st_end) /\
  fst (addTasksFromAI example_dates clock0 [titled_at "Late" iso_end] st_end)
  = Rejected /\
  store (snd (addTasksFromAI example_dates clock0 [titled_at "Late" iso_end] st_end))
  = store st_end.
Proof. vm_compute. repeat split; reflexivity. Qed.

(** C3, counterexample: the object passed to [resolveConflicts] is the
    object it returns, and its [time] field has been overwritten: the vet
    visit built for 11:00 now reads 12:00. *)
Lemma C3_input_is_changed :
  heap st_meeting !! 1%nat = Some vet /\
  fst (resolveConflicts example_dates 1%nat st_meeting) = Normal 1%nat /\
  heap (snd (resolveConflicts example_dates 1%nat st_meeting)) !! 1%nat
    = Some (mkTask None (VJson (JStr (codes "Vet visit"))) (VIso 1736510400000)
                   (VJson (JStr [])) (VIso 1736500000000)) /\
  VIso 1736510400000 <> time vet.
Proof. vm_compute. repeat split; try reflexivity. discriminate. Qed.

(** The meeting, the other object of the heap, is untouched, while the
    vet visit is changed in place. *)
Lemma C3_resolve_mutates_in_place_witness :
  heap (snd (resolveConflicts example_dates 1%nat st_meeting)) !! 0%nat
  = heap st_meeting !! 0%nat.
Proof.
  destruct (C3_resolve_mutates_in_place example_dates st_meeting 1%nat vet eq_refl)
    as (_ & _ & _ & H & _).
  apply H. discriminate.
Defined.






(** Every stored time is valid, so the list after the batch is in
    order. *)
Lemma C8_sorted_view_witness :
  StronglySorted (earlier example_dates)
    (view (snd (addTasksFromAI example_dates clock0
                  [titled "a"; titled "b"] st_three))).
Proof.
  refine (proj1 (proj2 (proj2 (C8_sorted_view example_dates clock0
                   [titled "a"; titled "b"] st_three
                   (snd (addTasksFromAI example_dates clock0
                           [titled "a"; titled "b"] st_three)) _ _)) _)).
  - split.
    + vm_compute. repeat constructor; vm_compute; eauto 10.
    + vm_compute. repeat constructor; vm_compute; eexists; (split; [reflexivity|reflexivity]).
  - vm_compute. reflexivity.
  - apply has_valid_time_spec. vm_compute. reflexivity.
Defined.

(** C8, counterexample: a batch of a candidate for 11:00, a candidate
    without a time and a candidate for 09:00 is fulfilled.  The record
    without a time has no valid date, whatever the engine, so the list is
    not in non-decreasing order of time; sorted by insertion, it shows
    11:00 before 09:00. *)
Lemma C8_view_not_sorted :
  fst (addTasksFromAI example_dates clock0
         [titled_at "a" iso_11; timeless "b"; titled_at "c" iso_09] initial)
  = Fulfilled /\
  map (fun r => (id r, time r))
    (view (snd (addTasksFromAI example_dates clock0
                  [titled_at "a" iso_11; timeless "b"; titled_at "c" iso_09]
                  initial)))
  = [(Some 1, VJson (JStr iso_11)); (Some 2, VUndef); (Some 3, VJson (JStr iso_09))] /\
  dateOf example_dates (VJson (JStr iso_09)) = Some 1736499600000 /\
  dateOf example_dates (VJson (JStr iso_11)) = Some 1736506800000 /\
  forall E : engine,
    let st' := snd (addTasksFromAI example_dates clock0
                      [titled_at "a" iso_11; timeless "b"; titled_at "c" iso_09]
                      initial) in
    exists r, r ∈ view st' /\ time r = VUndef /\ ~ valid_time example_dates r /\
              ~ StronglySorted (earlier example_dates) (view st').
Proof.
  split; [vm_compute; reflexivity|]. split; [vm_compute; reflexivity|].
  split; [vm_compute; reflexivity|]. split; [vm_compute; reflexivity|].
  intros E st'.
  set (r := mkTask (Some 2) (VJson (JStr (codes "b"))) VUndef (VJson (JStr []))
                   (VIso 1736500000000)).
  assert (Hin : r ∈ view st').
  { unfold st', addTasksFromAI.
    assert (Hloop : addTasks_loop example_dates clock0 0
              [titled_at "a" iso_11; timeless "b"; titled_at "c" iso_09] initial
            = (Fulfilled, snd (addTasks_loop example_dates clock0 0
              [titled_at "a" iso_11; timeless "b"; titled_at "c" iso_09] initial)))
      by (vm_compute; reflexivity).
    rewrite Hloop. cbn [snd]. rewrite view_loadTasks_perm.
    vm_compute. right. left. }
  assert (Hinv : ~ valid_time example_dates r) by (intros [t Ht]; discriminate Ht).
  exists r. split; [exact Hin|]. split; [reflexivity|]. split; [exact Hinv|].
  intros Hs.
  assert (Hlen : length (view st') = 3%nat).
  { unfold st', addTasksFromAI.
    assert (Hloop : addTasks_loop example_dates clock0 0
              [titled_at "a" iso_11; timeless "b"; titled_at "c" iso_09] initial
            = (Fulfilled, snd (addTasks_loop example_dates clock0 0
              [titled_at "a" iso_11; timeless "b"; titled_at "c" iso_09] initial)))
      by (vm_compute; reflexivity).
    rewrite Hloop. cbn [snd]. rewrite view_loadTasks_perm. vm_compute. reflexivity. }
  apply list_elem_of_lookup_1 in Hin as [i Hi].
  destruct (view st') as [|x [|y [|z [|w l]]]]; try discriminate Hlen.
  apply StronglySorted_inv in Hs as [Hs Hx].
  apply StronglySorted_inv in Hs as [_ Hy].
  apply Forall_cons in Hx as [Hxy _]. apply Forall_cons in Hy as [Hyz _].
  destruct Hxy as (ta & tb & _ & _ & Ha & Hb & _).
  destruct Hyz as (tb' & tc & _ & _ & _ & Hc & _).
  apply Hinv.
  destruct i as [|[|[|i]]]; cbn in Hi; try discriminate Hi;
    injection Hi as <-; eexists; eassumption.
Qed.


(** * Further properties *)

(** ** The matcher against what a pattern can match *)


Lemma rep_loop_sound (step : jsstring -> caps -> (jsstring -> caps -> mres) -> mres)
    g a k :
  (forall s c j res, step s c j = Some res ->
     exists s' c', matches a s c s' c' /\ j s' c' = Some res) ->
  forall fuel s c res,
    rep_loop step g k fuel s c = Some res ->
    exists s' c', matches (Rep g a) s c s' c' /\ k s' c' = Some res.
Proof.
  intros Hstep. induction fuel as [|f IH]; intros s c res H; cbn [rep_loop] in H.
  - exists s, c. split; [constructor|exact H].
  - assert (Hmore : forall res,
      step s c (fun s1 c1 =>
        if (length s1 <? length s)%nat then rep_loop step g k f s1 c1 else None)
      = Some res ->
      exists s' c', matches (Rep g a) s c s' c' /\ k s' c' = Some res).
    { intros res' H1. apply Hstep in H1 as (s1 & c1 & Hm & Hj).
      destruct (Nat.ltb_spec (length s1) (length s)) as [Hlt|]; [|discriminate].
      apply IH in Hj as (s2 & c2 & Hm2 & Hk).
      exists s2, c2. split; [|exact Hk]. eapply m_rep_more; eassumption. }
    assert (Hstop : forall res, k s c = Some res ->
      exists s' c', matches (Rep g a) s c s' c' /\ k s' c' = Some res).
    { intros res' H1. exists s, c. split; [constructor|exact H1]. }
    destruct g; unfold or_else in H.
    + destruct (step s c _); [apply Hmore, H|apply Hstop, H].
    + destruct (k s c); [apply Hstop, H|apply Hmore, H].
Qed.

(** Every result of the matcher is a match of the pattern. *)
Lemma run_sound r :
  forall s c k res,
    run r s c k = Some res ->
    exists s' c', matches r s c s' c' /\ k s' c' = Some res.
Proof.
  induction r as [|p|a IHa b IHb|a IHa b IHb|g a IHa|n a IHa|a IHa|];
    intros s c k res H; cbn [run] in H.
  - exists s, c. split; [constructor|exact H].
  - destruct s as [|x s']; [discriminate|].
    destruct (p x) eqn:E; [|discriminate].
    exists s', c. split; [constructor; exact E|exact H].
  - apply IHa in H as (s1 & c1 & Ha & H).
    apply IHb in H as (s2 & c2 & Hb & H).
    exists s2, c2. split; [econstructor; eassumption|exact H].
  - unfold or_else in H. destruct (run a s c k) eqn:E.
    + injection H as <-. apply IHa in E as (s1 & c1 & Ha & E).
      exists s1, c1. split; [apply m_alt_l, Ha|exact E].
    + apply IHb in H as (s1 & c1 & Hb & H).
      exists s1, c1. split; [apply m_alt_r, Hb|exact H].
  - eapply rep_loop_sound; [|exact H]. intros s0 c0 j res0. apply IHa.
  - apply IHa in H as (s1 & c1 & Ha & H).
    eexists _, _. split; [apply m_grp, Ha|exact H].
  - destruct (run a s c _) as [[x c1]|] eqn:E; [|discriminate].
    apply IHa in E as (s1 & c1' & Ha & E). injection E as _ <-.
    exists s, c1'. split; [eapply m_ahead, Ha|exact H].
  - destruct s; [|discriminate]. exists [], c. split; [constructor|exact H].
Qed.

Lemma matches_suffix r s c s' c' : matches r s c s' c' -> suffix s' s.
Proof.
  induction 1; try reflexivity.
  - apply suffix_cons_r. reflexivity.
  - etransitivity; eassumption.
  - assumption.
  - assumption.
  - etransitivity; eassumption.
  - assumption.
Qed.

Lemma match_here_sound r s w m :
  match_here r s = Some (w, m) ->
  exists s', matches r s [] s' m /\ w = take (length s - length s') s.
Proof.
  unfold match_here. intros H.
  destruct (run r s [] _) as [[rest c]|] eqn:E; [|discriminate].
  injection H as <- <-.
  apply run_sound in E as (s' & c' & Hm & E). injection E as <- <-.
  exists s'. auto.
Qed.

Lemma exec_sound r s w m :
  exec r s = Some (w, m) ->
  exists s0 s', suffix s0 s /\ matches r s0 [] s' m /\
                w = take (length s0 - length s') s0.
Proof.
  induction s as [|x s IH]; cbn [exec].
  - destruct (match_here r []) as [[w' m']|] eqn:E; [|discriminate].
    intros [= <- <-]. apply match_here_sound in E as (s' & Hm & Hw).
    exists [], s'. auto.
  - destruct (match_here r (x :: s)) as [[w' m']|] eqn:E.
    + intros [= <- <-]. apply match_here_sound in E as (s' & Hm & Hw).
      exists (x :: s), s'. auto.
    + intros H. apply IH in H as (s0 & s' & Hs & Hm & Hw).
      exists s0, s'. split; [apply suffix_cons_r, Hs|auto].
Qed.


Lemma matches_groupless r s c s' c' :
  matches r s c s' c' -> groupless r = true -> c' = c.
Proof.
  induction 1; cbn [groupless]; intros Hg; try reflexivity;
    try (apply andb_true_iff in Hg as [Ha Hb]); auto; try discriminate.
  - rewrite IHmatches2, IHmatches1 by assumption. reflexivity.
  - rewrite IHmatches2, IHmatches1 by assumption. reflexivity.
Qed.

Lemma inv_seq a b s c s2 c2 :
  matches (Seq a b) s c s2 c2 ->
  exists s1 c1, matches a s c s1 c1 /\ matches b s1 c1 s2 c2.
Proof. inversion 1; subst. eauto. Qed.

Lemma inv_cls p s c s' c' :
  matches (Cls p) s c s' c' -> exists x, s = x :: s' /\ p x = true /\ c' = c.
Proof. inversion 1; subst. eauto. Qed.

Lemma inv_alt a b s c s' c' :
  matches (Alt a b) s c s' c' -> matches a s c s' c' \/ matches b s c s' c'.
Proof. inversion 1; subst; auto. Qed.

Lemma inv_eps s c s' c' : matches Eps s c s' c' -> s' = s /\ c' = c.
Proof. inversion 1; subst. auto. Qed.

Lemma inv_grp n a s c s' c' :
  matches (Grp n a) s c s' c' ->
  exists c1, matches a s c s' c1 /\
             c' = (n, take (length s - length s') s) :: c1.
Proof. inversion 1; subst. eauto. Qed.

Lemma inv_ahead a s c s' c' :
  matches (Ahead a) s c s' c' -> s' = s /\ exists s1, matches a s c s1 c'.
Proof. inversion 1; subst. eauto. Qed.

Lemma is_digit_bounds d : is_digit d = true -> 0 <= Z.of_N d - 48 <= 9.
Proof.
  unfold is_digit. intros H. apply andb_true_iff in H as [H1 H2].
  apply N.leb_le in H1, H2. lia.
Qed.

Lemma take_one {A} (x : A) t : take (length (x :: t) - length t) (x :: t) = [x].
Proof.
  cbn [length]. replace (S (length t) - length t)%nat with 1%nat by lia.
  reflexivity.
Qed.

Lemma take_two {A} (x y : A) t :
  take (length (x :: y :: t) - length t) (x :: y :: t) = [x; y].
Proof.
  cbn [length]. replace (S (S (length t)) - length t)%nat with 2%nat by lia.
  reflexivity.
Qed.

(** One or two digits, as [\d{1,2}] matches them. *)
Lemma digits_1_2 s c s' c' :
  matches (Seq digit (opt digit)) s c s' c' ->
  c' = c /\ exists d, is_digit d = true /\
    (take (length s - length s') s = [d] \/
     exists d2, is_digit d2 = true /\ take (length s - length s') s = [d; d2]).
Proof.
  intros H. split; [eapply matches_groupless; [exact H|reflexivity]|].
  apply inv_seq in H as (s1 & c1 & Hd & Ho).
  apply inv_cls in Hd as (d & -> & Hd & ->).
  exists d. split; [exact Hd|].
  apply inv_alt in Ho as [Ho|Ho].
  - apply inv_cls in Ho as (d2 & -> & Hd2 & _).
    right. exists d2. split; [exact Hd2|apply take_two].
  - apply inv_eps in Ho as [-> _]. left. apply take_one.
Qed.

Lemma digits_2 s c s' c' :
  matches (Seq digit digit) s c s' c' ->
  c' = c /\ exists a b, is_digit a = true /\ is_digit b = true /\
    take (length s - length s') s = [a; b].
Proof.
  intros H. split; [eapply matches_groupless; [exact H|reflexivity]|].
  apply inv_seq in H as (s1 & c1 & Ha & Hb).
  apply inv_cls in Ha as (a & -> & Ha & ->).
  apply inv_cls in Hb as (b & -> & Hb & _).
  exists a, b. split; [exact Ha|]. split; [exact Hb|apply take_two].
Qed.

(** The captures of a match of [timeRegex]: one or two digits for the
    hour, and two digits for the minute when there is one. *)
Lemma timeRegex_captures s0 s' m :
  matches timeRegex s0 [] s' m ->
  (exists d, is_digit d = true /\
     (capture 1 m = Some [d] \/
      exists d2, is_digit d2 = true /\ capture 1 m = Some [d; d2])) /\
  (capture 2 m = None \/
   exists a b, is_digit a = true /\ is_digit b = true /\
               capture 2 m = Some [a; b]).
Proof.
  unfold timeRegex. intros H.
  apply inv_seq in H as (s1 & c1 & H1 & H).
  apply inv_grp in H1 as (c1' & H1 & ->).
  apply digits_1_2 in H1 as (-> & d & Hd & Hcap1).
  apply inv_seq in H as (s2 & c2 & Hmin & H).
  apply inv_seq in H as (s3 & c3 & Hws & Hper).
  apply matches_groupless in Hws as ->; [|reflexivity].
  assert (Hend : forall n, n <> 3%nat -> capture n m = capture n c2).
  { intros n Hn. apply inv_alt in Hper as [Hper|Hper].
    - apply inv_grp in Hper as (c' & Hper & ->).
      apply matches_groupless in Hper as ->; [|reflexivity].
      cbn [capture]. destruct (Nat.eqb_spec n 3); [contradiction|reflexivity].
    - apply inv_eps in Hper as [_ ->]. reflexivity. }
  rewrite !Hend by discriminate. clear Hend Hper.
  apply inv_alt in Hmin as [Hmin|Hmin].
  - apply inv_seq in Hmin as (sx & cx & Hcolon & Hmin).
    apply inv_cls in Hcolon as (x & -> & _ & ->).
    apply inv_grp in Hmin as (c' & Hmin & ->).
    apply digits_2 in Hmin as (-> & a & b & Ha & Hb & Hcap2).
    cbn [capture Nat.eqb]. split.
    + exists d. split; [exact Hd|]. destruct Hcap1 as [->|(d2 & Hd2 & ->)]; eauto.
    + right. exists a, b. rewrite Hcap2. auto.
  - apply inv_eps in Hmin as [_ ->]. cbn [capture Nat.eqb]. split.
    + exists d. split; [exact Hd|]. destruct Hcap1 as [->|(d2 & Hd2 & ->)]; eauto.
    + left. reflexivity.
Qed.

Lemma parseTimeString_fields tz now s :
  parseTimeString tz now s
  = match time_fields s with
    | None => Normal (getDefaultTime tz now)
    | Some Throw => Throw
    | Some (Normal (h, m)) => Normal (setHours4 tz now h m 0 0)
    end.
Proof.
  unfold parseTimeString, time_fields.
  destruct (exec timeRegex s) as [[w m]|]; [|reflexivity].
  destruct (capture 1 m) as [h|]; [|reflexivity].
  destruct (parseInt h) as [hours|]; [|reflexivity].
  destruct (match capture 2 m with Some (c :: s0) => parseInt (c :: s0) | _ => Some 0 end);
    reflexivity.
Qed.

Lemma parseInt_1 d :
  is_digit d = true -> exists v, parseInt [d] = Some v /\ 0 <= v <= 9.
Proof.
  intros Hd. pose proof (is_digit_bounds d Hd).
  unfold parseInt. rewrite Hd. cbn [digits_value]. rewrite Hd.
  eexists. split; [reflexivity|]. lia.
Qed.

Lemma parseInt_2 a b :
  is_digit a = true -> is_digit b = true ->
  exists v, parseInt [a; b] = Some v /\ 0 <= v <= 99.
Proof.
  intros Ha Hb. pose proof (is_digit_bounds a Ha). pose proof (is_digit_bounds b Hb).
  unfold parseInt. rewrite Ha. cbn [digits_value]. rewrite Ha, Hb.
  eexists. split; [reflexivity|]. lia.
Qed.

(** The fields [parseTimeString] reads are numbers below 100. *)
Lemma time_fields_total s :
  time_fields s = None \/
  exists h m, time_fields s = Some (Normal (h, m)) /\ 0 <= h < 100 /\ 0 <= m < 100.
Proof.
  unfold time_fields.
  destruct (exec timeRegex s) as [[w m]|] eqn:E; [|left; reflexivity].
  right. apply exec_sound in E as (s0 & s' & _ & Hm & _).
  apply timeRegex_captures in Hm as ((d & Hd & Hc1) & Hc2).
  assert (Hh : exists hs v, capture 1 m = Some hs /\ parseInt hs = Some v /\ 0 <= v <= 99).
  { destruct Hc1 as [->|(d2 & Hd2 & ->)].
    - destruct (parseInt_1 d Hd) as (v & Hv & Hb). exists [d], v. split; [auto|]. split; [auto|lia].
    - destruct (parseInt_2 d d2 Hd Hd2) as (v & Hv & Hb). eauto. }
  destruct Hh as (hs & hours & -> & -> & Hhours).
  assert (Hmi : exists mi,
            match capture 2 m with
            | Some (c :: s1) => parseInt (c :: s1)
            | _ => Some 0
            end = Some mi /\ 0 <= mi <= 99).
  { destruct Hc2 as [->|(a & b & Ha & Hb & ->)].
    - exists 0. split; [reflexivity|lia].
    - apply parseInt_2; assumption. }
  destruct Hmi as (mi & -> & Hmi).
  eexists _, mi. split; [reflexivity|]. split; [|lia].
  destruct (jsstring_eqb _ _ && (hours <? 12)) eqn:E1.
  - apply andb_true_iff in E1 as [_ E1]. apply Z.ltb_lt in E1.
    destruct (jsstring_eqb _ _ && (hours + 12 =? 12)); lia.
  - destruct (jsstring_eqb _ _ && (hours =? 12)); lia.
Qed.

(** ** What [timeRegex] reads *)

Lemma or_else_l (a b : mres) : is_Some a -> or_else a b = a.
Proof. intros [r ->]. reflexivity. Qed.

(** A greedy star of a character class, before a continuation that always
    succeeds, takes every leading character of the class. *)
Lemma star_ws_greedy k fuel s c :
  (forall s1 c1, is_Some (k s1 c1)) ->
  (length s < fuel)%nat ->
  rep_loop (run ws) true k fuel s c = k (trim_start s) c.
Proof.
  intros Hk. revert s c.
  induction fuel as [|f IH]; intros s c Hlen; [lia|].
  cbn [rep_loop]. unfold ws at 1. cbn [run].
  destruct s as [|x s']; cbn [trim_start]; [reflexivity|].
  destruct (is_space x); [|reflexivity].
  cbn [length] in Hlen.
  replace (length s' <? length (x :: s'))%nat with true
    by (symmetry; apply Nat.ltb_lt; cbn [length]; lia).
  fold ws. rewrite IH by lia. apply or_else_l, Hk.
Qed.

Lemma run_period s c :
  run (opt (Grp 3 am_pm)) s c done =
  Some match period_head s with
       | [] => (s, c)
       | p => (drop 2 s, (3%nat, p) :: c)
       end.
Proof.
  unfold opt, am_pm, period_head, is_letter_i, done.
  cbn [run lit_i chr_i or_else].
  destruct s as [|x [|y r]]; cbn [or_else].
  - reflexivity.
  - destruct (_ || _); destruct (_ || _); reflexivity.
  - rewrite take_two. cbn [drop].
    destruct (N.eqb x (upper (cu "a")) || N.eqb x (lower (cu "a"))) eqn:Ea;
      destruct (N.eqb y (upper (cu "m")) || N.eqb y (lower (cu "m"))) eqn:Em;
      destruct (N.eqb x (upper (cu "p")) || N.eqb x (lower (cu "p"))) eqn:Ep;
      reflexivity.
Qed.

Lemma run_space_period s c :
  run (Seq (star ws) (opt (Grp 3 am_pm))) s c done =
  Some match period_head (trim_start s) with
       | [] => (trim_start s, c)
       | p => (drop 2 (trim_start s), (3%nat, p) :: c)
       end.
Proof.
  cbn [run star].
  rewrite (star_ws_greedy (fun s1 c1 => run (opt (Grp 3 am_pm)) s1 c1 done)).
  - apply run_period.
  - intros s1 c1. rewrite run_period. eauto.
  - lia.
Qed.

Lemma run_minutes k s c :
  (forall s1 c1, is_Some (k s1 c1)) ->
  run (opt (Seq (chr ":") (Grp 2 (Seq digit digit)))) s c k =
  match read_minutes s with
  | (Some m, r) => k r ((2%nat, m) :: c)
  | (None, r) => k r c
  end.
Proof.
  intros Hk. unfold opt, chr, digit, read_minutes. cbn [run].
  destruct s as [|x [|a [|b r]]]; cbn [or_else].
  - reflexivity.
  - destruct (N.eqb (cu ":") x); reflexivity.
  - destruct (N.eqb (cu ":") x); [destruct (is_digit a)|]; reflexivity.
  - rewrite N.eqb_sym.
    destruct (N.eqb x (cu ":")); cbn [andb or_else]; [|reflexivity].
    destruct (is_digit a); cbn [andb or_else]; [|reflexivity].
    destruct (is_digit b); cbn [andb or_else]; [|reflexivity].
    rewrite take_two. apply or_else_l, Hk.
Qed.

Lemma run_hours k d r :
  is_digit d = true ->
  (forall s1 c1, is_Some (k s1 c1)) ->
  run (Grp 1 (Seq digit (opt digit))) (d :: r) [] k =
  k (snd (read_hours (d :: r))) [(1%nat, fst (read_hours (d :: r)))].
Proof.
  intros Hd Hk. unfold opt, digit, read_hours. cbn [run]. rewrite Hd.
  destruct r as [|d2 r']; cbn [or_else fst snd].
  - rewrite take_one. reflexivity.
  - destruct (is_digit d2); cbn [or_else fst snd].
    + rewrite take_two. apply or_else_l, Hk.
    + rewrite take_one. reflexivity.
Qed.

(** On a text that starts with a digit [timeRegex] matches at once, with
    the captures of [time_captures]. *)
Lemma run_timeRegex d r :
  is_digit d = true ->
  exists rest, run timeRegex (d :: r) [] done = Some (rest, time_captures (d :: r)).
Proof.
  intros Hd. unfold timeRegex.
  change (run (Seq ?a ?b) ?s ?c ?k) with (run a s c (fun s1 c1 => run b s1 c1 k)).
  assert (Htail : forall s1 c1,
    is_Some (run (Seq (star ws) (opt (Grp 3 am_pm))) s1 c1 done)).
  { intros s1 c1. rewrite run_space_period. eauto. }
  assert (Hmid : forall s1 c1,
    is_Some (run (Seq (opt (Seq (chr ":") (Grp 2 (Seq digit digit))))
                      (Seq (star ws) (opt (Grp 3 am_pm)))) s1 c1 done)).
  { intros s1 c1.
    change (run (Seq ?a ?b) ?s ?c ?k) with (run a s c (fun s1 c1 => run b s1 c1 k)).
    rewrite run_minutes by exact Htail.
    destruct (read_minutes s1) as [[m|] r2]; apply Htail. }
  rewrite run_hours by assumption.
  change (run (Seq ?a ?b) ?s ?c ?k) with (run a s c (fun s1 c1 => run b s1 c1 k)).
  rewrite run_minutes by exact Htail.
  unfold time_captures.
  destruct (read_hours (d :: r)) as [hs r1]. cbn [fst snd].
  destruct (read_minutes r1) as [[m|] r2]; rewrite run_space_period;
    destruct (period_head (trim_start r2)); eauto.
Qed.

Lemma match_here_timeRegex_no_digit s :
  match s with
  | d :: _ => is_digit d = false
  | [] => True
  end ->
  match_here timeRegex s = None.
Proof.
  unfold match_here, timeRegex, digit. cbn [run].
  destruct s as [|d r]; [reflexivity|]. intros ->. reflexivity.
Qed.

Lemma exec_timeRegex s :
  match from_digit s with
  | None => exec timeRegex s = None
  | Some s0 => exists w, exec timeRegex s = Some (w, time_captures s0)
  end.
Proof.
  induction s as [|x s IH].
  - reflexivity.
  - cbn [from_digit exec]. destruct (is_digit x) eqn:Hx.
    + unfold match_here.
      destruct (run_timeRegex x s Hx) as [rest Hr]. unfold done in Hr.
      rewrite Hr. eauto.
    + rewrite match_here_timeRegex_no_digit by exact Hx. exact IH.
Qed.

Lemma from_digit_head s s0 :
  from_digit s = Some s0 -> exists d r, s0 = d :: r /\ is_digit d = true.
Proof.
  induction s as [|x s IH]; cbn [from_digit]; [discriminate|].
  destruct (is_digit x) eqn:Hx; [|exact IH].
  intros [= <-]. eauto.
Qed.

Lemma period_head_cases s :
  period_head s = [] \/
  exists x y, period_head s = [x; y] /\ take 2 s = [x; y].
Proof.
  unfold period_head. destruct s as [|x [|y r]]; auto.
  destruct (_ && _); eauto.
Qed.

(** The fields [parseTimeString] passes to [setHours] are those that
    [read_time] reads. *)
Lemma time_fields_read s :
  time_fields s = option_map Normal (read_time s).
Proof.
  unfold time_fields, read_time.
  pose proof (exec_timeRegex s) as H.
  destruct (from_digit s) as [s0|] eqn:Es; [|rewrite H; reflexivity].
  destruct H as [w ->].
  apply from_digit_head in Es as (d & r & -> & Hd).
  unfold time_captures, read_period.
  assert (Hhs : exists d' h', fst (read_hours (d :: r)) = d' :: h' /\
                             is_digit d' = true).
  { unfold read_hours. destruct r as [|d2 r']; [eauto|].
    destruct (is_digit d2); eauto. }
  destruct (read_hours (d :: r)) as [hs r1]. cbn [fst] in Hhs.
  destruct Hhs as (d' & h' & -> & Hd').
  assert (Hms : match fst (read_minutes r1) with
                | Some m => exists a b, m = [a; b] /\ is_digit a = true
                | None => True
                end).
  { unfold read_minutes. destruct r1 as [|x [|a [|b r']]]; cbn [fst]; auto.
    destruct (N.eqb x (cu ":")); cbn [andb fst]; auto.
    destruct (is_digit a) eqn:Ha; cbn [andb fst]; auto.
    destruct (is_digit b); cbn [fst]; eauto. }
  destruct (read_minutes r1) as [ms r2]. cbn [fst] in Hms.
  cbn [option_map]. f_equal.
  destruct (period_head_cases (trim_start r2)) as [->|(x & y & -> & _)];
    destruct ms as [m|]; try destruct Hms as (a & b & -> & Ha);
    cbn [capture Nat.eqb parseInt toLowerCase map]; rewrite ?Hd', ?Ha;
    reflexivity.
Qed.
Lemma trim_start_nil s : trim_start s = [] <-> Forall (fun c => is_space c = true) s.
Proof.
  induction s as [|c s IH]; cbn [trim_start].
  - split; [constructor|reflexivity].
  - destruct (is_space c) eqn:E.
    + rewrite IH. split; [intros H; constructor; assumption|].
      intros H. apply Forall_cons in H as [_ H]. exact H.
    + split; [discriminate|]. intros H. apply Forall_cons in H as [H _].
      congruence.
Qed.

Lemma trim_start_head s c r :
  trim_start s = c :: r -> is_space c = false.
Proof.
  induction s as [|x s IH]; cbn [trim_start]; [discriminate|].
  destruct (is_space x) eqn:E; [exact IH|]. intros [= <- _]. exact E.
Qed.

Lemma trim_start_suffix s : suffix (trim_start s) s.
Proof.
  induction s as [|x s IH]; cbn [trim_start]; [reflexivity|].
  destruct (is_space x); [|reflexivity].
  apply suffix_cons_r, IH.
Qed.

Lemma trim_start_idem s : trim_start (trim_start s) = trim_start s.
Proof.
  destruct (trim_start s) as [|c r] eqn:E; [reflexivity|].
  cbn [trim_start]. rewrite (trim_start_head _ _ _ E). reflexivity.
Qed.

(** Trimming twice changes nothing more. *)
Lemma trim_idem s : trim (trim s) = trim s.
Proof.
  unfold trim.
  set (a := trim_start s). set (b := trim_start (rev a)).
  assert (Hb : trim_start b = b) by apply trim_start_idem.
  assert (Hrb : trim_start (rev b) = rev b).
  { destruct b as [|y b'] eqn:Eb using rev_ind; [reflexivity|]. clear IHb'.
    rewrite rev_app_distr. cbn [rev app].
    apply trim_start_nonspace.
    destruct (trim_start_suffix (rev a)) as [k Hk]. fold b in Hk. rewrite Eb in Hk.
    destruct a as [|c r] eqn:Ea.
    - cbn in Hk. destruct k; cbn in Hk; [destruct b'|]; discriminate.
    - cbn [rev] in Hk. rewrite app_assoc in Hk.
      apply app_inj_tail in Hk as [_ <-].
      eapply trim_start_head. exact Ea. }
  rewrite Hrb, rev_involutive, Hb. reflexivity.
Qed.

Lemma suffix_elem_of {A} (x : A) l1 l2 : suffix l1 l2 -> x ∈ l1 -> x ∈ l2.
Proof. intros [k ->] H. apply elem_of_app. right. exact H. Qed.

(** A match of [taskRe] always sets the first group. *)
Lemma taskRe_captures s0 s' m :
  matches taskRe s0 [] s' m -> exists t, m = [(1%nat, t)].
Proof.
  unfold taskRe. intros H.
  apply inv_seq in H as (s1 & c1 & H1 & H).
  apply matches_groupless in H1 as ->; [|reflexivity].
  apply inv_seq in H as (s2 & c2 & H2 & H).
  apply matches_groupless in H2 as ->; [|reflexivity].
  apply inv_seq in H as (s3 & c3 & H3 & H).
  apply matches_groupless in H3 as ->; [|reflexivity].
  apply inv_seq in H as (s4 & c4 & H4 & H).
  apply inv_grp in H4 as (c' & H4 & ->).
  apply matches_groupless in H4 as ->; [|reflexivity].
  apply inv_ahead in H as (_ & sx & H).
  apply matches_groupless in H as ->; [|reflexivity].
  eauto.
Qed.

(** A match of [timeRe] sets the first group to a text that starts with
    a digit of the input. *)
Lemma timeRe_captures s0 s' m :
  matches timeRe s0 [] s' m ->
  exists d w, m = [(1%nat, d :: w)] /\ is_digit d = true /\ d ∈ s0.
Proof.
  unfold timeRe. intros H.
  apply inv_seq in H as (s1 & c1 & H1 & H).
  pose proof (matches_suffix _ _ _ _ _ H1) as Hs1.
  apply matches_groupless in H1 as ->; [|reflexivity].
  apply inv_seq in H as (s2 & c2 & H2 & H).
  pose proof (matches_suffix _ _ _ _ _ H2) as Hs2.
  apply matches_groupless in H2 as ->; [|reflexivity].
  apply inv_grp in H as (c' & H & ->).
  pose proof H as Hg.
  apply matches_groupless in Hg as ->; [|reflexivity].
  apply inv_seq in H as (s3 & c3 & Hd & Hrest).
  apply inv_cls in Hd as (d & -> & Hd & _).
  apply matches_suffix in Hrest as [k ->].
  exists d, (take (length (k ++ s') - length s') (k ++ s')).
  split; [|split; [exact Hd|]].
  - cbn [length]. rewrite length_app.
    replace (S (length k + length s') - length s')%nat
      with (S (length k + length s' - length s')) by lia.
    reflexivity.
  - eapply suffix_elem_of; [exact Hs1|].
    eapply suffix_elem_of; [exact Hs2|]. left.
Qed.


Lemma from_digit_None s :
  from_digit s = None <-> Forall (fun c => is_digit c = false) s.
Proof.
  induction s as [|x s IH]; cbn [from_digit].
  - split; [constructor|reflexivity].
  - destruct (is_digit x) eqn:Hx.
    + split; [discriminate|]. intros H. apply Forall_cons_1 in H as [H _]. congruence.
    + rewrite IH. split.
      * intros H. apply Forall_cons_2; assumption.
      * intros H. apply Forall_cons_1 in H as [_ H]. exact H.
Qed.

Lemma read_time_None s : read_time s = None <-> from_digit s = None.
Proof.
  unfold read_time. destruct (from_digit s) as [s0|]; [|tauto].
  destruct (read_hours s0) as [hs r1]. destruct (read_minutes r1) as [ms r2].
  split; discriminate.
Qed.

Lemma read_time_bounds s h m :
  read_time s = Some (h, m) -> 0 <= h < 100 /\ 0 <= m < 100.
Proof.
  intros H. pose proof (time_fields_read s) as E. rewrite H in E. cbn in E.
  destruct (time_fields_total s) as [E'|(h' & m' & E' & Hh & Hm)];
    rewrite E' in E; [discriminate|].
  injection E as -> ->. auto.
Qed.

Lemma parseTimeString_read tz now s :
  parseTimeString tz now s
  = Normal match read_time s with
           | None => getDefaultTime tz now
           | Some (h, m) => setHours4 tz now h m 0 0
           end.
Proof.
  rewrite parseTimeString_fields, time_fields_read.
  destruct (read_time s) as [[h m]|]; reflexivity.
Qed.

(** X1: [parseTimeString] returns a time for every string and never
    throws.  It reads the string from its first decimal digit on: one or
    two digits of hours, then a colon and two digits of minutes when they
    follow, then [am] or [pm], in either case, after any white space
    ([read_time]).  A string without a digit gives the default time; every
    other string gives today's date with the hour and the minute read,
    each below 100 and neither checked against 24 or 60. *)
Theorem X1_parseTimeString_total tz now s :
  parseTimeString tz now s
    = Normal match read_time s with
             | None => getDefaultTime tz now
             | Some (h, m) => setHours4 tz now h m 0 0
             end /\
  (read_time s = None <-> Forall (fun c => is_digit c = false) s) /\
  (forall h m, read_time s = Some (h, m) -> 0 <= h < 100 /\ 0 <= m < 100).
Proof.
  split; [apply parseTimeString_read|]. split.
  - rewrite read_time_None. apply from_digit_None.
  - apply read_time_bounds.
Qed.

Section LexicalFacts.

Variable tz : zone.

(** The lexical fallback never throws: it finds nothing, or it returns one
    candidate.  The title is the trimmed capture of the task pattern; the
    time is the default time when the time pattern finds nothing, and else
    today with the hour and the minute read from the capture of the time
    pattern. *)
Lemma lexical_rule_shape now s :
  (exec taskRe s = None -> lexical_rule tz now s = Normal None) /\
  (forall w m,
     exec taskRe s = Some (w, m) ->
     exists t0 ms,
       capture 1 m = Some t0 /\
       lexical_rule tz now s = Normal (Some [CLex (trim t0) ms]) /\
       (exec timeRe s = None -> ms = getDefaultTime tz now) /\
       (forall w' m',
          exec timeRe s = Some (w', m') ->
          exists ts h mi,
            capture 1 m' = Some ts /\ read_time ts = Some (h, mi) /\
            0 <= h < 100 /\ 0 <= mi < 100 /\
            ms = setHours4 tz now h mi 0 0)).
Proof.
  unfold lexical_rule. split; [intros ->; reflexivity|].
  intros w m Et. rewrite Et.
  apply exec_sound in Et as (s0 & s' & _ & Hm & _).
  apply taskRe_captures in Hm as [t ->]. cbn [capture Nat.eqb].
  exists t.
  destruct (exec timeRe s) as [[w' m']|] eqn:Etime.
  - apply exec_sound in Etime as (s1 & s1' & _ & Hm' & _).
    apply timeRe_captures in Hm' as (d & ts & -> & Hd & _).
    cbn [capture Nat.eqb]. rewrite parseTimeString_read.
    destruct (read_time (d :: ts)) as [[h mi]|] eqn:Er.
    + exists (setHours4 tz now h mi 0 0).
      split; [reflexivity|]. split; [reflexivity|]. split; [discriminate|].
      intros w2 m2 [= <- <-]. exists (d :: ts), h, mi.
      destruct (read_time_bounds _ _ _ Er) as [Hh Hmi].
      cbn [capture Nat.eqb]. auto.
    + apply read_time_None in Er. cbn [from_digit] in Er.
      rewrite Hd in Er. discriminate.
  - exists (getDefaultTime tz now).
    split; [reflexivity|]. split; [reflexivity|]. split; [reflexivity|].
    discriminate.
Qed.

Lemma exec_timeRe_no_digit s :
  Forall (fun x => is_digit x = false) s -> exec timeRe s = None.
Proof.
  intros H. destruct (exec timeRe s) as [[w m]|] eqn:E; [|reflexivity].
  apply exec_sound in E as (s0 & s' & Hs & Hm & _).
  apply timeRe_captures in Hm as (d & ts & _ & Hd & Hin).
  rewrite Forall_forall in H.
  rewrite (H d (suffix_elem_of _ _ _ Hs Hin)) in Hd. discriminate.
Qed.

End LexicalFacts.

(** ** Times of day, the store and the handlers *)

Lemma next_hour_local L :
  MakeDate (Day L) (MakeTime (HourFromTime L + 1) 0 0 0)
  = (L / msPerHour + 1) * msPerHour.
Proof.
  unfold MakeDate, MakeTime, Day, HourFromTime, msPerDay, msPerHour,
    msPerMinute, msPerSecond.
  replace 86400000 with (3600000 * 24) by reflexivity.
  rewrite <- Z.div_div by lia.
  pose proof (Z.div_mod (L `div` 3600000) 24). lia.
Qed.

(** X2: [getDefaultTime] is the instant at which the local clocks show
    the next full hour: the local time of now with the hour raised by one
    and minutes, seconds and milliseconds zero, which is later than the
    local time of now by at most one hour, read as a local time.  Where
    the zone reads that local time with the offset it has now, the result
    is later than now, by at most one hour; where the zone reads it back,
    the local clocks then show that full hour.  When the clocks are put
    back within the hour neither needs to hold ([new_york_samples]). *)
Theorem X2_getDefaultTime_next_hour (tz : zone) now :
  let next :=
    MakeDate (Day (LocalTime tz now))
             (MakeTime (HourFromTime (LocalTime tz now) + 1) 0 0 0) in
  getDefaultTime tz now = UTC tz next /\
  next mod msPerHour = 0 /\
  LocalTime tz now < next <= LocalTime tz now + msPerHour /\
  (localOffset tz next = utcOffset tz now ->
   now < getDefaultTime tz now <= now + msPerHour) /\
  (read_back tz next ->
   LocalTime tz (getDefaultTime tz now) = next).
Proof.
  intros next.
  assert (E : next = (LocalTime tz now / msPerHour + 1) * msPerHour)
    by apply next_hour_local.
  assert (Hdef : getDefaultTime tz now = UTC tz next) by reflexivity.
  assert (Hb : LocalTime tz now < next <= LocalTime tz now + msPerHour).
  { rewrite E. unfold msPerHour.
    pose proof (Z.div_mod (LocalTime tz now) 3600000).
    pose proof (Z.mod_pos_bound (LocalTime tz now) 3600000). lia. }
  split; [exact Hdef|]. split; [|split; [exact Hb|split]].
  - rewrite E. apply Z.mod_mul. unfold msPerHour. lia.
  - intros Hoff. rewrite Hdef. unfold UTC. rewrite Hoff.
    unfold LocalTime in Hb. lia.
  - intros Hrb. rewrite Hdef. exact Hrb.
Qed.

Lemma fields_24h_table :
  forallb (fun h => forallb (fun m =>
     match time_fields (decimal h ++ codes ":" ++ decimal2 m),
           time_fields (decimal2 h ++ codes ":" ++ decimal2 m) with
     | Some (Normal (h1, m1)), Some (Normal (h2, m2)) =>
         (h1 =? h) && (m1 =? m) && (h2 =? h) && (m2 =? m)
     | _, _ => false
     end) (seqZ 0 60)) (seqZ 0 24) = true.
Proof. vm_compute. reflexivity. Qed.

Lemma forallb_seqZ (f : Z -> bool) a n :
  forallb f (seqZ a n) = true -> forall k, a <= k < a + n -> f k = true.
Proof.
  intros H k Hk. rewrite forallb_forall in H. apply H.
  apply list_elem_of_In, elem_of_seqZ. exact Hk.
Qed.

(** X3: a time of day [h:mm] of the 24 hour clock, the hour written with
    one or two digits, is read as that hour and minute of today's local
    date: the result is the instant [setHours(h, m, 0, 0)] yields, the
    local time [h:mm] of the local day of now read in the zone of the
    host.  Where the zone reads that local time back (every time of a zone
    with a constant offset, and every time but the hour left out when the
    clocks are put forward), the local clocks show the day of now and
    [h:mm] at the result. *)
Theorem X3_parseTimeString_24h (tz : zone) now h m :
  0 <= h < 24 -> 0 <= m < 60 ->
  parseTimeString tz now (decimal h ++ codes ":" ++ decimal2 m)
    = Normal (setHours4 tz now h m 0 0) /\
  parseTimeString tz now (decimal2 h ++ codes ":" ++ decimal2 m)
    = Normal (setHours4 tz now h m 0 0) /\
  setHours4 tz now h m 0 0
    = UTC tz (MakeDate (Day (LocalTime tz now)) (MakeTime h m 0 0)) /\
  (read_back tz (MakeDate (Day (LocalTime tz now)) (MakeTime h m 0 0)) ->
   Day (LocalTime tz (setHours4 tz now h m 0 0)) = Day (LocalTime tz now) /\
   LocalTime tz (setHours4 tz now h m 0 0) mod msPerDay
     = h * msPerHour + m * msPerMinute).
Proof.
  intros Hh Hm.
  pose proof (forallb_seqZ _ _ _ (forallb_seqZ _ _ _ fields_24h_table h Hh) m Hm) as H.
  cbn beta in H. rewrite !parseTimeString_fields.
  destruct (time_fields (decimal h ++ codes ":" ++ decimal2 m)) as [[[h1 m1]|]|];
    try discriminate.
  destruct (time_fields (decimal2 h ++ codes ":" ++ decimal2 m)) as [[[h2 m2]|]|];
    try discriminate.
  apply andb_true_iff in H as [H H4]. apply andb_true_iff in H as [H H3].
  apply andb_true_iff in H as [H1 H2].
  apply Z.eqb_eq in H1, H2, H3, H4. subst.
  split; [reflexivity|]. split; [reflexivity|]. split; [reflexivity|].
  apply setHours4_local. unfold msPerHour, msPerMinute, msPerDay. lia.
Qed.

Lemma digit_of_is_digit n : 0 <= n <= 9 -> is_digit (digit_of n) = true.
Proof.
  intros H. unfold is_digit, digit_of.
  apply andb_true_iff. split; apply N.leb_le; lia.
Qed.

Lemma digit_of_value n : 0 <= n <= 9 -> Z.of_N (digit_of n) - 48 = n.
Proof. intros H. unfold digit_of. lia. Qed.

Lemma digits_value_decimal2 n :
  0 <= n < 100 -> digits_value 0 (decimal2 n) = n.
Proof.
  intros H. unfold decimal2. cbn [digits_value].
  assert (H1 : 0 <= n / 10 <= 9)
    by (pose proof (Z.div_mod n 10); pose proof (Z.mod_pos_bound n 10); lia).
  assert (H0 : 0 <= n mod 10 <= 9)
    by (pose proof (Z.mod_pos_bound n 10); lia).
  rewrite !digit_of_is_digit, !digit_of_value by assumption.
  pose proof (Z.div_mod n 10). lia.
Qed.

Lemma digits_value_decimal n :
  0 <= n < 100 -> digits_value 0 (decimal n) = n.
Proof.
  intros H. unfold decimal. destruct (Z.ltb_spec n 10).
  - cbn [digits_value].
    rewrite digit_of_is_digit, digit_of_value by lia. lia.
  - apply digits_value_decimal2. exact H.
Qed.

Lemma is_space_not_digit c :
  is_space c = true -> is_digit c = false /\ N.eqb c (cu ":") = false.
Proof.
  unfold is_space, is_digit. intros H.
  repeat (apply orb_true_iff in H as [H|H]);
    repeat (apply andb_true_iff in H as [H ?]);
    repeat match goal with
           | E : N.leb _ _ = true |- _ => apply N.leb_le in E
           | E : N.eqb _ _ = true |- _ => apply N.eqb_eq in E
           end.
  all: split; [apply andb_false_iff; rewrite !N.leb_gt; lia|].
  all: apply N.eqb_neq; change (cu ":") with 58%N; lia.
Qed.

Lemma is_letter_i_lower a x : is_letter_i a x = true -> lower x = lower (cu a).
Proof.
  unfold is_letter_i. intros H.
  apply orb_true_iff in H as [H|H]; apply N.eqb_eq in H; subst x.
  - unfold lower, upper, cu.
    destruct a as [[] [] [] [] [] [] [] []]; vm_compute; reflexivity.
  - unfold lower, cu.
    destruct a as [[] [] [] [] [] [] [] []]; vm_compute; reflexivity.
Qed.

Lemma is_letter_i_plain a x :
  is_letter_i a x = true ->
  (97 <= cu a <= 122)%N ->
  is_space x = false /\ is_digit x = false /\ N.eqb x (cu ":") = false.
Proof.
  unfold is_letter_i. intros H Ha.
  assert (Hx : (x = cu a - 32 \/ x = cu a)%N).
  { apply orb_true_iff in H as [H|H]; apply N.eqb_eq in H; subst x.
    - left. unfold upper.
      replace ((97 <=? cu a) && (cu a <=? 122))%N with true; [reflexivity|].
      symmetry. apply andb_true_iff. split; apply N.leb_le; lia.
    - right. unfold lower.
      replace ((65 <=? cu a) && (cu a <=? 90))%N with false; [reflexivity|].
      symmetry. apply andb_false_iff. right. apply N.leb_gt. lia. }
  assert (Hr : (65 <= x <= 122)%N) by lia.
  split; [|split].
  - unfold is_space.
    repeat (apply orb_false_iff; split);
      try (apply andb_false_iff; rewrite !N.leb_gt; lia);
      apply N.eqb_neq; lia.
  - unfold is_digit. apply andb_false_iff. rewrite !N.leb_gt. lia.
  - apply N.eqb_neq. change (cu ":") with 58%N. lia.
Qed.

Lemma trim_start_spaces sp s :
  Forall (fun c => is_space c = true) sp -> trim_start (sp ++ s) = trim_start s.
Proof.
  induction 1 as [|c sp Hc _ IH]; [reflexivity|].
  cbn [app trim_start]. rewrite Hc. exact IH.
Qed.

(** The period [x y] after white space. *)
Lemma read_period_after_spaces sp x y rest a :
  Forall (fun c => is_space c = true) sp ->
  (a = "a"%char \/ a = "p"%char) ->
  is_letter_i a x = true -> is_letter_i "m" y = true ->
  read_period (sp ++ x :: y :: rest) = [cu a; cu "m"].
Proof.
  intros Hsp Ha Hx Hy. unfold read_period.
  rewrite trim_start_spaces by exact Hsp.
  assert (Hplain : is_space x = false).
  { eapply is_letter_i_plain; [exact Hx|]. destruct Ha as [->| ->]; vm_compute;
      split; discriminate. }
  cbn [trim_start]. rewrite Hplain. unfold period_head. rewrite Hy.
  replace (is_letter_i "a" x || is_letter_i "p" x) with true
    by (destruct Ha as [->| ->]; rewrite Hx; [reflexivity|apply eq_sym, orb_true_r]).
  cbn [andb toLowerCase map].
  rewrite (is_letter_i_lower _ _ Hx), (is_letter_i_lower _ _ Hy).
  destruct Ha as [->| ->]; reflexivity.
Qed.

(** What [read_time] reads of [h:mm] and of [h] before a tail that starts
    with neither a digit nor a colon. *)
Lemma read_time_hm h m tail :
  0 <= h < 100 -> 0 <= m < 100 ->
  read_time (decimal h ++ codes ":" ++ decimal2 m ++ tail)
  = let period := read_period tail in
    let hours1 :=
      if jsstring_eqb period (codes "pm") && (h <? 12) then h + 12 else h in
    Some (if jsstring_eqb period (codes "am") && (hours1 =? 12) then 0 else hours1,
          m).
Proof.
  intros Hh Hm.
  pose proof (digits_value_decimal h Hh) as Eh.
  pose proof (digits_value_decimal2 m Hm) as Em.
  assert (Hm1 : 0 <= m / 10 <= 9)
    by (pose proof (Z.div_mod m 10); pose proof (Z.mod_pos_bound m 10); lia).
  assert (Hm0 : 0 <= m mod 10 <= 9)
    by (pose proof (Z.mod_pos_bound m 10); lia).
  assert (Hh1 : 0 <= h / 10 <= 9)
    by (pose proof (Z.div_mod h 10); pose proof (Z.mod_pos_bound h 10); lia).
  assert (Hh0 : 0 <= h mod 10 <= 9)
    by (pose proof (Z.mod_pos_bound h 10); lia).
  unfold read_time. revert Eh Em. unfold decimal, decimal2.
  destruct (Z.ltb_spec h 10); intros Eh Em; cbn [app codes from_digit].
  - rewrite digit_of_is_digit by lia. cbn [read_hours].
    change (is_digit (N_of_ascii ":")) with false. cbv iota.
    cbn [read_minutes]. change (N_of_ascii ":" =? cu ":")%N with true.
    rewrite !digit_of_is_digit by assumption. cbn [andb]. cbv iota beta zeta.
    rewrite Eh, Em. reflexivity.
  - rewrite digit_of_is_digit by assumption. cbn [read_hours].
    rewrite digit_of_is_digit by assumption. cbv iota.
    cbn [read_minutes]. change (N_of_ascii ":" =? cu ":")%N with true.
    rewrite !digit_of_is_digit by assumption. cbn [andb]. cbv iota beta zeta.
    rewrite Eh, Em. reflexivity.
Qed.

Lemma read_minutes_none c tail :
  N.eqb c (cu ":") = false -> read_minutes (c :: tail) = (None, c :: tail).
Proof.
  intros Hc. unfold read_minutes. destruct tail as [|a [|b r]]; try reflexivity.
  rewrite Hc. reflexivity.
Qed.

Lemma read_time_h h c tail :
  0 <= h < 100 -> is_digit c = false -> N.eqb c (cu ":") = false ->
  read_time (decimal h ++ c :: tail)
  = let period := read_period (c :: tail) in
    let hours1 :=
      if jsstring_eqb period (codes "pm") && (h <? 12) then h + 12 else h in
    Some (if jsstring_eqb period (codes "am") && (hours1 =? 12) then 0 else hours1,
          0).
Proof.
  intros Hh Hd Hc.
  pose proof (digits_value_decimal h Hh) as Eh.
  assert (Hh1 : 0 <= h / 10 <= 9)
    by (pose proof (Z.div_mod h 10); pose proof (Z.mod_pos_bound h 10); lia).
  assert (Hh0 : 0 <= h mod 10 <= 9)
    by (pose proof (Z.mod_pos_bound h 10); lia).
  unfold read_time. revert Eh. unfold decimal.
  destruct (Z.ltb_spec h 10); intros Eh; cbn [app from_digit].
  - rewrite digit_of_is_digit by lia. cbn [read_hours]. rewrite Hd.
    rewrite read_minutes_none by exact Hc. cbv iota beta zeta.
    rewrite Eh. reflexivity.
  - rewrite digit_of_is_digit by assumption. cbn [read_hours].
    rewrite digit_of_is_digit by assumption. cbv iota.
    rewrite read_minutes_none by exact Hc. cbv iota beta zeta.
    rewrite Eh. reflexivity.
Qed.

(** The tail of a time of the 12 hour clock starts with neither a digit
    nor a colon. *)
Lemma period_tail_head sp x y rest a :
  Forall (fun c => is_space c = true) sp ->
  (a = "a"%char \/ a = "p"%char) ->
  is_letter_i a x = true ->
  exists c tail, sp ++ x :: y :: rest = c :: tail /\
                 is_digit c = false /\ N.eqb c (cu ":") = false.
Proof.
  intros Hsp Ha Hx. destruct Hsp as [|c sp Hc _].
  - exists x, (y :: rest). split; [reflexivity|].
    eapply is_letter_i_plain; [exact Hx|].
    destruct Ha as [->| ->]; vm_compute; split; discriminate.
  - exists c, (sp ++ x :: y :: rest). split; [reflexivity|].
    apply is_space_not_digit, Hc.
Qed.

(** X4: a time of the 12 hour clock, [h:mm] or [h] followed by [am] or
    [pm]: with [am] the hour 12 is read as 0 and the others as they stand,
    with [pm] the hours below 12 gain 12 and 12 stays.  Each letter of the
    period is matched in either case, any white space may stand before
    it, and what follows it is not looked at; the minutes are 0 when none
    are written. *)
Theorem X4_parseTimeString_12h (tz : zone) now h m sp x y rest :
  1 <= h <= 12 -> 0 <= m < 60 ->
  Forall (fun c => is_space c = true) sp ->
  is_letter_i "m" y = true ->
  (is_letter_i "a" x = true ->
   parseTimeString tz now
     (decimal h ++ codes ":" ++ decimal2 m ++ sp ++ x :: y :: rest)
     = Normal (setHours4 tz now (h mod 12) m 0 0) /\
   parseTimeString tz now (decimal h ++ sp ++ x :: y :: rest)
     = Normal (setHours4 tz now (h mod 12) 0 0 0)) /\
  (is_letter_i "p" x = true ->
   parseTimeString tz now
     (decimal h ++ codes ":" ++ decimal2 m ++ sp ++ x :: y :: rest)
     = Normal (setHours4 tz now (h mod 12 + 12) m 0 0) /\
   parseTimeString tz now (decimal h ++ sp ++ x :: y :: rest)
     = Normal (setHours4 tz now (h mod 12 + 12) 0 0 0)).
Proof.
  intros Hh Hm Hsp Hy.
  assert (Ham : forall hh, 1 <= hh <= 12 ->
    (if jsstring_eqb (codes "am") (codes "am")
        && ((if jsstring_eqb (codes "am") (codes "pm") && (hh <? 12)
             then hh + 12 else hh) =? 12)
     then 0
     else if jsstring_eqb (codes "am") (codes "pm") && (hh <? 12)
          then hh + 12 else hh) = hh mod 12).
  { intros hh Hhh.
    change (jsstring_eqb (codes "am") (codes "pm")) with false.
    change (jsstring_eqb (codes "am") (codes "am")) with true.
    cbn [andb]. destruct (Z.eqb_spec hh 12) as [->|Hne]; [reflexivity|].
    symmetry. apply Z.mod_small. lia. }
  assert (Hpm : forall hh, 1 <= hh <= 12 ->
    (if jsstring_eqb (codes "pm") (codes "am")
        && ((if jsstring_eqb (codes "pm") (codes "pm") && (hh <? 12)
             then hh + 12 else hh) =? 12)
     then 0
     else if jsstring_eqb (codes "pm") (codes "pm") && (hh <? 12)
          then hh + 12 else hh) = hh mod 12 + 12).
  { intros hh Hhh.
    change (jsstring_eqb (codes "pm") (codes "am")) with false.
    change (jsstring_eqb (codes "pm") (codes "pm")) with true.
    cbn [andb]. destruct (Z.ltb_spec hh 12).
    - rewrite Z.mod_small by lia. reflexivity.
    - replace hh with 12 by lia. reflexivity. }
  split; intros Hx.
  - destruct (period_tail_head sp x y rest "a" Hsp (or_introl eq_refl) Hx)
      as (c & tail & E & Hd & Hc).
    pose proof (read_period_after_spaces sp x y rest "a" Hsp
                  (or_introl eq_refl) Hx Hy) as Ep.
    rewrite !parseTimeString_read.
    rewrite read_time_hm by lia. rewrite E, read_time_h by (assumption || lia).
    rewrite <- E, Ep. cbv zeta.
    change [cu "a"; cu "m"] with (codes "am").
    rewrite Ham by exact Hh. split; reflexivity.
  - destruct (period_tail_head sp x y rest "p" Hsp (or_intror eq_refl) Hx)
      as (c & tail & E & Hd & Hc).
    pose proof (read_period_after_spaces sp x y rest "p" Hsp
                  (or_intror eq_refl) Hx Hy) as Ep.
    rewrite !parseTimeString_read.
    rewrite read_time_hm by lia. rewrite E, read_time_h by (assumption || lia).
    rewrite <- E, Ep. cbv zeta.
    change [cu "p"; cu "m"] with (codes "pm").
    rewrite Hpm by exact Hh. split; reflexivity.
Qed.
Lemma store_get_snoc_new k r (s : list task) :
  id r = Some k ->
  Forall (fun x => exists i, id x = Some i /\ i < k) s ->
  store_get k (s ++ [r]) = Some r.
Proof.
  intros Hr. induction 1 as [|x s (i & Hi & Hlt) _ IH]; cbn [app store_get].
  - rewrite Hr, Z.eqb_refl. reflexivity.
  - rewrite Hi. destruct (Z.eqb_spec i k); [lia|exact IH].
Qed.

Lemma store_get_snoc_other k k' r (s : list task) :
  id r = Some k -> k' <> k -> store_get k' (s ++ [r]) = store_get k' s.
Proof.
  intros Hr Hne. induction s as [|x s IH]; cbn [app store_get].
  - rewrite Hr. destruct (Z.eqb_spec k k'); [congruence|reflexivity].
  - destruct (id x) as [i|]; [|exact IH].
    destruct (i =? k'); [reflexivity|exact IH].
Qed.

Lemma store_ok_snoc st r :
  store_ok st ->
  store_ok (mkScheduler (heap st) (tasks st) (store st ++ [set_id (nextId st) r])
                        (nextId st + 1) (notices st)).
Proof.
  intros [Hs Hb]. split; cbn [store nextId].
  - apply StronglySorted_snoc; [exact Hs|].
    eapply Forall_impl; [exact Hb|].
    intros y (i & Hi & Hlt). exists i, (nextId st). auto.
  - apply Forall_app. split.
    + eapply Forall_impl; [exact Hb|].
      intros y (i & Hi & Hlt). exists i. split; [exact Hi|lia].
    + repeat constructor. exists (nextId st). split; [reflexivity|lia].
Qed.

(** X5: [saveTask] of an object without id resolves to the next key of
    the store; the record stored under that key is the object with this
    id, every other key reads as before, the store has one record more,
    and the object in memory is not changed. *)
Theorem X5_saveTask_round_trip st l obj :
  store_ok st -> heap st !! l = Some obj -> id obj = None ->
  exists st',
    saveTask l st = (Normal (nextId st), st') /\
    store_get (nextId st) (store st') = Some (set_id (nextId st) obj) /\
    (forall k, k <> nextId st -> store_get k (store st') = store_get k (store st)) /\
    length (store st') = S (length (store st)) /\
    heap st' = heap st /\ tasks st' = tasks st /\
    nextId st' = nextId st + 1 /\ store_ok st'.
Proof.
  intros Hok Hl Hid. unfold saveTask. rewrite Hl, Hid.
  eexists. split; [reflexivity|]. cbn [store heap tasks nextId].
  split; [|split; [|split; [|split; [|split; [|split]]]]]; try reflexivity.
  - apply store_get_snoc_new; [reflexivity|]. apply Hok.
  - intros k Hk. apply (store_get_snoc_other (nextId st)); [reflexivity|exact Hk].
  - rewrite length_app. cbn. lia.
  - apply store_ok_snoc, Hok.
Qed.

Lemma store_put_length k r (s : list task) :
  StronglySorted key_lt s -> Forall (fun x => is_Some (id x)) s ->
  length (store_put k r s)
  = match store_get k s with Some _ => length s | None => S (length s) end.
Proof.
  intros Hs Hids. induction s as [|x s IH]; cbn [store_put store_get].
  - reflexivity.
  - apply StronglySorted_inv in Hs as [Hs Hx].
    apply Forall_cons in Hids as [[kx Hkx] Hids].
    rewrite Hkx. destruct (Z.eqb_spec kx k) as [->|Hne]; [reflexivity|].
    destruct (Z.ltb_spec k kx) as [Hlt|Hge].
    + assert (Hnone : store_get k s = None).
      { clear IH Hs Hids. induction s as [|y s IHs]; [reflexivity|].
        apply Forall_cons in Hx as [(i & j & Hi & Hj & Hij) Hx].
        cbn [store_get]. rewrite Hj. rewrite Hkx in Hi. injection Hi as <-.
        destruct (Z.eqb_spec j k); [lia|]. apply IHs, Hx. }
      rewrite Hnone. reflexivity.
    + cbn [length]. rewrite IH by assumption.
      destruct (store_get k s); reflexivity.
Qed.

(** X6: [updateTask] of an object with the id [k] replaces the record of
    the key [k], or adds one when the key is absent; every other key
    reads as before, the store grows by no more than that record, and
    the key generator stays above every stored key. *)
Theorem X6_updateTask_upsert st l obj k :
  store_ok st -> heap st !! l = Some obj -> id obj = Some k ->
  let st' := updateTask l st in
  store_get k (store st') = Some obj /\
  (forall k', k' <> k -> store_get k' (store st') = store_get k' (store st)) /\
  length (store st')
    = match store_get k (store st) with
      | Some _ => length (store st)
      | None => S (length (store st))
      end /\
  k < nextId st' /\ nextId st <= nextId st' /\
  heap st' = heap st /\ tasks st' = tasks st /\ store_ok st'.
Proof.
  intros Hok Hl Hid st'.
  pose proof (store_ok_updateTask l st obj k Hl Hid Hok) as Hok'.
  unfold st', updateTask in *. rewrite Hl, Hid in *. cbn [store heap tasks nextId].
  split; [apply store_get_put_eq, Hid|].
  split; [intros k' Hk'; apply store_get_put_ne; assumption|].
  split; [apply store_put_length; [apply Hok|eapply below_is_Some, Hok]|].
  split; [lia|]. split; [lia|]. split; [reflexivity|]. split; [reflexivity|].
  exact Hok'.
Qed.

Lemma store_get_filter_ne k k' (s : list task) :
  k' <> k ->
  store_get k' (filter (fun x => id x <> Some k) s) = store_get k' s.
Proof.
  intros Hne. induction s as [|x s IH]; [reflexivity|].
  rewrite filter_cons. destruct (decide (id x <> Some k)) as [Hx|Hx].
  - cbn [store_get]. rewrite IH. reflexivity.
  - cbn [store_get]. destruct (id x) as [i|] eqn:Hi.
    + destruct (Z.eqb_spec i k') as [->|]; [|exact IH].
      exfalso. apply Hx. congruence.
    + exact IH.
Qed.

Lemma store_get_filter_eq k (s : list task) :
  store_get k (filter (fun x => id x <> Some k) s) = None.
Proof.
  induction s as [|x s IH]; [reflexivity|].
  rewrite filter_cons. destruct (decide (id x <> Some k)) as [Hx|Hx]; [|exact IH].
  cbn [store_get]. destruct (id x) as [i|]; [|exact IH].
  destruct (Z.eqb_spec i k) as [->|]; [contradiction|exact IH].
Qed.

Lemma filter_absent k (s : list task) :
  store_get k s = None -> filter (fun x => id x <> Some k) s = s.
Proof.
  induction s as [|x s IH]; [reflexivity|]. cbn [store_get]. intros H.
  rewrite filter_cons. destruct (decide (id x <> Some k)) as [Hx|Hx].
  - f_equal. apply IH. destruct (id x) as [i|]; [|exact H].
    destruct (i =? k); [discriminate|exact H].
  - exfalso. apply Hx. intros E. rewrite E, Z.eqb_refl in H. discriminate.
Qed.

(** X7: after [deleteTask] the key is absent and every other key reads
    as before; deleting an absent key changes nothing, so deleting twice
    is deleting once; the key generator is not reset and the loaded
    tasks are not touched. *)
Theorem X7_deleteTask_removes st k :
  let st' := deleteTask k st in
  store_get k (store st') = None /\
  (forall k', k' <> k -> store_get k' (store st') = store_get k' (store st)) /\
  (store_get k (store st) = None -> st' = st) /\
  deleteTask k st' = st' /\
  nextId st' = nextId st /\ heap st' = heap st /\ tasks st' = tasks st.
Proof.
  cbn zeta. unfold deleteTask. cbn [store heap tasks nextId notices].
  split; [apply store_get_filter_eq|].
  split; [intros k' Hk'; apply store_get_filter_ne, Hk'|].
  split; [intros H; rewrite filter_absent by exact H; destruct st; reflexivity|].
  split; [|auto].
  rewrite filter_absent; [reflexivity|apply store_get_filter_eq].
Qed.


Section HandlerFacts.

Context {E : engine}.
Variable D : json -> option Z.

(** X8: when [resolveConflicts] finds a loaded task [e] within an hour of
    the new task, with no task before [e] within an hour, both times are
    valid dates and the time one hour after [e] is later than the time
    asked for, by less than two hours.  Where that time lies in the range
    of [Date], the [time] field of the new task is set to it and the other
    fields stay; the new time is no longer within an hour of [e], one
    notice with it is shown, and the call returns the task.  Beyond the
    range the call throws: nothing is written and no notice is shown. *)
Theorem X8_resolve_shift_bounds st l obj pre e post :
  heap st !! l = Some obj ->
  view st = pre ++ e :: post ->
  Forall (fun x => apart D (time obj) (time x)) pre ->
  within_hour D (time obj) (time e) ->
  let st' := snd (resolveConflicts D l st) in
  exists T0 T,
    newDate D (time obj) = Normal (Some T0) /\
    newDate D (time e) = Normal (Some T) /\
    T0 < T + 3600000 < T0 + 7200000 /\
    (Z.abs (T + 3600000) <= maxTime ->
     fst (resolveConflicts D l st) = Normal l /\
     notices st' = notices st ++ [T + 3600000] /\
     exists obj',
       heap st' !! l = Some obj' /\
       time obj' = VIso (T + 3600000) /\
       apart D (time obj') (time e) /\
       id obj' = id obj /\ title obj' = title obj /\
       description obj' = description obj /\ created obj' = created obj) /\
    (maxTime < Z.abs (T + 3600000) ->
     fst (resolveConflicts D l st) = Throw /\ st' = st).
Proof.
  intros Hobj Hview Hpre He st'.
  pose proof He as (T0 & T & HT0 & HT & Hab).
  exists T0, T. split; [exact HT0|]. split; [exact HT|]. split; [lia|].
  unfold st'. rewrite (resolveConflicts_resolution D _ _ _ Hobj), Hview.
  destruct (resolution_conflict D pre e post _ Hpre He) as (T' & HT' & ->).
  rewrite HT in HT'. injection HT' as <-. split.
  - intros Hle. apply Z.leb_le in Hle. rewrite Hle. cbn [fst snd heap notices].
    split; [reflexivity|]. split; [reflexivity|].
    eexists. split; [apply list_lookup_insert_eq; eapply lookup_lt_Some, Hobj|].
    cbn [time id title description created].
    split; [reflexivity|]. split; [|auto].
    exists (Some (T + 3600000)), (Some T).
    split; [reflexivity|]. split; [exact HT|].
    intros x y [= <-] [= <-]. lia.
  - intros Hgt. apply Z.leb_gt in Hgt. rewrite Hgt. auto.
Qed.


(** An id that is not in the list, or a cancelled prompt, changes
    nothing. *)
Lemma editTask_cancelled st k answer :
  (find_task (heap st) k (tasks st) = None -> editTask D k answer st = st) /\
  editTask D k None st = st.
Proof.
  unfold editTask. split.
  - intros ->. reflexivity.
  - destruct (find_task _ _ _); [|reflexivity].
    destruct (heap st !! _); reflexivity.
Qed.

(** X10: [deleteTaskHandler] does nothing when the confirmation is
    declined; confirmed, it removes the key from the store, leaves the
    other records alone and reloads the list, which then shows the stored
    records, each once, and no task with the deleted id. *)
Theorem X10_deleteTaskHandler st k :
  deleteTaskHandler D k false st = st /\
  let st' := deleteTaskHandler D k true st in
  store_get k (store st') = None /\
  (forall k', k' <> k -> store_get k' (store st') = store_get k' (store st)) /\
  view st' ≡ₚ store st' /\
  Forall (fun t => id t <> Some k) (view st').
Proof.
  split; [reflexivity|]. cbn zeta. unfold deleteTaskHandler.
  rewrite store_loadTasks.
  assert (Hperm : view (loadTasks D (deleteTask k st)) ≡ₚ store (deleteTask k st))
    by apply view_loadTasks_perm.
  split; [apply store_get_filter_eq|].
  split; [intros k' Hk'; apply store_get_filter_ne, Hk'|].
  split; [exact Hperm|].
  rewrite Hperm. unfold deleteTask. cbn [store].
  apply Forall_forall. intros x Hx.
  apply list_elem_of_filter in Hx as [Hx _]. exact Hx.
Qed.

End HandlerFacts.

Section InvariantFacts.

Context {E : engine}.
Variable D : json -> option Z.
Variable tz : zone.

Lemma sorted_ids_NoDup (s : list task) :
  StronglySorted key_lt s -> NoDup (id <$> s).
Proof.
  induction 1 as [|x s Hs IH Hx]; cbn [fmap list_fmap]; [constructor|].
  apply NoDup_cons. split; [|exact IH].
  intros Hin. apply list_elem_of_fmap in Hin as (y & Hy & Hin).
  rewrite Forall_forall in Hx. destruct (Hx y Hin) as (i & j & Hi & Hj & Hij).
  rewrite Hi, Hj in Hy. injection Hy as ->. lia.
Qed.

Lemma sorted_store_get (s : list task) r i :
  StronglySorted key_lt s -> r ∈ s -> id r = Some i ->
  store_get i s = Some r.
Proof.
  induction 1 as [|x s Hs IH Hx]; intros Hin Hi.
  - apply elem_of_nil in Hin. contradiction.
  - cbn [store_get]. apply elem_of_cons in Hin as [->|Hin].
    + rewrite Hi, Z.eqb_refl. reflexivity.
    + rewrite Forall_forall in Hx.
      destruct (Hx r Hin) as (a & b & Ha & Hb & Hab).
      rewrite Ha. rewrite Hi in Hb. injection Hb as <-.
      destruct (Z.eqb_spec a i); [lia|]. apply IH; assumption.
Qed.

(** X11: in every state the handlers reach from the empty scheduler no
    two stored records share an id, every record has an id below the key
    generator, and reading a record's id from the store gives that
    record. *)
Theorem X11_reachable_unique_ids st :
  reachable tz D st ->
  NoDup (id <$> store st) /\
  forall r, r ∈ store st ->
    exists i, id r = Some i /\ i < nextId st /\ store_get i (store st) = Some r.
Proof.
  intros Hr. destruct (reachable_inv D tz st Hr) as (_ & [Hs Hb] & _).
  split; [apply sorted_ids_NoDup, Hs|].
  intros r Hin. rewrite Forall_forall in Hb.
  destruct (Hb r Hin) as (i & Hi & Hlt).
  exists i. split; [exact Hi|]. split; [exact Hlt|].
  apply sorted_store_get; assumption.
Qed.

Lemma store_get_app k (s r : list task) :
  store_get k (s ++ r)
  = match store_get k s with
    | Some x => Some x
    | None => store_get k r
    end.
Proof.
  induction s as [|x s IH]; cbn [app store_get]; [reflexivity|].
  destruct (id x) as [i|]; [|exact IH].
  destruct (i =? k); [reflexivity|exact IH].
Qed.

Lemma store_get_absent k (r : list task) :
  Forall (fun x => id x <> Some k) r -> store_get k r = None.
Proof.
  induction 1 as [|x r Hx _ IH]; cbn [store_get]; [reflexivity|].
  destruct (id x) as [i|]; [|exact IH].
  destruct (Z.eqb_spec i k) as [->|]; [contradiction|exact IH].
Qed.

Lemma addTasks_loop_keeps cands :
  forall clock n st o st' k,
    addTasks_loop D clock n cands st = (o, st') -> k < nextId st ->
    store_get k (store st') = store_get k (store st) /\ nextId st <= nextId st'.
Proof.
  intros clock n st o st' k Hrun Hk.
  destruct (addTasks_loop_store D cands clock n st o st' Hrun)
    as (recs & Hs & Hn & Hid).
  split; [|lia]. rewrite Hs, store_get_app.
  destruct (store_get k (store st)); [reflexivity|].
  apply store_get_absent, Forall_forall. intros r Hr.
  apply list_elem_of_lookup_1 in Hr as [i Hi].
  rewrite (Hid i r Hi). intros [= E']. lia.
Qed.

(** X12: [addTasksFromAI] only appends: every key below the key generator
    reads after the batch as before it, whatever the candidates are and
    whether the batch ends or fails. *)
Theorem X12_addTasksFromAI_keeps_records clock cands st k :
  k < nextId st ->
  let st' := snd (addTasksFromAI D clock cands st) in
  store_get k (store st') = store_get k (store st) /\
  nextId st <= nextId st'.
Proof.
  intros Hk. cbn zeta. unfold addTasksFromAI.
  destruct (addTasks_loop D clock 0 cands st) as [o st1] eqn:Hloop.
  destruct (addTasks_loop_keeps _ _ _ _ _ _ k Hloop Hk) as [Hg Hn].
  destruct o; cbn [snd]; [rewrite store_loadTasks|]; auto.
Qed.

(** The loop on a list of candidates, then on those that follow. *)
Lemma addTasks_loop_app pre :
  forall clock n st post,
    addTasks_loop D clock n (pre ++ post) st
    = match addTasks_loop D clock n pre st with
      | (Fulfilled, st1) => addTasks_loop D clock (n + length pre) post st1
      | (Rejected, st1) => (Rejected, st1)
      end.
Proof.
  induction pre as [|c pre IH]; intros clock n st post.
  - cbn [app addTasks_loop length]. rewrite Nat.add_0_r. reflexivity.
  - cbn [app addTasks_loop length].
    destruct (get c (codes "title")); [|reflexivity].
    destruct (get c (codes "time")); [|reflexivity].
    destruct (get c (codes "description")); [|reflexivity].
    cbv zeta.
    destruct (resolveConflicts D _ _) as [[r|] st1]; [|reflexivity].
    destruct (saveTask r st1) as [[k|] st2]; [|reflexivity].
    rewrite IH.
    replace (S n + length pre)%nat with (n + S (length pre))%nat by lia.
    reflexivity.
Qed.

(** X13: a [null] among the candidates makes [addTasksFromAI] fail: the
    promise is rejected and the list on display is not reloaded.  The
    candidates before the [null] are stored, in order and as resolved
    against the list loaded before the batch, up to the first of them on
    which the code throws; all of them when there is none; the candidates
    after the [null] are not stored. *)
Theorem X13_null_candidate_stops_batch clock pre post st :
  tasks_valid st ->
  exists st' recs,
    addTasksFromAI D clock (pre ++ CJson JNull :: post) st = (Rejected, st') /\
    store st' = store st ++ recs /\
    (length recs <= length pre)%nat /\
    tasks st' = tasks st /\ view st' = view st /\
    (forall i r,
       recs !! i = Some r ->
       exists c, pre !! i = Some c /\
         stored_for D (view st) (clock i) (nextId st + Z.of_nat i) c r) /\
    (Forall (fun c => ~ throws_on D (view st) c) pre ->
     length recs = length pre).
Proof.
  intros Hv.
  destruct (addTasks_loop D clock 0 pre st) as [o st1] eqn:Hpre.
  destruct (addTasks_loop_spec D pre clock 0%nat st o st1 Hv Hpre)
    as (Ht & Hview & _ & recs & Hs & _ & Hlen & Hful & Hrej & Hrec).
  exists st1, recs.
  split; [|split; [exact Hs|split; [exact Hlen|split; [exact Ht|split;
    [exact Hview|split; [exact Hrec|]]]]]].
  - unfold addTasksFromAI. rewrite addTasks_loop_app, Hpre.
    destruct o; [rewrite addTasks_loop_null|]; reflexivity.
  - intros Hno. destruct o; [apply Hful; reflexivity|].
    destruct (Hrej eq_refl) as (c & Hc & Hthrow).
    rewrite Forall_forall in Hno. exfalso.
    apply (Hno c); [eapply list_elem_of_lookup_2, Hc|exact Hthrow].
Qed.

(** X14: [loadTasks] shows the stored records, each once, and no others;
    it changes neither the store nor the objects loaded before, and the
    new list holds fresh objects only. *)
Theorem X14_loadTasks_permutation st :
  view (loadTasks D st) ≡ₚ store st /\
  length (view (loadTasks D st)) = length (store st) /\
  store (loadTasks D st) = store st /\
  (forall l, (l < length (heap st))%nat ->
     heap (loadTasks D st) !! l = heap st !! l) /\
  Forall (fun l => (length (heap st) <= l)%nat) (tasks (loadTasks D st)).
Proof.
  rewrite view_loadTasks.
  split; [apply sortWith_perm|].
  split; [apply Permutation_length, sortWith_perm|].
  split; [reflexivity|]. split.
  - intros l Hl. unfold loadTasks. cbn [heap]. apply lookup_app_l, Hl.
  - unfold loadTasks. cbn [tasks]. apply Forall_seq. intros j Hj. lia.
Qed.

End InvariantFacts.

Lemma last_cons_cons {A} (x y : A) l : last (x :: y :: l) = last (y :: l).
Proof. reflexivity. Qed.

Lemma push_value_bottom v stack st' d :
  last stack = Some (FArr d) -> push_value v stack = Some st' ->
  array_bottom st'.
Proof.
  intros Hl Hp. left. destruct stack as [|[done|done [k|]] rest];
    cbn in Hp; try discriminate; injection Hp as <-; cbn [fst].
  - destruct rest; [eauto|]. rewrite last_cons_cons in *. eauto.
  - destruct rest; [discriminate|]. rewrite last_cons_cons in *. eauto.
Qed.

Lemma push_array_bottom items rest st' top :
  (exists d, last (top :: rest) = Some (FArr d)) ->
  (rest = [] -> exists d, top = FArr d) ->
  push_value (JArr items) rest = Some st' -> array_bottom st'.
Proof.
  intros [d Hl] Htop Hp. destruct rest as [|y rest].
  - cbn in Hp. injection Hp as <-. right. cbn. eauto.
  - rewrite last_cons_cons in Hl. eapply push_value_bottom; eassumption.
Qed.

Lemma parse_step_array_bottom st t st' :
  array_bottom st -> parse_step st t = Some st' -> array_bottom st'.
Proof.
  destruct st as [stack m]. intros [[d Hl]|[Hs [items Hm]]] Hstep;
    cbn [fst snd] in *; [|subst; discriminate].
  assert (Hstart : forall st', start_value t stack = Some st' -> array_bottom st').
  { intros st1 H1. destruct t; cbn in H1; try discriminate;
      try (eapply push_value_bottom; eassumption);
      injection H1 as <-; left; cbn [fst];
      destruct stack; try discriminate; rewrite last_cons_cons; eauto. }
  assert (Hkey : forall st', read_key t stack = Some st' -> array_bottom st').
  { intros st1 H1. destruct t; cbn in H1; try discriminate.
    destruct stack as [|[|done [|]] rest]; try discriminate.
    injection H1 as <-. left. cbn [fst].
    destruct rest; [discriminate|]. rewrite last_cons_cons in *. eauto. }
  destruct m; cbn in Hstep.
  - auto.
  - destruct t; auto.
    destruct stack as [|[[|]|] rest]; auto.
    eapply (push_array_bottom _ rest _ (FArr [])); eauto.
  - destruct t; auto.
    destruct stack as [|[|[|] [|]] rest]; auto.
    destruct rest; [discriminate|]. rewrite last_cons_cons in Hl.
    eapply push_value_bottom; eassumption.
  - auto.
  - destruct t; try discriminate. injection Hstep as <-. left. eauto.
  - destruct t; try discriminate.
    + destruct stack as [|[|done [|]] rest]; try discriminate.
      destruct rest; [discriminate|]. rewrite last_cons_cons in Hl.
      eapply push_value_bottom; eassumption.
    + destruct stack as [|[done|] rest]; try discriminate.
      eapply (push_array_bottom _ rest _ (FArr done)); eauto.
    + destruct stack as [|[|done [|]] rest]; try discriminate;
        injection Hstep as <-; left; eauto.
  - discriminate.
Qed.

Lemma parse_tokens_array ts :
  forall st v, array_bottom st -> parse_tokens st ts = Some v ->
    exists items, v = JArr items.
Proof.
  induction ts as [|t ts IH]; intros st v Hb Hp.
  - cbn in Hp. destruct st as [[|] []]; try discriminate.
    injection Hp as <-. destruct Hb as [[d Hl]|[_ [items Hm]]];
      [discriminate|]. cbn in Hm. injection Hm as ->. eauto.
  - cbn [parse_tokens] in Hp.
    destruct (parse_step st t) as [st'|] eqn:Hstep; [|discriminate].
    eapply IH; [|exact Hp]. eapply parse_step_array_bottom; eassumption.
Qed.

(** What parses and starts with "[" is an array. *)
Lemma JSON_parse_bracket rest v :
  JSON_parse (cu "[" :: rest) = Normal v -> exists items, v = JArr items.
Proof.
  unfold JSON_parse. cbn [lex].
  change (lex_step LTop (cu "[")) with (Some (LTop, [TLBrack])).
  cbn beta iota. intros H.
  destruct (lex LTop rest) as [ts|]; [|discriminate].
  cbn [app parse_tokens] in H.
  change (parse_step ([], PValue) TLBrack)
    with (Some ([FArr []], PFirstElem)) in H.
  cbn beta iota in H.
  destruct (parse_tokens ([FArr []], PFirstElem) ts) as [w|] eqn:Hp; [|discriminate].
  injection H as <-. eapply parse_tokens_array; [|exact Hp]. left. cbn. eauto.
Qed.

Section ParserFacts.

Context {E : engine}.
Variable D : json -> option Z.
Variable tz : zone.

(** With a bracket pair in the text, the result is [null] or the elements
    of the array between the first pair; no later rule has a say. *)
Lemma bracket_pair_decides now pre mid post :
  cu "[" ∉ pre -> cu "]" ∉ mid ->
  parseTaskFromAI tz now (pre ++ cu "[" :: mid ++ cu "]" :: post) = None \/
  exists items,
    JSON_parse (cu "[" :: mid ++ [cu "]"]) = Normal (JArr items) /\
    parseTaskFromAI tz now (pre ++ cu "[" :: mid ++ cu "]" :: post)
    = Some (map CJson items).
Proof.
  intros Hpre Hmid.
  destruct (JSON_parse (cu "[" :: mid ++ [cu "]"])) as [v|] eqn:Hp.
  - destruct (JSON_parse_bracket _ _ Hp) as [items ->].
    right. exists items. split; [reflexivity|].
    unfold parseTaskFromAI.
    rewrite (array_rule_first_bracket pre mid post items) by assumption.
    reflexivity.
  - left. apply (parse_array_throws tz now _ (cu "[" :: mid ++ [cu "]"]) []).
    + rewrite arrayRe_bracket. apply exec_bracket; assumption.
    + rewrite trim_bracketed by reflexivity. exact Hp.
Qed.

Lemma array_rule_no_bracket s : cu "[" ∉ s -> array_rule s = Normal None.
Proof.
  intros H. unfold array_rule.
  rewrite arrayRe_bracket, exec_bracket_none by exact H. reflexivity.
Qed.

Lemma object_rule_no_brace s : cu "{" ∉ s -> object_rule s = Normal None.
Proof.
  intros H. unfold object_rule.
  rewrite objectRe_bracket, exec_bracket_none by exact H. reflexivity.
Qed.

(** X15: in a text without an opening bracket, the characters from the
    first opening brace to the first closing brace after it, when they
    parse as JSON, are the one candidate [parseTaskFromAI] returns,
    whatever stands before and after them. *)
Theorem X15_object_rule_single_candidate now pre mid post v :
  cu "[" ∉ pre ++ cu "{" :: mid ++ cu "}" :: post ->
  cu "{" ∉ pre -> cu "}" ∉ mid ->
  JSON_parse (cu "{" :: mid ++ [cu "}"]) = Normal v ->
  parseTaskFromAI tz now (pre ++ cu "{" :: mid ++ cu "}" :: post)
  = Some [CJson v].
Proof.
  intros Hno Hpre Hmid Hp. unfold parseTaskFromAI.
  rewrite array_rule_no_bracket by exact Hno. cbn [and_then].
  unfold object_rule.
  rewrite objectRe_bracket, exec_bracket by assumption.
  rewrite trim_bracketed by reflexivity. rewrite Hp. reflexivity.
Qed.

(** X16: a response whose first bracket pair is an empty array gives an
    empty list of candidates, and [analyzeMedia] then changes nothing:
    nothing is stored and the list is not reloaded. *)
Theorem X16_empty_array_is_no_op now clock pre post st :
  cu "[" ∉ pre ->
  parseTaskFromAI tz now (pre ++ codes "[]" ++ post) = Some [] /\
  analyzeMedia tz D now clock (pre ++ codes "[]" ++ post) st = st.
Proof.
  intros Hpre.
  assert (Hparse : parseTaskFromAI tz now (pre ++ codes "[]" ++ post) = Some []).
  { unfold parseTaskFromAI.
    change (pre ++ codes "[]" ++ post) with (pre ++ cu "[" :: [] ++ cu "]" :: post).
    rewrite (array_rule_first_bracket pre [] post []);
      [reflexivity|exact Hpre|apply not_elem_of_nil|reflexivity]. }
  split; [exact Hparse|]. unfold analyzeMedia. rewrite Hparse. reflexivity.
Qed.

Lemma trim_nil s : trim s = [] <-> Forall (fun c => is_space c = true) s.
Proof.
  unfold trim. split.
  - intros H. apply (f_equal (@rev N)) in H. rewrite rev_involutive in H.
    cbn [rev] in H. apply trim_start_nil in H.
    apply Forall_rev in H. rewrite rev_involutive in H.
    destruct (trim_start s) as [|c r] eqn:Es; [apply trim_start_nil, Es|].
    apply trim_start_head in Es as Hc.
    apply Forall_cons in H as [H _]. congruence.
  - intros H. apply trim_start_nil in H. rewrite H. reflexivity.
Qed.

(** X17: the handler of the button for text does nothing when the input
    is empty or holds white space and line ends only; with any other
    character in it, the whole input, untrimmed, goes into the prompt. *)
Theorem X17_analyzeText_blank ai now clock value st :
  (Forall (fun c => is_space c = true) value ->
   analyzeText tz D ai now clock value st = st) /\
  (Exists (fun c => is_space c = false) value ->
   analyzeText tz D ai now clock value st
   = analyzeMedia tz D now clock (ai (text_prompt value)) st).
Proof.
  unfold analyzeText. split.
  - intros H. apply trim_nil in H. rewrite H. reflexivity.
  - intros H. destruct (trim value) as [|c r] eqn:Et; [|reflexivity].
    apply trim_nil in Et. apply Exists_exists in H as (c & Hin & Hc).
    rewrite Forall_forall in Et. rewrite (Et c Hin) in Hc. discriminate.
Qed.

End ParserFacts.

(** ** The lexical fallback *)

Section FallbackFacts.

Variable tz : zone.

Lemma parse_without_brackets now s :
  cu "[" ∉ s -> cu "{" ∉ s ->
  parseTaskFromAI tz now s = caught (lexical_rule tz now s).
Proof.
  intros Ha Ho. unfold parseTaskFromAI.
  rewrite array_rule_no_bracket, object_rule_no_brace by assumption.
  reflexivity.
Qed.

(** X18: on a text without an opening bracket or brace the result is
    [null] when the task pattern finds nothing.  When it finds a match the
    result is one candidate: its title is the capture of the task pattern,
    trimmed, so it has no white space at either end; its time is the
    default time when the time pattern finds nothing, and else today with
    the hour and the minute that [parseTimeString] reads from the capture
    of the time pattern ([read_time]), each below 100. *)
Theorem X18_fallback_candidate now s :
  cu "[" ∉ s -> cu "{" ∉ s ->
  (exec taskRe s = None -> parseTaskFromAI tz now s = None) /\
  (forall w m,
     exec taskRe s = Some (w, m) ->
     exists t0 ms,
       capture 1 m = Some t0 /\
       parseTaskFromAI tz now s = Some [CLex (trim t0) ms] /\
       trim (trim t0) = trim t0 /\
       (exec timeRe s = None -> ms = getDefaultTime tz now) /\
       (forall w' m',
          exec timeRe s = Some (w', m') ->
          exists ts h mi,
            capture 1 m' = Some ts /\ read_time ts = Some (h, mi) /\
            0 <= h < 100 /\ 0 <= mi < 100 /\
            ms = setHours4 tz now h mi 0 0)).
Proof.
  intros Ha Ho. rewrite parse_without_brackets by assumption.
  destruct (lexical_rule_shape tz now s) as [Hnone Hsome]. split.
  - intros Ht. rewrite (Hnone Ht). reflexivity.
  - intros w m Ht.
    destruct (Hsome w m Ht) as (t0 & ms & Hc & -> & Hdef & Hread).
    exists t0, ms. split; [exact Hc|]. split; [reflexivity|].
    split; [apply trim_idem|]. split; assumption.
Qed.

(** X19: on a text without an opening bracket or brace and without a
    digit, a candidate found by the task pattern is always scheduled at
    the default time. *)
Theorem X19_fallback_no_digit now s l :
  cu "[" ∉ s -> cu "{" ∉ s ->
  Forall (fun x => is_digit x = false) s ->
  parseTaskFromAI tz now s = Some l ->
  exists t, l = [CLex t (getDefaultTime tz now)] /\ trim t = t.
Proof.
  intros Ha Ho Hd. rewrite parse_without_brackets by assumption.
  unfold lexical_rule. rewrite (exec_timeRe_no_digit s Hd).
  destruct (exec taskRe s) as [[w m]|] eqn:Et; [|discriminate].
  apply exec_sound in Et as (s0 & s' & _ & Hm & _).
  apply taskRe_captures in Hm as [t ->]. cbn [capture Nat.eqb caught].
  intros [= <-]. exists (trim t). split; [reflexivity|apply trim_idem].
Qed.

End FallbackFacts.

(** ** The order shown after a drop *)

Lemma sorted_length_le (l : list nat) lo hi :
  StronglySorted lt l -> Forall (fun y => (lo <= y < hi)%nat) l ->
  (length l <= hi - lo)%nat.
Proof.
  revert lo. induction l as [|x l IH]; intros lo Hs Hr; cbn [length]; [lia|].
  apply StronglySorted_inv in Hs as [Hs Hx].
  apply Forall_cons in Hr as [Hxr Hr].
  assert (H : (length l <= hi - S x)%nat).
  { apply IH; [exact Hs|]. rewrite Forall_forall in Hx, Hr |- *.
    intros y Hy. specialize (Hx y Hy). specialize (Hr y Hy). lia. }
  lia.
Qed.

(** Strictly increasing numbers that fill their range are the range. *)
Lemma sorted_range (l : list nat) :
  forall a, StronglySorted lt l ->
    Forall (fun x => (a <= x < a + length l)%nat) l -> l = seq a (length l).
Proof.
  induction l as [|x l IH]; intros a Hs Hr; [reflexivity|].
  cbn [length seq] in *.
  apply StronglySorted_inv in Hs as [Hs Hx].
  apply Forall_cons in Hr as [Hxr Hr].
  assert (Htail : Forall (fun y => (S x <= y < a + S (length l))%nat) l).
  { rewrite Forall_forall in Hx, Hr |- *.
    intros y Hy. specialize (Hx y Hy). specialize (Hr y Hy). lia. }
  pose proof (sorted_length_le l (S x) (a + S (length l)) Hs Htail) as Hlen.
  assert (x = a) by lia. subst x. f_equal.
  apply IH; [exact Hs|].
  eapply Forall_impl; [exact Htail|]. intros y Hy. cbn beta in *. lia.
Qed.

Lemma Forall_exists_Forall2 {A B} (Q : A -> B -> Prop) (l : list A) :
  Forall (fun x => exists y, Q x y) l -> exists l', Forall2 Q l l'.
Proof.
  induction 1 as [|x l [y Hy] _ [l' IH]].
  - exists []. constructor.
  - exists (y :: l'). constructor; assumption.
Qed.

Lemma Forall2_sorted {A B} (R : A -> A -> Prop) (S : B -> B -> Prop)
    (Q : A -> B -> Prop) l l' :
  (forall x x' y y', R x x' -> Q x y -> Q x' y' -> S y y') ->
  Forall2 Q l l' -> StronglySorted R l -> StronglySorted S l'.
Proof.
  intros HRS. induction 1 as [|x y l l' Hxy Hll IH]; intros Hs; [constructor|].
  apply StronglySorted_inv in Hs as [Hs Hx].
  constructor; [apply IH, Hs|].
  clear IH Hs. induction Hll as [|x' y' l l' Hxy' _ IH]; [constructor|].
  apply Forall_cons in Hx as [Hxx' Hx].
  constructor; [eapply HRS; eassumption|apply IH, Hx].
Qed.

Lemma store_get_elem k (s : list task) r :
  store_get k s = Some r -> r ∈ s /\ id r = Some k.
Proof.
  induction s as [|x s IH]; cbn [store_get]; [discriminate|].
  destruct (id x) as [kx|] eqn:Hx.
  - destruct (Z.eqb_spec kx k) as [->|].
    + intros [= <-]. split; [left|exact Hx].
    + intros H. apply IH in H as [H1 H2]. split; [right; exact H1|exact H2].
  - intros H. apply IH in H as [H1 H2]. split; [right; exact H1|exact H2].
Qed.

Section ReorderOrder.

Context {E : engine}.
Variable D : json -> option Z.
Variable tz : zone.

Lemma reorder_loop_ids_in startTime (all : list Z) order :
  forall i st,
    Forall (fun k => k ∈ all) order ->
    Forall (fun r => exists k, id r = Some k /\ k ∈ all) (store st) ->
    Forall (fun r => exists k, id r = Some k /\ k ∈ all)
           (store (reorder_loop tz startTime i order st)).
Proof.
  induction order as [|k0 rest IH]; intros i st Hin Hst; cbn [reorder_loop].
  - exact Hst.
  - apply Forall_cons in Hin as [Hk0 Hin].
    destruct (find_task (heap st) k0 (tasks st)) as [l|] eqn:Hfind; [|auto].
    destruct (find_task_Some _ _ _ _ Hfind) as (t & Hl & Ht & _).
    rewrite Hl. apply IH; [exact Hin|].
    unfold updateTask. cbn [with_heap heap].
    rewrite list_lookup_insert_eq by (eapply lookup_lt_Some, Hl).
    cbn [set_time id]. rewrite Ht. cbn [store].
    apply Forall_store_put; [|exact Hst].
    exists k0. split; [exact Ht|exact Hk0].
Qed.

(** X20: when the ids dropped are distinct, all in the list, and cover
    every stored record, and the instants at which the local clocks read
    9:00, 10:00, ... of today, one for each position, come one after the
    other (as they do unless the clocks are changed in between), the list
    after [handleTaskReorder] shows the tasks in the order dropped: the
    task at position [j] has the [j]-th id and the instant at which the
    local clocks read 9 + [j] hours after the midnight of today.  The
    local time 9:00 of today is one that is read back. *)
Theorem X20_reorder_shows_order now order st :
  store_ok st -> NoDup order ->
  (forall k, k ∈ order -> is_Some (find_task (heap st) k (tasks st))) ->
  Forall (fun r => exists k, id r = Some k /\ k ∈ order) (store st) ->
  let today := Day (LocalTime tz now) in
  read_back tz (MakeDate today (MakeTime 9 0 0 0)) ->
  (forall i j, (i < j < length order)%nat ->
     wall_clock tz today (9 + Z.of_nat i) < wall_clock tz today (9 + Z.of_nat j)) ->
  let st' := handleTaskReorder tz D now order st in
  length (view st') = length order /\
  forall j k,
    order !! j = Some k ->
    exists r, view st' !! j = Some r /\ id r = Some k /\
      time r = VIso (wall_clock tz today (9 + Z.of_nat j)).
Proof.
  intros Hok Hnd Hfound Hcover today Hrb Hmono st'.
  set (nine := setHours4 tz now 9 0 0 0).
  set (st1 := reorder_loop tz nine 0 order st).
  assert (Hview0 : view st' = sortWith (byTime D) (store st1))
    by (unfold st', handleTaskReorder; apply view_loadTasks).
  assert (Hok1 : store_ok st1) by (apply reorder_loop_store_ok, Hok).
  destruct (reorder_loop_spec tz nine order 0 st Hnd) as (_ & _ & _ & Hpos).
  fold st1 in Hpos. cbn zeta in Hpos.
  assert (HB : forall j k, order !! j = Some k ->
            exists r, store_get k (store st1) = Some r /\ id r = Some k /\
              time r = VIso (wall_clock tz today (9 + Z.of_nat j))).
  { intros j k Hj. destruct (Hpos j k Hj) as (r & Hr & Hid & Htime).
    - apply Hfound. eapply list_elem_of_lookup_2, Hj.
    - exists r. split; [exact Hr|]. split; [exact Hid|].
      rewrite Htime. unfold nine.
      rewrite Z.add_0_l, (reorder_time tz now _ Hrb). reflexivity. }
  assert (HC : Forall (fun r => exists k, id r = Some k /\ k ∈ order) (store st1)).
  { apply reorder_loop_ids_in; [|exact Hcover]. apply Forall_forall. auto. }
  set (Q := fun (r : task) (j : nat) =>
              exists k, order !! j = Some k /\ id r = Some k /\
                time r = VIso (wall_clock tz today (9 + Z.of_nat j))).
  assert (HD : Forall (fun r => exists j, Q r j) (store st1)).
  { rewrite Forall_forall in HC |- *. intros r Hr.
    destruct (HC r Hr) as (k & Hid & Hk).
    apply list_elem_of_lookup_1 in Hk as [j Hj].
    destruct (HB j k Hj) as (r' & Hget & _ & Htime).
    rewrite (sorted_store_get _ r k (proj1 Hok1) Hr Hid) in Hget.
    injection Hget as <-. exists j, k. auto. }
  assert (Hvalid : Forall (valid_time D) (store st1)).
  { eapply Forall_impl; [exact HD|]. intros r (j & k & _ & _ & Ht).
    unfold valid_time. rewrite Ht. cbn. eauto. }
  assert (Hview : view st' = sort D (store st1))
    by (rewrite Hview0; apply sortWith_valid, Hvalid).
  assert (Hsorted : StronglySorted (earlier D) (view st'))
    by (rewrite Hview; apply sort_sorted; [apply Hok1|exact Hvalid]).
  assert (Hperm : view st' ≡ₚ store st1) by (rewrite Hview0; apply sortWith_perm).
  assert (HDv : Forall (fun r => exists j, Q r j) (view st'))
    by (rewrite Hperm; exact HD).
  destruct (Forall_exists_Forall2 Q _ HDv) as [P HP].
  assert (HsP : StronglySorted lt P).
  { eapply (Forall2_sorted (earlier D) lt Q); [|exact HP|exact Hsorted].
    intros x x' j j' (ta & tb & ia & ib & Hta & Htb & Hia & Hib & Hlt)
           (k & Hj & Hk & Ht) (k' & Hj' & Hk' & Ht').
    rewrite Ht in Hta. rewrite Ht' in Htb. cbn in Hta, Htb.
    injection Hta as <-. injection Htb as <-.
    pose proof (lookup_lt_Some _ _ _ Hj) as Hlj.
    pose proof (lookup_lt_Some _ _ _ Hj') as Hlj'.
    destruct (Nat.lt_trichotomy j j') as [Hjj|[Hjj|Hjj]]; [exact Hjj| |].
    - subst j'. rewrite Hj in Hj'. injection Hj' as <-.
      rewrite Hk in Hia. rewrite Hk' in Hib.
      injection Hia as <-. injection Hib as <-. lia.
    - pose proof (Hmono j' j ltac:(lia)). lia. }
  assert (Hlen : length (store st1) = length order).
  { rewrite <- (length_fmap id (store st1)), <- (length_fmap Some order).
    apply Permutation_length, NoDup_Permutation.
    - apply sorted_ids_NoDup, Hok1.
    - apply NoDup_fmap; [intros a b [= ->]; reflexivity|exact Hnd].
    - intros x. rewrite !list_elem_of_fmap. split.
      + intros (r & -> & Hr). rewrite Forall_forall in HC.
        destruct (HC r Hr) as (k & Hid & Hk). exists k. auto.
      + intros (k & -> & Hk). apply list_elem_of_lookup_1 in Hk as [j Hj].
        destruct (HB j k Hj) as (r & Hget & Hid & _).
        apply store_get_elem in Hget as [Hr _]. exists r. auto. }
  assert (HlenP : length P = length order).
  { rewrite <- (Forall2_length _ _ _ HP), (Permutation_length Hperm). exact Hlen. }
  assert (HPseq : P = seq 0 (length order)).
  { rewrite <- HlenP. apply sorted_range; [exact HsP|].
    rewrite HlenP. apply Forall_forall. intros j Hj.
    apply list_elem_of_lookup_1 in Hj as [i Hi].
    destruct (Forall2_lookup_r _ _ _ _ _ HP Hi) as (r & _ & k & Hjk & _).
    apply lookup_lt_Some in Hjk. lia. }
  split; [rewrite (Forall2_length _ _ _ HP); exact HlenP|].
  intros j k Hj.
  assert (HPj : P !! j = Some j).
  { rewrite HPseq. apply lookup_seq. split; [reflexivity|].
    eapply lookup_lt_Some, Hj. }
  destruct (Forall2_lookup_r _ _ _ _ _ HP HPj) as (r & Hr & k' & Hjk & Hid & Ht).
  rewrite Hj in Hjk. injection Hjk as <-.
  exists r. auto.
Qed.

End ReorderOrder.


(** ** The further properties at concrete inputs *)

(** [9:05] is five past nine. *)
Lemma X3_parseTimeString_24h_witness :
  parseTimeString 0 1736500000000 (codes "9:05")
  = Normal (setHours4 0 1736500000000 9 5 0 0).
Proof.
  exact (proj1 (X3_parseTimeString_24h 0 1736500000000 9 5
                  ltac:(lia) ltac:(lia))).
Defined.

(** [5:30 PM sharp] is 17:30. *)
Lemma X4_parseTimeString_12h_witness :
  parseTimeString 0 1736500000000 (codes "5:30 PM sharp")
  = Normal (setHours4 0 1736500000000 17 30 0 0).
Proof.
  refine (proj1 (proj2 (X4_parseTimeString_12h 0 1736500000000 5 30
                          (codes " ") (cu "P") (cu "M") (codes " sharp")
                          ltac:(lia) ltac:(lia) _ eq_refl) eq_refl)).
  apply Forall_cons_2; [reflexivity|apply Forall_nil_2].
Defined.

(** The vet visit, not yet stored, is stored under the key 2. *)
Lemma X5_saveTask_round_trip_witness :
  exists st',
    saveTask 1%nat st_meeting = (Normal 2, st') /\
    store_get 2 (store st') = Some (set_id 2 vet).
Proof.
  destruct (X5_saveTask_round_trip st_meeting 1%nat vet) as (st' & H1 & H2 & _).
  - split; repeat constructor. exists 1. split; [reflexivity|reflexivity].
  - reflexivity.
  - reflexivity.
  - exists st'. split; [exact H1|exact H2].
Defined.

(** The meeting is put back under its key 1. *)
Lemma X6_updateTask_upsert_witness :
  store_get 1 (store (updateTask 0%nat st_meeting)) = Some meeting.
Proof.
  refine (proj1 (X6_updateTask_upsert st_meeting 0%nat meeting 1 _ eq_refl eq_refl)).
  split; repeat constructor. exists 1. split; [reflexivity|reflexivity].
Defined.

(** The vet visit asked for 11:00 passes breakfast, stops at the meeting
    and is moved to 12:00, with one notice. *)
Lemma X8_resolve_shift_bounds_witness :
  notices (snd (resolveConflicts example_dates 3%nat st_day))
  = notices st_day ++ [1736506800000 + 3600000].
Proof.
  assert (Hpre : Forall (fun x => apart example_dates (time vet) (time x))
                        [breakfast]).
  { apply Forall_cons_2; [|apply Forall_nil_2].
    exists (Some 1736506800000), (Some 1736499600000).
    split; [reflexivity|]. split; [reflexivity|].
    intros x y [= <-] [= <-]. vm_compute. discriminate. }
  assert (He : within_hour example_dates (time vet) (time meeting)).
  { exists 1736506800000, 1736506800000.
    split; [reflexivity|]. split; [reflexivity|]. reflexivity. }
  pose proof (X8_resolve_shift_bounds example_dates st_day 3%nat vet
                [breakfast] meeting [call] eq_refl eq_refl Hpre He) as H.
  cbv zeta in H. destruct H as (T0 & T & _ & HT & _ & Hmove & _).
  injection HT as <-. apply Hmove. vm_compute. discriminate.
Defined.


(** The state after one response has been analysed. *)
Lemma X11_reachable_unique_ids_witness :
  NoDup (id <$> store (analyzeMedia 0 example_dates 0 clock0 text_untitled
                         (loadTasks example_dates initial))).
Proof.
  refine (proj1 (X11_reachable_unique_ids example_dates 0 _ _)).
  apply reach_analyze, reach_init.
Defined.

(** The meeting is still stored after a batch. *)
Lemma X12_addTasksFromAI_keeps_records_witness :
  store_get 1 (store (snd (addTasksFromAI example_dates clock0 [titled "a"]
                             st_meeting)))
  = store_get 1 (store st_meeting).
Proof.
  refine (proj1 (X12_addTasksFromAI_keeps_records example_dates clock0
                   [titled "a"] st_meeting 1 _)).
  reflexivity.
Defined.

(** Of the candidates [a], [null], [b] the batch stops at [null]. *)
Lemma X13_null_candidate_stops_batch_witness :
  exists st',
    addTasksFromAI example_dates clock0
      ([titled "a"] ++ CJson JNull :: [titled "b"]) initial = (Rejected, st') /\
    tasks st' = tasks initial.
Proof.
  destruct (X13_null_candidate_stops_batch example_dates clock0
              [titled "a"] [titled "b"] initial)
    as (st' & recs & H & _ & _ & Ht & _).
  - apply Forall_nil_2.
  - exists st'. split; [exact H|exact Ht].
Defined.

(** The text [Sure: {"title":"a"} done]. *)
Lemma X15_object_rule_single_candidate_witness :
  parseTaskFromAI 0 0
    (codes "Sure: " ++ cu "{" :: (quoted "title" ++ codes ":" ++ quoted "a")
       ++ cu "}" :: codes " done")
  = Some [CJson (JObj [(codes "title", JStr (codes "a"))])].
Proof.
  apply X15_object_rule_single_candidate.
  - apply not_elem_of_codes. reflexivity.
  - apply not_elem_of_codes. reflexivity.
  - apply not_elem_of_codes. reflexivity.
  - reflexivity.
Defined.

(** The text [none: [].]. *)
Lemma X16_empty_array_is_no_op_witness :
  analyzeMedia 0 example_dates 0 clock0 (codes "none: " ++ codes "[]" ++ codes ".")
    st_meeting
  = st_meeting.
Proof.
  refine (proj2 (X16_empty_array_is_no_op example_dates 0 0 clock0
                   (codes "none: ") (codes ".") st_meeting _)).
  apply not_elem_of_codes. reflexivity.
Defined.

(** The text [The task is: Buy milk at 5pm]: the title is the capture
    [is: Buy milk] and the time is read from [5pm]. *)
Lemma X18_fallback_candidate_witness :
  exists ms,
    parseTaskFromAI 0 0 text_buy_milk = Some [CLex (trim (codes "is: Buy milk")) ms] /\
    exists ts h mi,
      capture 1 [(1%nat, codes "5pm")] = Some ts /\ read_time ts = Some (h, mi) /\
      ms = setHours4 0 0 h mi 0 0.
Proof.
  destruct (X18_fallback_candidate 0 0 text_buy_milk) as [_ H].
  - apply not_elem_of_codes. reflexivity.
  - apply not_elem_of_codes. reflexivity.
  - destruct (H (codes "task is: Buy milk") [(1%nat, codes "is: Buy milk")])
      as (t0 & ms & Hc & Hp & _ & _ & Htime).
    + vm_compute. reflexivity.
    + injection Hc as <-. exists ms. split; [exact Hp|].
      destruct (Htime (codes "at 5pm") [(1%nat, codes "5pm")])
        as (ts & h & mi & Hts & Hr & _ & _ & Hms).
      * vm_compute. reflexivity.
      * exists ts, h, mi. auto.
Defined.

(** The text [task: call mum]. *)
Lemma X19_fallback_no_digit_witness :
  exists t,
    [CLex (codes "call mum") (getDefaultTime 0 0)] = [CLex t (getDefaultTime 0 0)] /\
    trim t = t.
Proof.
  apply (X19_fallback_no_digit 0 0 (codes "task: call mum")).
  - apply not_elem_of_codes. reflexivity.
  - apply not_elem_of_codes. reflexivity.
  - repeat constructor.
  - reflexivity.
Defined.

(** The three tasks dropped in the order 3, 1, 2: the task 1 is shown
    second, at 10:00. *)
Lemma X20_reorder_shows_order_witness :
  exists r,
    view (handleTaskReorder 0 example_dates 1736500000000 [3; 1; 2] st_three)
      !! 1%nat = Some r /\
    id r = Some 1 /\
    time r = VIso (wall_clock 0 (Day (LocalTime 0 1736500000000)) (9 + Z.of_nat 1)).
Proof.
  pose proof (X20_reorder_shows_order example_dates 0 1736500000000 [3; 1; 2]
                st_three) as H.
  cbv zeta in H. destruct H as [_ H].
  - split.
    + vm_compute. repeat constructor; vm_compute; eauto 10.
    + vm_compute. repeat constructor; vm_compute; eexists; (split; [reflexivity|reflexivity]).
  - repeat constructor; rewrite ?elem_of_cons, ?elem_of_nil; intros H;
      repeat destruct H as [H|H]; try discriminate H; exact H.
  - intros k Hk. rewrite !elem_of_cons, elem_of_nil in Hk.
    destruct Hk as [->|[->|[->|[]]]]; vm_compute; eexists; reflexivity.
  - vm_compute.
    repeat (apply Forall_cons_2; [eexists; split; [reflexivity|repeat constructor]|]).
    apply Forall_nil_2.
  - apply read_back_fixed.
  - intros i j Hij. unfold wall_clock, UTC, MakeDate, MakeTime. cbn [localOffset fixed].
    unfold msPerHour. lia.
  - apply (H 1%nat 1). reflexivity.
Defined.
